(** * queue.c: a circular doubly-linked queue of strings

    A shallow embedding of [queue.c] over an explicit heap.  Link records
    ([struct list_head]) and element payloads live in finite maps indexed by
    address; every C function becomes a computation in a small state monad
    whose outcomes distinguish a normal return, undefined behaviour (an access
    to memory that is not allocated, a write outside a buffer) and fuel
    exhaustion of a loop. *)

From stdpp Require Import gmap strings list fin_maps sorting.
From Stdlib Require Import ZArith Lia Ascii.
From Stdlib Require String.

Local Open Scope Z_scope.

(** ** Strings and [strcmp] *)

(** A value of type [string] holds the bytes of a C string before its
    terminator.  [uchar] is the conversion to [unsigned char] that [strcmp]
    applies to each byte. *)
Definition uchar (c : ascii) : Z := Z.of_N (N_of_ascii c).

(** [strcmp] of the C library: the difference of the first pair of bytes that
    differ, where the end of a string reads as the terminator 0, and the
    comparison stops at a terminator. *)
Fixpoint strcmp (s1 s2 : string) : Z :=
  match s1, s2 with
  | EmptyString, EmptyString => 0
  | EmptyString, String c2 _ => 0 - uchar c2
  | String c1 _, EmptyString => uchar c1 - 0
  | String c1 t1, String c2 t2 =>
      if uchar c1 =? uchar c2
      then (if uchar c1 =? 0 then 0 else strcmp t1 t2)
      else uchar c1 - uchar c2
  end.

(** ** The heap *)

Definition addr := Z.
Definition NULL : addr := 0.

(** [struct list_head { struct list_head *next, *prev; }] *)
Record list_head := ListHead { next : addr; prev : addr }.

(** The heap: [links] holds every allocated [struct list_head] (the sentinel
    of a queue and the [list] member of every [element_t]); [values] holds,
    for an element, the string its [value] member points to.  An element is
    identified with the address of its [list] member, so that
    [list_entry(p, element_t, list)] is [p] itself. *)
Record heap := Heap {
  links : gmap Z list_head;
  values : gmap Z string
}.

Definition next_of (h : heap) (p : addr) : option addr := next <$> links h !! p.
Definition prev_of (h : heap) (p : addr) : option addr := prev <$> links h !! p.

(** ** The monad of heap computations *)

Inductive result (A : Type) : Type :=
| Ok (a : A) (h : heap)
| Fault
| OutOfFuel.
Arguments Ok {A} a h.
Arguments Fault {A}.
Arguments OutOfFuel {A}.

Definition M (A : Type) : Type := heap → result A.

#[global] Instance M_ret : MRet M := λ A a h, Ok a h.
#[global] Instance M_bind : MBind M := λ A B f m h,
  match m h with
  | Ok a h' => f a h'
  | Fault => Fault
  | OutOfFuel => OutOfFuel
  end.

Definition fault {A} : M A := λ _, Fault.
Definition out_of_fuel {A} : M A := λ _, OutOfFuel.

(** [p->next] and [p->prev] as rvalues. *)
Definition load_next (p : addr) : M addr := λ h,
  match links h !! p with
  | Some n => Ok (next n) h
  | None => Fault
  end.

Definition load_prev (p : addr) : M addr := λ h,
  match links h !! p with
  | Some n => Ok (prev n) h
  | None => Fault
  end.

(** The heap after [p->next = v], and after [p->prev = v]. *)
Definition set_next (p v : addr) (h : heap) : heap :=
  Heap (alter (λ n, ListHead v (prev n)) p (links h)) (values h).

Definition set_prev (p v : addr) (h : heap) : heap :=
  Heap (alter (λ n, ListHead (next n) v) p (links h)) (values h).

(** [p->next = v] and [p->prev = v]: undefined when [p] is not allocated. *)
Definition store_next (p v : addr) : M unit := λ h,
  match links h !! p with
  | Some _ => Ok tt (set_next p v h)
  | None => Fault
  end.

Definition store_prev (p v : addr) : M unit := λ h,
  match links h !! p with
  | Some _ => Ok tt (set_prev p v h)
  | None => Fault
  end.

(** [list_entry(p, element_t, list)->value], read as a string. *)
Definition load_value (p : addr) : M string := λ h,
  match values h !! p with
  | Some s => Ok s h
  | None => Fault
  end.

(** ** list.h *)

Module ListH.

(** Modelled from the spec: [list.h] is missing from the sources; the
    primitives below follow section 4.1 (List Core) of the specification and
    the way queue.c calls them.  [list_empty]: the sentinel's [next] points to
    itself. *)
Definition list_empty (head : addr) : M bool :=
  nx ← load_next head; mret (bool_decide (nx = head)).

(** Modelled from the spec: [list_is_singular], exactly one element, decided
    on the sentinel's immediate neighbours. *)
Definition list_is_singular (head : addr) : M bool :=
  e ← list_empty head;
  if e : bool then (mret false : M bool)
  else pv ← load_prev head; nx ← load_next head; mret (bool_decide (pv = nx)).

(** Modelled from the spec: [INIT_LIST_HEAD], [next = prev = self]. *)
Definition INIT_LIST_HEAD (head : addr) : M unit :=
  store_next head head;; store_prev head head.

(** Modelled from the spec: [list_add], insert [node] immediately after
    [head], updating four pointers. *)
Definition list_add (node head : addr) : M unit :=
  nx ← load_next head;
  store_prev nx node;;
  store_next node nx;;
  store_prev node head;;
  store_next head node.

(** Modelled from the spec: [list_add_tail], insert [node] immediately before
    [head], updating four pointers. *)
Definition list_add_tail (node head : addr) : M unit :=
  pv ← load_prev head;
  store_next pv node;;
  store_next node head;;
  store_prev node pv;;
  store_prev head node.

(** Modelled from the spec: [list_del], unlink [node] by making its neighbours
    point to each other; the node's own pointers are left as they were. *)
Definition list_del (node : addr) : M unit :=
  nx ← load_next node;
  pv ← load_prev node;
  store_prev nx pv;;
  store_next pv nx.

(** Modelled from the spec: [list_move], unlink [node] and insert it again
    next to [head].  Section 4.1 words the insertion as before the anchor,
    the description of the reversal as immediately after the sentinel; only
    the second reverses a list (with the first the loop of [q_reverse] would
    meet the moved nodes again), and it is the one modelled. *)
Definition list_move (node head : addr) : M unit :=
  list_del node;; list_add node head.

End ListH.
Import ListH.

(** ** The allocator and the C library *)

(** [malloc] of a [struct list_head] or an [element_t].  The allocator's
    answer [e] is an input of the model: [NULL] when the allocation fails,
    otherwise the address of a block that was not allocated before; its
    members are not initialised (they read as [NULL] here, and queue.c writes
    them before it reads). *)
Definition malloc (e : addr) : M addr := λ h,
  if bool_decide (e = NULL) then Ok NULL h
  else Ok e (Heap (<[e := ListHead NULL NULL]> (links h)) (values h)).

(** [e->value = strdup(s)].  Whether the duplication succeeds is an input of
    the model; the result tells whether [e->value] is non-null. *)
Definition strdup (e : addr) (s : string) (ok : bool) : M bool := λ h,
  if ok then Ok true (Heap (links h) (<[e := s]> (values h)))
  else Ok false h.

(** [free(e->value)]: releasing a null pointer does nothing. *)
Definition free_value (e : addr) : M unit := λ h,
  Ok tt (Heap (links h) (delete e (values h))).

(** [free(e)] for an element: undefined when [e] is not allocated. *)
Definition free (e : addr) : M unit := λ h,
  match links h !! e with
  | Some _ => Ok tt (Heap (delete e (links h)) (values h))
  | None => Fault
  end.

(** [size_t] is 64 bits wide; subtraction wraps around. *)
Definition SIZE_WIDTH : Z := 64.
Definition size_sub (a b : Z) : Z := (a - b) mod 2 ^ SIZE_WIDTH.

(** [int] is 32 bits wide; [count++] beyond [INT_MAX] is undefined. *)
Definition INT_MAX : Z := 2 ^ 31 - 1.

(** A caller's output buffer is the list of its bytes; its length is its
    capacity.  [strncpy(dst, src, n)] writes exactly [n] bytes at offsets
    [0 .. n-1]: the bytes of [src] up to its terminator, then zeros.  It is
    undefined when [n] exceeds the capacity. *)
Definition strncpy (dst : list ascii) (src : string) (n : Z) : M (list ascii) :=
  if bool_decide (n ≤ Z.of_nat (length dst)) then
    let k := Z.to_nat n in
    mret (take k (String.list_ascii_of_string src ++ replicate k zero) ++ drop k dst)
  else fault.

(** [dst[i] = c]: undefined outside the buffer. *)
Definition store_byte (dst : list ascii) (i : Z) (c : ascii) : M (list ascii) :=
  if bool_decide (0 ≤ i < Z.of_nat (length dst)) then
    mret (<[Z.to_nat i := c]> dst)
  else fault.

(** ** queue.c *)

(** [q_new].  [q] is what [malloc] answers. *)
Definition q_new (q : addr) : M addr :=
  q ← malloc q;
  if bool_decide (q ≠ NULL) then INIT_LIST_HEAD q;; mret q
  else mret q.

(** [q_release_element] *)
Definition q_release_element (e : addr) : M unit :=
  free_value e;; free e.

(** The loop of [q_free], [list_for_each_entry_safe (entry, next, l, list)]
    with the body [free(entry->value); free(entry);]: the loop stops when
    [entry] is the sentinel; the step is [entry = next, next = next->next].
    The nodes are released while they are still linked. *)
Fixpoint free_loop (fuel : nat) (head entry safe : addr) : M unit :=
  match fuel with
  | O => out_of_fuel
  | S fuel =>
      if bool_decide (entry = head) then mret tt
      else
        free_value entry;;
        free entry;;
        safe' ← load_next safe;
        free_loop fuel head safe safe'
  end.

(** [q_free] *)
Definition q_free (fuel : nat) (l : addr) : M unit :=
  if bool_decide (l = NULL) then mret tt
  else
    entry ← load_next l;
    safe ← load_next entry;
    free_loop fuel l entry safe;;
    free l.

(** [q_insert_head].  [e] is what [malloc] answers and [dup_ok] tells whether
    [strdup] succeeds. *)
Definition q_insert_head (head : addr) (s : string) (e : addr) (dup_ok : bool)
  : M bool :=
  if bool_decide (head = NULL) then mret false
  else
    e ← malloc e;
    if bool_decide (e = NULL) then mret false
    else
      v ← strdup e s dup_ok;
      if negb v then free e;; mret false
      else list_add e head;; mret true.

(** [q_insert_tail] *)
Definition q_insert_tail (head : addr) (s : string) (e : addr) (dup_ok : bool)
  : M bool :=
  if bool_decide (head = NULL) then mret false
  else
    e ← malloc e;
    if bool_decide (e = NULL) then mret false
    else
      v ← strdup e s dup_ok;
      if negb v then free e;; mret false
      else list_add_tail e head;; mret true.

(** The copy-out of [q_remove_head] and [q_remove_tail]:
    [if (sp) { strncpy(sp, e->value, bufsize - 1); sp[bufsize - 1] = '\0'; }].
    [sp] is [None] for a null pointer and the caller's buffer otherwise. *)
Definition copy_out (e : addr) (sp : option (list ascii)) (bufsize : Z)
  : M (option (list ascii)) :=
  match sp with
  | None => mret None
  | Some buf =>
      v ← load_value e;
      buf ← strncpy buf v (size_sub bufsize 1);
      buf ← store_byte buf (size_sub bufsize 1) zero;
      mret (Some buf)
  end.

(** [q_remove_head]: returns the removed element ([NULL] if none) and the
    caller's buffer. *)
Definition q_remove_head (head : addr) (sp : option (list ascii)) (bufsize : Z)
  : M (addr * option (list ascii)) :=
  if bool_decide (head = NULL) then mret (NULL, sp)
  else
    emp ← list_empty head;
    if emp : bool then mret (NULL, sp)
    else
      e ← load_next head;
      sp ← copy_out e sp bufsize;
      list_del e;;
      mret (e, sp).

(** [q_remove_tail] *)
Definition q_remove_tail (head : addr) (sp : option (list ascii)) (bufsize : Z)
  : M (addr * option (list ascii)) :=
  if bool_decide (head = NULL) then mret (NULL, sp)
  else
    emp ← list_empty head;
    if emp : bool then mret (NULL, sp)
    else
      e ← load_prev head;
      sp ← copy_out e sp bufsize;
      list_del e;;
      mret (e, sp).

(** The loop of [q_size]: [list_for_each (node, head) count++;]. *)
Fixpoint size_loop (fuel : nat) (head node : addr) (count : Z) : M Z :=
  match fuel with
  | O => out_of_fuel
  | S fuel =>
      if bool_decide (node = head) then mret count
      else if bool_decide (count = INT_MAX) then fault
      else nx ← load_next node; size_loop fuel head nx (count + 1)
  end.

(** [q_size] *)
Definition q_size (fuel : nat) (head : addr) : M Z :=
  if bool_decide (head = NULL) then mret 0
  else
    emp ← list_empty head;
    if emp : bool then mret 0
    else node ← load_next head; size_loop fuel head node 0.

(** The loop of [q_delete_mid]:
    [while (fast != head && fast->next != head)
       { fast = fast->next->next; slow = slow->next; }]. *)
Fixpoint mid_loop (fuel : nat) (head fast slow : addr) : M addr :=
  match fuel with
  | O => out_of_fuel
  | S fuel =>
      if bool_decide (fast = head) then mret slow
      else
        fn ← load_next fast;
        if bool_decide (fn = head) then mret slow
        else
          fn ← load_next fast;
          fast ← load_next fn;
          slow ← load_next slow;
          mid_loop fuel head fast slow
  end.

(** [q_delete_mid] *)
Definition q_delete_mid (fuel : nat) (head : addr) : M bool :=
  if bool_decide (head = NULL) then mret false
  else
    emp ← list_empty head;
    if emp : bool then mret false
    else
      first ← load_next head;
      slow ← mid_loop fuel head first first;
      list_del slow;;
      q_release_element slow;;
      mret true.

(** The loop of [q_delete_dup], [list_for_each_entry_safe (node, safe, head,
    list)]: the loop stops when [node] is the sentinel; the step is
    [node = safe, safe = safe->next]. *)
Fixpoint dup_loop (fuel : nat) (head node safe : addr) (dup : bool) : M unit :=
  match fuel with
  | O => out_of_fuel
  | S fuel =>
      if bool_decide (node = head) then mret tt
      else
        nx ← load_next node;
        eq ← (if bool_decide (nx ≠ head) then
                v1 ← load_value node;
                nx ← load_next node;
                v2 ← load_value nx;
                mret (bool_decide (strcmp v1 v2 = 0))
              else mret false);
        dup ← (if eq : bool then
                 list_del node;; q_release_element node;; mret true
               else if dup then
                 list_del node;; q_release_element node;; mret false
               else mret dup);
        safe' ← load_next safe;
        dup_loop fuel head safe safe' dup
  end.

(** [q_delete_dup] *)
Definition q_delete_dup (fuel : nat) (head : addr) : M bool :=
  if bool_decide (head = NULL) then mret false
  else
    emp ← list_empty head;
    if emp : bool then mret true
    else
      sing ← list_is_singular head;
      if sing : bool then mret true
      else
        node ← load_next head;
        safe ← load_next node;
        dup_loop fuel head node safe false;;
        mret true.

(** The loop of [q_swap]:
    [for (node = head->next; node != head && node->next != head;
          node = node->next)
       { tmp = node->next; list_del(tmp); list_add_tail(tmp, node); }]. *)
Fixpoint swap_loop (fuel : nat) (head node : addr) : M unit :=
  match fuel with
  | O => out_of_fuel
  | S fuel =>
      if bool_decide (node = head) then mret tt
      else
        nx ← load_next node;
        if bool_decide (nx = head) then mret tt
        else
          tmp ← load_next node;
          list_del tmp;;
          list_add_tail tmp node;;
          node ← load_next node;
          swap_loop fuel head node
  end.

(** [q_swap] *)
Definition q_swap (fuel : nat) (head : addr) : M unit :=
  if bool_decide (head = NULL) then mret tt
  else
    emp ← list_empty head;
    if emp : bool then mret tt
    else
      sing ← list_is_singular head;
      if sing : bool then mret tt
      else node ← load_next head; swap_loop fuel head node.

(** The loop of [q_reverse], [list_for_each_safe (node, safe, head)]: the
    step is [node = safe, safe = node->next]. *)
Fixpoint reverse_loop (fuel : nat) (head node safe : addr) : M unit :=
  match fuel with
  | O => out_of_fuel
  | S fuel =>
      if bool_decide (node = head) then mret tt
      else
        list_move node head;;
        safe' ← load_next safe;
        reverse_loop fuel head safe safe'
  end.

(** [q_reverse] *)
Definition q_reverse (fuel : nat) (head : addr) : M unit :=
  if bool_decide (head = NULL) then mret tt
  else
    emp ← list_empty head;
    if emp : bool then mret tt
    else
      sing ← list_is_singular head;
      if sing : bool then mret tt
      else
        node ← load_next head;
        safe ← load_next node;
        reverse_loop fuel head node safe.

(** *** Merge sort

    queue.c holds [mergeTwoLists] and [mergesort] twice, with the same text,
    on the two sides of an unresolved merge conflict; they are embedded
    once. *)

(** A [struct list_head **]: in [mergeTwoLists], [ptr] points either to the
    local variable [head] or to the [next] member of a node. *)
Inductive pptr : Type :=
| AddrOfHead
| AddrOfNext (p : addr).

(** [*ptr = v]: the result is the local variable [head] after the store. *)
Definition pp_store (ptr : pptr) (v : addr) (head : addr) : M addr :=
  match ptr with
  | AddrOfHead => mret v
  | AddrOfNext p => store_next p v;; mret head
  end.

(** [*ptr] as an rvalue. *)
Definition pp_load (ptr : pptr) (head : addr) : M addr :=
  match ptr with
  | AddrOfHead => mret head
  | AddrOfNext p => load_next p
  end.

(** The loop of [mergeTwoLists] and the statement that follows it:
    [for (node = NULL; l1 && l2; *node = ( *node)->next) {
       node = (strcmp(l1->value, l2->value) < 0) ? &l1 : &l2;
       *ptr = *node;
       ptr = &( *ptr)->next; }
     *ptr = l1 | l2;  (both cast to u_int64_t, the result cast back)
     return head;] *)
Fixpoint merge_loop (fuel : nat) (head : addr) (ptr : pptr) (l1 l2 : addr)
  : M addr :=
  match fuel with
  | O => out_of_fuel
  | S fuel =>
      if bool_decide (l1 ≠ NULL) && bool_decide (l2 ≠ NULL) then
        v1 ← load_value l1;
        v2 ← load_value l2;
        let node_is_l1 := bool_decide (strcmp v1 v2 < 0) in
        let cur := if node_is_l1 then l1 else l2 in
        head ← pp_store ptr cur head;
        tgt ← pp_load ptr head;
        nx ← load_next cur;
        if node_is_l1 then merge_loop fuel head (AddrOfNext tgt) nx l2
        else merge_loop fuel head (AddrOfNext tgt) l1 nx
      else
        pp_store ptr (Z.lor l1 l2) head
  end.

(** [mergeTwoLists] *)
Definition mergeTwoLists (fuel : nat) (l1 l2 : addr) : M addr :=
  merge_loop fuel NULL AddrOfHead l1 l2.

(** The loop of [mergesort]:
    [while (true) { if (!fast || !fast->next) break;
                    fast = fast->next->next; slow = slow->next; }]. *)
Fixpoint split_loop (fuel : nat) (fast slow : addr) : M addr :=
  match fuel with
  | O => out_of_fuel
  | S fuel =>
      if bool_decide (fast = NULL) then mret slow
      else
        fn ← load_next fast;
        if bool_decide (fn = NULL) then mret slow
        else
          fn ← load_next fast;
          fast ← load_next fn;
          slow ← load_next slow;
          split_loop fuel fast slow
  end.

(** [mergesort] *)
Fixpoint mergesort (fuel : nat) (head : addr) : M addr :=
  match fuel with
  | O => out_of_fuel
  | S fuel =>
      nx ← load_next head;
      if bool_decide (nx = NULL) then mret head
      else
        slow ← split_loop fuel head head;
        let mid := slow in
        pv ← load_prev slow;
        store_next pv NULL;;
        l1 ← mergesort fuel head;
        l2 ← mergesort fuel mid;
        mergeTwoLists fuel l1 l2
  end.

(** The last loop of [q_sort] and the two statements that follow it:
    [while (tmp->next) { tmp->next->prev = tmp; tmp = tmp->next; }
     tmp->next = head; head->prev = tmp;] *)
Fixpoint relink_loop (fuel : nat) (head tmp : addr) : M unit :=
  match fuel with
  | O => out_of_fuel
  | S fuel =>
      nx ← load_next tmp;
      if bool_decide (nx ≠ NULL) then
        nx ← load_next tmp;
        store_prev nx tmp;;
        tmp ← load_next tmp;
        relink_loop fuel head tmp
      else
        store_next tmp head;;
        store_prev head tmp
  end.

(** [q_sort] *)
Definition q_sort (fuel : nat) (head : addr) : M unit :=
  if bool_decide (head = NULL) then mret tt
  else
    emp ← list_empty head;
    if emp : bool then mret tt
    else
      sing ← list_is_singular head;
      if sing : bool then mret tt
      else
        node ← load_next head;
        pv ← load_prev head;
        store_next pv NULL;;
        store_next head NULL;;
        node ← mergesort fuel node;
        let tmp := head in
        store_next tmp node;;
        relink_loop fuel head tmp.

(** ** The ten operations of the interface, as one family *)

Inductive op : Type :=
| OpInsertHead (s : string) (e : addr) (dup_ok : bool)
| OpInsertTail (s : string) (e : addr) (dup_ok : bool)
| OpRemoveHead (sp : option (list ascii)) (bufsize : Z)
| OpRemoveTail (sp : option (list ascii)) (bufsize : Z)
| OpSize
| OpDeleteMid
| OpDeleteDup
| OpSwap
| OpReverse
| OpSort.

Definition run_op (fuel : nat) (o : op) (head : addr) : M unit :=
  match o with
  | OpInsertHead s e ok => q_insert_head head s e ok;; mret tt
  | OpInsertTail s e ok => q_insert_tail head s e ok;; mret tt
  | OpRemoveHead sp n => q_remove_head head sp n;; mret tt
  | OpRemoveTail sp n => q_remove_tail head sp n;; mret tt
  | OpSize => q_size fuel head;; mret tt
  | OpDeleteMid => q_delete_mid fuel head;; mret tt
  | OpDeleteDup => q_delete_dup fuel head;; mret tt
  | OpSwap => q_swap fuel head
  | OpReverse => q_reverse fuel head
  | OpSort => q_sort fuel head
  end.

(** ** Sequences of calls *)

(** [q_insert_tail(head, s)] for each string of a list in turn: [es] gives,
    for each call, the block [malloc] answers and the string.  The sequence
    stops at the first insertion that fails. *)
Fixpoint insert_all (head : addr) (es : list (addr * string)) : M bool :=
  match es with
  | [] => mret true
  | e :: es =>
      ok ← q_insert_tail head e.2 e.1 true;
      if ok : bool then insert_all head es else mret false
  end.

(** [q_remove_head(head, NULL, 0)] called [n] times: the elements returned,
    in the order of the calls. *)
Fixpoint remove_all (n : nat) (head : addr) : M (list addr) :=
  match n with
  | O => mret []
  | S n =>
      p ← q_remove_head head None 0;
      rest ← remove_all n head;
      mret (p.1 :: rest)
  end.

(** ** Representation of a queue in the heap *)

(** [adj R l]: [R] relates every two neighbours of [l]. *)
Fixpoint adj {A} (R : A → A → Prop) (l : list A) : Prop :=
  match l with
  | a :: t => match t with b :: _ => R a b ∧ adj R t | [] => True end
  | [] => True
  end.

(** [chain f l]: following the pointer field [f] from the first node of [l]
    visits [l] in order. *)
Definition chain (f : addr → option addr) (l : list addr) : Prop :=
  adj (λ a b, f a = Some b) l.


(** [ring f l]: [l] is a cycle of the field [f], closed from its last node
    to its first. *)
Definition ring (f : addr → option addr) (l : list addr) : Prop :=
  match l with
  | [] => True
  | a :: _ => chain f (l ++ [a])
  end.

Arguments adj : simpl never.
Arguments chain : simpl never.
Arguments ring : simpl never.

(** [cyc h l]: the distinct nodes [l] form a circular doubly-linked list in
    [h]: a cycle of [next] and, read backwards, a cycle of [prev]. *)
Definition cyc (h : heap) (l : list addr) : Prop :=
  NoDup l ∧ ring (next_of h) l ∧ ring (prev_of h) (reverse l).

(** An element of the abstract queue: the address of its node and its
    string. *)
Abbreviation elem := (addr * string)%type.

Definition has_values (h : heap) (es : list elem) : Prop :=
  Forall (λ e, values h !! e.1 = Some e.2) es.

(** [queue h head es]: in [h], the sentinel [head] and the elements [es], in
    this order, form a ready queue. *)
Definition queue (h : heap) (head : addr) (es : list elem) : Prop :=
  links h !! NULL = None ∧ cyc h (head :: es.*1) ∧ has_values h es.

(** [relinked S h h']: from [h] to [h'], nothing is allocated or released, no
    string changes, and only link fields of the nodes in [S] are rewritten. *)
Definition relinked (S : list addr) (h h' : heap) : Prop :=
  values h' = values h ∧
  dom (links h') = dom (links h) ∧
  ∀ x, x ∉ S → links h' !! x = links h !! x.

(** [released R S h h']: from [h] to [h'], exactly the nodes in [R] are
    released together with their strings, nothing is allocated, no other
    string changes, and only link fields of nodes in [S] are rewritten. *)
Definition released (R S : list addr) (h h' : heap) : Prop :=
  (∀ x, x ∈ R → links h' !! x = None ∧ values h' !! x = None) ∧
  (∀ x, x ∉ R → values h' !! x = values h !! x) ∧
  (∀ x, x ∉ R → is_Some (links h' !! x) ↔ is_Some (links h !! x)) ∧
  (∀ x, x ∉ R → x ∉ S → links h' !! x = links h !! x).

(** [walk f n p]: the node reached from [p] by [n] steps along the field
    [f]. *)
Fixpoint walk (f : addr → option addr) (n : nat) (p : addr) : option addr :=
  match n with
  | O => Some p
  | S n => match f p with Some q => walk f n q | None => None end
  end.

(** The circular doubly-linked invariant of a queue of [size] elements, in
    terms of the pointers alone: every node [n] of the list (the sentinel and
    the nodes reached from it in at most [size] steps) satisfies
    [n.next.prev == n] and [n.prev.next == n]; [size] steps forward from the
    sentinel do not meet it again and one more step returns to it; likewise
    backward. *)
Definition dll_invariant (h : heap) (head : addr) (size : nat) : Prop :=
  (∀ k n, (k ≤ size)%nat → walk (next_of h) k head = Some n →
     ∃ nx pv, next_of h n = Some nx ∧ prev_of h n = Some pv ∧
              prev_of h nx = Some n ∧ next_of h pv = Some n) ∧
  (∀ k, (1 ≤ k ≤ size)%nat →
     walk (next_of h) k head ≠ Some head ∧ walk (prev_of h) k head ≠ Some head) ∧
  walk (next_of h) (S size) head = Some head ∧
  walk (prev_of h) (S size) head = Some head.

(** The heap in which the only allocated block is an empty queue at [head],
    and the heap that [q_insert_tail] builds from it for the elements [es]. *)
Definition empty_queue (head : addr) : heap :=
  Heap {[ head := ListHead head head ]} ∅.

Definition heap_of (r : result bool) (h : heap) : heap :=
  match r with Ok _ h' => h' | _ => h end.

Fixpoint build (h : heap) (head : addr) (es : list elem) : heap :=
  match es with
  | [] => h
  | e :: es => build (heap_of (q_insert_tail head e.2 e.1 true h) h) head es
  end.

Definition mkq (head : addr) (es : list elem) : heap :=
  build (empty_queue head) head es.

(** Reading a queue back: the elements met from the sentinel along [next],
    each with its string. *)
Fixpoint contents_loop (fuel : nat) (head node : addr) : M (list elem) :=
  match fuel with
  | O => out_of_fuel
  | S fuel =>
      if bool_decide (node = head) then mret []
      else
        v ← load_value node;
        nx ← load_next node;
        rest ← contents_loop fuel head nx;
        mret ((node, v) :: rest)
  end.

Definition contents (fuel : nat) (head : addr) : M (list elem) :=
  node ← load_next head; contents_loop fuel head node.

Definition value_of {A} (r : result A) : option A :=
  match r with
  | Ok a _ => Some a
  | _ => None
  end.

(** ** Abstract effect of the algorithms on the sequence of elements *)

(** Order of the strings. *)
Definition ascending (es : list elem) : Prop :=
  adj (λ x y : elem, strcmp x.2 y.2 ≤ 0) es.

Definition strictly_ascending (es : list elem) : Prop :=
  adj (λ x y : elem, strcmp x.2 y.2 < 0) es.

Definition same_string (s : string) (e : elem) : Prop := strcmp e.2 s = 0.

#[global] Instance same_string_dec s e : Decision (same_string s e) :=
  Z.eq_dec (strcmp e.2 s) 0.

(** The sequence [mergeTwoLists] builds: the first operand gives its head
    only when it compares strictly below the head of the second. *)
Fixpoint merge (l1 : list elem) : list elem → list elem :=
  match l1 with
  | [] => λ l2, l2
  | x :: l1' =>
      fix merge_x (l2 : list elem) : list elem :=
        match l2 with
        | [] => x :: l1'
        | y :: l2' =>
            if bool_decide (strcmp x.2 y.2 < 0) then x :: merge l1' (y :: l2')
            else y :: merge_x l2'
        end
  end.

(** The sequence [mergesort] builds: a chain of two or more nodes is cut
    before the node of index [length / 2], the two parts are sorted and
    merged.  [n] bounds the depth of the recursion. *)
Fixpoint msort_aux (n : nat) (l : list elem) : list elem :=
  match n with
  | O => l
  | S n =>
      match l with
      | [] | [_] => l
      | _ =>
          let k := (length l / 2)%nat in
          merge (msort_aux n (take k l)) (msort_aux n (drop k l))
      end
  end.

Definition msort (l : list elem) : list elem := msort_aux (length l) l.

(** [eq_next x l]: the test of the loop of [q_delete_dup] for the element
    [x] followed by [l]: there is a next element and its string is equal. *)
Definition eq_next (x : elem) (l : list elem) : bool :=
  match l with
  | y :: _ => bool_decide (strcmp x.2 y.2 = 0)
  | [] => false
  end.

(** The sequence the loop of [q_delete_dup] leaves, started with the flag
    [dup]. *)
Fixpoint dedup (dup : bool) (l : list elem) : list elem :=
  match l with
  | [] => []
  | x :: t =>
      if eq_next x t then dedup true t
      else if dup then dedup false t
      else x :: dedup false t
  end.

(** The elements [q_delete_dup] releases. *)
Fixpoint dedup_removed (dup : bool) (l : list elem) : list elem :=
  match l with
  | [] => []
  | x :: t =>
      if eq_next x t then x :: dedup_removed true t
      else if dup then x :: dedup_removed false t
      else dedup_removed false t
  end.

(** The flag [dup] of the loop, before the elements [l] and after the
    elements [pre], records that the last element of [pre] and the first of
    [l] have equal strings. *)
Definition dup_flag (pre l : list elem) (dup : bool) : Prop :=
  dup = true ↔
  ∃ p x, last pre = Some p ∧ head l = Some x ∧ strcmp p.2 x.2 = 0.

(** In the words of the specification: an element has an equal neighbour in
    [l] at index [i] when its string equals that of the element before it or
    that of the element after it. *)
Definition equal_neighbour (l : list elem) (i : nat) : Prop :=
  ∃ x, l !! i = Some x ∧
       ((∃ j p, i = S j ∧ l !! j = Some p ∧ strcmp p.2 x.2 = 0) ∨
        (∃ y, l !! S i = Some y ∧ strcmp x.2 y.2 = 0)).

(** The sequence [q_swap] builds. *)
Fixpoint swap_pairs (l : list elem) : list elem :=
  match l with
  | a :: b :: t => b :: a :: swap_pairs t
  | _ => l
  end.

(** The bytes [q_remove_head] leaves in the first [n] bytes of a buffer for
    the string [s] ([1 ≤ n]): at most [n - 1] bytes of [s], then zeros up to
    and including offset [n - 1]. *)
Definition copied (s : string) (n : nat) : list ascii :=
  take (n - 1) (String.list_ascii_of_string s) ++
  replicate (n - length (take (n - 1) (String.list_ascii_of_string s))) zero.

(** What the copy-out leaves in the caller's buffer, and when it stays inside
    the buffer. *)
Definition copied_into (sp : option (list ascii)) (s : string) (n : Z)
  : option (list ascii) :=
  match sp with
  | None => None
  | Some buf => Some (copied s (Z.to_nat n) ++ drop (Z.to_nat n) buf)
  end.

Definition copy_ok (sp : option (list ascii)) (n : Z) : Prop :=
  match sp with
  | None => True
  | Some buf => 1 ≤ n ≤ Z.of_nat (length buf) ∧ n < 2 ^ SIZE_WIDTH
  end.

(** The state of [ptr] and [head] in [mergeTwoLists] after the nodes [acc]
    have been appended to the result. *)
Definition ptr_inv (h : heap) (acc : list addr) (head : addr) (ptr : pptr)
  : Prop :=
  match last acc with
  | None => ptr = AddrOfHead
  | Some t => ptr = AddrOfNext t ∧ head = hd NULL acc ∧
              chain (next_of h) acc ∧ is_Some (links h !! t)
  end.

(** What each operation asks of its caller: the allocator answers [NULL] or
    a block that was not allocated; a buffer, when given, has room for
    [bufsize] bytes and [bufsize] is at least 1; the size fits an [int]. *)
Definition op_pre (h : heap) (es : list elem) (o : op) : Prop :=
  match o with
  | OpInsertHead _ e _ | OpInsertTail _ e _ => e = NULL ∨ links h !! e = None
  | OpRemoveHead sp n | OpRemoveTail sp n => copy_ok sp n
  | OpSize => Z.of_nat (length es) ≤ INT_MAX
  | _ => True
  end.

(** Stability of the sort, as the specification words it: after [q_sort] the
    elements whose strings compare equal to any given string are in the order
    they had before. *)
Definition sort_is_stable : Prop :=
  ∀ fuel h head es h' es',
    queue h head es → q_sort fuel head h = Ok tt h' → queue h' head es' →
    ∀ s, filter (same_string s) es' = filter (same_string s) es.

(** The example of the specification for [q_delete_mid]: the queue of the six
    strings "a" to "f", and the queue the specification says is left. *)
Definition six : list elem :=
  [(1, "a"); (2, "b"); (3, "c"); (4, "d"); (5, "e"); (6, "f")].

Definition six_without_c : list elem :=
  [(1, "a"); (2, "b"); (4, "d"); (5, "e"); (6, "f")].

Definition six_without_d : list elem :=
  [(1, "a"); (2, "b"); (3, "c"); (5, "e"); (6, "f")].

Definition delete_mid_removes_c : Prop :=
  ∀ fuel h head h',
    queue h head six → q_delete_mid fuel head h = Ok true h' →
    queue h' head six_without_c.

(** * Properties *)

(** ** [strcmp] is a total preorder *)

Section Strcmp.

Lemma uchar_nonneg c : 0 ≤ uchar c.
Proof. unfold uchar. lia. Qed.

Ltac uchar_facts :=
repeat match goal with
  | c : ascii |- _ =>
      lazymatch goal with
      | H : 0 ≤ uchar c |- _ => fail
      | _ => pose proof (uchar_nonneg c)
      end
  end.

Lemma strcmp_refl s : strcmp s s = 0.
Proof.
induction s as [|c s IH]; simpl; [done|].
rewrite Z.eqb_refl. by destruct (uchar c =? 0).
Qed.

Lemma strcmp_antisym s t : strcmp t s = - strcmp s t.
Proof.
revert t. induction s as [|c s IH]; intros [|d t]; simpl; try lia.
destruct (Z.eqb_spec (uchar c) (uchar d)) as [E|E].
- rewrite <- E, Z.eqb_refl. destruct (uchar c =? 0); [lia|apply IH].
- destruct (Z.eqb_spec (uchar d) (uchar c)); lia.
Qed.

Lemma strcmp_le_trans s t u :
strcmp s t ≤ 0 → strcmp t u ≤ 0 → strcmp s u ≤ 0.
Proof.
revert t u. induction s as [|c s IH]; intros [|d t] [|e u]; simpl;
  uchar_facts; try lia;
  repeat match goal with
    | |- context [Z.eqb ?a ?b] => destruct (Z.eqb_spec a b)
    end; try lia; eauto.
Qed.

Lemma strcmp_eq_sym s t : strcmp s t = 0 → strcmp t s = 0.
Proof. rewrite (strcmp_antisym s t). lia. Qed.

Lemma strcmp_eq_trans s t u :
strcmp s t = 0 → strcmp t u = 0 → strcmp s u = 0.
Proof.
intros H1 H2.
assert (strcmp s u ≤ 0) by (apply (strcmp_le_trans s t u); lia).
assert (strcmp u s ≤ 0).
{ apply (strcmp_le_trans u t s); [rewrite (strcmp_antisym t u)|
    rewrite (strcmp_antisym s t)]; lia. }
rewrite (strcmp_antisym s u) in *. lia.
Qed.

Lemma strcmp_total s t : strcmp s t ≤ 0 ∨ strcmp t s ≤ 0.
Proof. rewrite (strcmp_antisym s t). lia. Qed.

End Strcmp.

(** ** Chains and rings of one pointer field *)

Section Chains.
Context {A : Type}.
Implicit Types (R : A → A → Prop) (l : list A).

Lemma adj_nil R : adj R [] = True.
Proof. done. Qed.

Lemma adj_singleton R a : adj R [a] = True.
Proof. done. Qed.

Lemma adj_cons_cons R a b l : adj R (a :: b :: l) = (R a b ∧ adj R (b :: l)).
Proof. done. Qed.

Lemma adj_cons_inv R a l : adj R (a :: l) → adj R l.
Proof. destruct l; [done|]. rewrite adj_cons_cons. tauto. Qed.

Lemma adj_app_mid R l1 a l2 :
  adj R (l1 ++ a :: l2) ↔ adj R (l1 ++ [a]) ∧ adj R (a :: l2).
Proof.
  induction l1 as [|b l1 IH].
  - rewrite !app_nil_l, adj_singleton. tauto.
  - destruct l1 as [|c l1].
    + cbn [app]. rewrite !adj_cons_cons, adj_singleton. tauto.
    + cbn [app] in *. rewrite !adj_cons_cons, IH. tauto.
Qed.

Lemma adj_snoc R l a b : adj R (l ++ [a; b]) ↔ adj R (l ++ [a]) ∧ R a b.
Proof. rewrite adj_app_mid, adj_cons_cons, adj_singleton. tauto. Qed.

Lemma adj_app_r R l1 l2 : adj R (l1 ++ l2) → adj R l2.
Proof.
  induction l1 as [|b l1 IH]; [done|].
  cbn [app]. intros H. apply adj_cons_inv in H. by apply IH.
Qed.

Lemma adj_app_l R l1 l2 : adj R (l1 ++ l2) → adj R l1.
Proof.
  induction l1 as [|b l1 IH]; [done|].
  destruct l1 as [|c l1]; [done|].
  cbn [app] in *. rewrite !adj_cons_cons. intros [? ?]. split; [done|].
  by apply IH.
Qed.

Lemma adj_impl R R' l :
  (∀ a b, R a b → R' a b) → adj R l → adj R' l.
Proof.
  intros HR. induction l as [|a l IH]; [done|].
  destruct l; [done|]. rewrite !adj_cons_cons. intros [? ?]. split; auto.
Qed.
End Chains.

Section Rings.
Implicit Types (f : addr → option addr) (l : list addr).

Lemma chain_frame f f' l z :
  (∀ c, c ∈ l → f' c = f c) → chain f (l ++ [z]) → chain f' (l ++ [z]).
Proof.
  unfold chain. induction l as [|a l IH]; [done|].
  intros Hf. assert (f' a = f a) as Ha by (apply Hf; left).
  destruct l as [|b l]; simpl in *; rewrite !adj_cons_cons.
  - by rewrite Ha.
  - rewrite Ha. intros [? ?]. split; [done|].
    apply IH; [|done]. intros c Hc. apply Hf. by right.
Qed.

Lemma chain_frame_all f f' l :
  (∀ c, c ∈ l → f' c = f c) → chain f l → chain f' l.
Proof.
  intros Hf. destruct (decide (l = [])) as [->|Hne]; [done|].
  destruct (exists_last Hne) as (l' & z & ->).
  apply chain_frame. intros c Hc. apply Hf. set_solver.
Qed.

Lemma chain_app_mid f l1 a l2 :
  chain f (l1 ++ a :: l2) ↔ chain f (l1 ++ [a]) ∧ chain f (a :: l2).
Proof. exact (adj_app_mid _ _ _ _). Qed.

Lemma chain_snoc f l a b :
  chain f (l ++ [a; b]) ↔ chain f (l ++ [a]) ∧ f a = Some b.
Proof. exact (adj_snoc _ _ _ _). Qed.

Lemma chain_cons_cons f a b l :
  chain f (a :: b :: l) = (f a = Some b ∧ chain f (b :: l)).
Proof. done. Qed.

Lemma ring_cons_snoc f a l : ring f (a :: l) ↔ ring f (l ++ [a]).
Proof.
  unfold ring. destruct l as [|b l]; [done|]. simpl.
  rewrite chain_cons_cons.
  replace (b :: (l ++ [a]) ++ [b]) with ((b :: l) ++ [a; b])
    by (simpl; by rewrite <- app_assoc).
  rewrite chain_snoc. simpl. tauto.
Qed.

Lemma ring_rotate f l1 l2 : ring f (l1 ++ l2) ↔ ring f (l2 ++ l1).
Proof.
  revert l2. induction l1 as [|a l1 IH]; intros l2; [by rewrite app_nil_r|].
  simpl. rewrite ring_cons_snoc, <- app_assoc, IH, <- app_assoc. done.
Qed.

(** Reading a ring that starts at [head]. *)
Lemma ring_first f head l : ring f (head :: l) → f head = Some (hd head l).
Proof.
  unfold ring. destruct l; simpl; rewrite chain_cons_cons; tauto.
Qed.

Lemma ring_inner f head l1 x l2 :
  ring f (head :: l1 ++ x :: l2) → f x = Some (hd head l2).
Proof.
  unfold ring. simpl.
  replace (head :: (l1 ++ x :: l2) ++ [head])
    with ((head :: l1) ++ x :: l2 ++ [head])
    by (simpl; by rewrite <- app_assoc).
  rewrite chain_app_mid. intros [_ H].
  destruct l2; simpl in *; rewrite chain_cons_cons in H; tauto.
Qed.

(** Unlinking the last node [x] of a ring: its predecessor [a] takes over
    its successor. *)
Lemma ring_del f f' p a x :
  NoDup (p ++ [a; x]) →
  f' a = f x →
  (∀ c, c ≠ a → f' c = f c) →
  ring f (p ++ [a; x]) → ring f' (p ++ [a]).
Proof.
  intros Hnd Ha Hf. unfold ring.
  assert (∀ c, c ∈ p → f' c = f c) as Hp.
  { intros c Hc. apply Hf. intros ->.
    apply NoDup_app in Hnd as (_ & Hd & _). apply (Hd a Hc). left. }
  destruct p as [|b p]; simpl.
  - rewrite !chain_cons_cons, Ha. tauto.
  - replace (b :: (p ++ [a; x]) ++ [b]) with ((b :: p) ++ a :: [x; b])
      by (simpl; by rewrite <- app_assoc).
    replace (b :: (p ++ [a]) ++ [b]) with ((b :: p) ++ [a; b])
      by (simpl; by rewrite <- app_assoc).
    rewrite (chain_app_mid f (b :: p) a [x; b]), (chain_snoc f' (b :: p) a b),
      !chain_cons_cons.
    intros (H1 & H2 & H3 & _). split; [|by rewrite Ha].
    by apply (chain_frame f f' (b :: p) a).
Qed.

(** Linking a new node [x] at the end of a ring, after [a]. *)
Lemma ring_ins f f' p a x :
  NoDup (p ++ [a; x]) →
  f' a = Some x →
  f' x = f a →
  (∀ c, c ≠ a → c ≠ x → f' c = f c) →
  ring f (p ++ [a]) → ring f' (p ++ [a; x]).
Proof.
  intros Hnd Ha Hx Hf. unfold ring.
  assert (∀ c, c ∈ p → f' c = f c) as Hp.
  { intros c Hc. apply NoDup_app in Hnd as (_ & Hd & _).
    apply Hf; intros ->; apply (Hd _ Hc); set_solver. }
  destruct p as [|b p]; simpl.
  - rewrite !chain_cons_cons, Ha, Hx. tauto.
  - replace (b :: (p ++ [a; x]) ++ [b]) with ((b :: p) ++ a :: [x; b])
      by (simpl; by rewrite <- app_assoc).
    replace (b :: (p ++ [a]) ++ [b]) with ((b :: p) ++ [a; b])
      by (simpl; by rewrite <- app_assoc).
    rewrite (chain_app_mid f' (b :: p) a [x; b]), (chain_snoc f (b :: p) a b),
      !chain_cons_cons.
    intros [H1 H2]. rewrite Ha, Hx. split_and!; try done.
    by apply (chain_frame f f' (b :: p) a).
Qed.
End Rings.

(** ** Loads and stores *)

Section Heap.
Implicit Types (h : heap) (p x v : addr).

Lemma next_set_next_eq h p v :
  is_Some (links h !! p) → next_of (set_next p v h) p = Some v.
Proof.
  intros [n Hn]. unfold next_of, set_next. simpl.
  by rewrite lookup_alter_eq, Hn.
Qed.

Lemma next_set_next_ne h p v x :
  x ≠ p → next_of (set_next p v h) x = next_of h x.
Proof. intros. unfold next_of, set_next. simpl. by rewrite lookup_alter_ne. Qed.

Lemma prev_set_next h p v x : prev_of (set_next p v h) x = prev_of h x.
Proof.
  unfold prev_of, set_next. simpl. destruct (decide (p = x)) as [->|].
  - rewrite lookup_alter_eq. by destruct (links h !! x).
  - by rewrite lookup_alter_ne.
Qed.

Lemma prev_set_prev_eq h p v :
  is_Some (links h !! p) → prev_of (set_prev p v h) p = Some v.
Proof.
  intros [n Hn]. unfold prev_of, set_prev. simpl.
  by rewrite lookup_alter_eq, Hn.
Qed.

Lemma prev_set_prev_ne h p v x :
  x ≠ p → prev_of (set_prev p v h) x = prev_of h x.
Proof. intros. unfold prev_of, set_prev. simpl. by rewrite lookup_alter_ne. Qed.

Lemma next_set_prev h p v x : next_of (set_prev p v h) x = next_of h x.
Proof.
  unfold next_of, set_prev. simpl. destruct (decide (p = x)) as [->|].
  - rewrite lookup_alter_eq. by destruct (links h !! x).
  - by rewrite lookup_alter_ne.
Qed.

Lemma alloc_set_next h p v x :
  is_Some (links (set_next p v h) !! x) ↔ is_Some (links h !! x).
Proof.
  unfold set_next. simpl. destruct (decide (p = x)) as [->|].
  - rewrite lookup_alter_eq, fmap_is_Some. done.
  - by rewrite lookup_alter_ne.
Qed.

Lemma alloc_set_prev h p v x :
  is_Some (links (set_prev p v h) !! x) ↔ is_Some (links h !! x).
Proof.
  unfold set_prev. simpl. destruct (decide (p = x)) as [->|].
  - rewrite lookup_alter_eq, fmap_is_Some. done.
  - by rewrite lookup_alter_ne.
Qed.

Lemma alloc_next h p : is_Some (next_of h p) ↔ is_Some (links h !! p).
Proof. unfold next_of. by rewrite fmap_is_Some. Qed.

Lemma alloc_prev h p : is_Some (prev_of h p) ↔ is_Some (links h !! p).
Proof. unfold prev_of. by rewrite fmap_is_Some. Qed.

Lemma next_alloc h p v : next_of h p = Some v → is_Some (links h !! p).
Proof. intros H. apply alloc_next. eauto. Qed.

Lemma prev_alloc h p v : prev_of h p = Some v → is_Some (links h !! p).
Proof. intros H. apply alloc_prev. eauto. Qed.

(** [relinked] is a preorder, and the two stores are instances. *)
Lemma relinked_refl S h : relinked S h h.
Proof. by split_and!. Qed.

Lemma relinked_trans S h1 h2 h3 :
  relinked S h1 h2 → relinked S h2 h3 → relinked S h1 h3.
Proof.
  intros (V1 & D1 & F1) (V2 & D2 & F2). split_and!; [congruence..|].
  intros x Hx. by rewrite F2, F1.
Qed.

Lemma relinked_mono S S' h h' : S ⊆ S' → relinked S h h' → relinked S' h h'.
Proof.
  intros HS (V & D & F). split_and!; [done..|]. intros x Hx. apply F. set_solver.
Qed.

Lemma relinked_set_next S h p v : p ∈ S → relinked S h (set_next p v h).
Proof.
  intros Hp. split_and!; [done|apply dom_alter_L|].
  intros x Hx. unfold set_next. simpl. apply lookup_alter_ne. set_solver.
Qed.

Lemma relinked_set_prev S h p v : p ∈ S → relinked S h (set_prev p v h).
Proof.
  intros Hp. split_and!; [done|apply dom_alter_L|].
  intros x Hx. unfold set_prev. simpl. apply lookup_alter_ne. set_solver.
Qed.

Lemma relinked_alloc S h h' x :
  relinked S h h' → is_Some (links h' !! x) ↔ is_Some (links h !! x).
Proof. intros (_ & D & _). rewrite <- !elem_of_dom. by rewrite D. Qed.

Lemma relinked_null S h h' :
  relinked S h h' → links h !! NULL = None → links h' !! NULL = None.
Proof.
  intros Hr Hn. apply eq_None_not_Some. rewrite (relinked_alloc S h h') by done.
  by rewrite Hn; intros [? ?].
Qed.

Lemma relinked_next S h h' x :
  relinked S h h' → x ∉ S → next_of h' x = next_of h x.
Proof. intros (_ & _ & F) Hx. unfold next_of. by rewrite F. Qed.

Lemma relinked_prev S h h' x :
  relinked S h h' → x ∉ S → prev_of h' x = prev_of h x.
Proof. intros (_ & _ & F) Hx. unfold prev_of. by rewrite F. Qed.

(** Running one access. *)
Lemma run_load_next {B} h p v (k : addr → M B) :
  next_of h p = Some v → (load_next p ≫= k) h = k v h.
Proof.
  unfold next_of, mbind, M_bind, load_next.
  destruct (links h !! p); simpl; [|done]. by intros [= ->].
Qed.

Lemma run_load_prev {B} h p v (k : addr → M B) :
  prev_of h p = Some v → (load_prev p ≫= k) h = k v h.
Proof.
  unfold prev_of, mbind, M_bind, load_prev.
  destruct (links h !! p); simpl; [|done]. by intros [= ->].
Qed.

Lemma run_store_next {B} h p v (k : unit → M B) :
  is_Some (links h !! p) → (store_next p v ≫= k) h = k tt (set_next p v h).
Proof. intros [n Hn]. unfold mbind, M_bind, store_next. by rewrite Hn. Qed.

Lemma run_store_prev {B} h p v (k : unit → M B) :
  is_Some (links h !! p) → (store_prev p v ≫= k) h = k tt (set_prev p v h).
Proof. intros [n Hn]. unfold mbind, M_bind, store_prev. by rewrite Hn. Qed.

Lemma run_load_value {B} h p s (k : string → M B) :
  values h !! p = Some s → (load_value p ≫= k) h = k s h.
Proof. intros Hs. unfold mbind, M_bind, load_value. by rewrite Hs. Qed.

Lemma run_ret {A B} h (a : A) (k : A → M B) : (mret a ≫= k) h = k a h.
Proof. done. Qed.

Lemma run_bind {A B} h h' (m : M A) (a : A) (k : A → M B) :
  m h = Ok a h' → (m ≫= k) h = k a h'.
Proof. intros Hm. unfold mbind, M_bind. by rewrite Hm. Qed.

Lemma store_next_ok h p v :
  is_Some (links h !! p) → store_next p v h = Ok tt (set_next p v h).
Proof. intros [n Hn]. unfold store_next. by rewrite Hn. Qed.

Lemma store_prev_ok h p v :
  is_Some (links h !! p) → store_prev p v h = Ok tt (set_prev p v h).
Proof. intros [n Hn]. unfold store_prev. by rewrite Hn. Qed.
End Heap.

(** ** The primitives of list.h on a circular doubly-linked list *)

Section Cyc.
Implicit Types (h : heap) (l r : list addr) (x a b : addr).

Lemma chain_defined f l z x : chain f (l ++ [z]) → x ∈ l → is_Some (f x).
Proof.
  induction l as [|c l IH]; [by intros _ ?%elem_of_nil|].
  intros Hc. assert (is_Some (f c) ∧ chain f (l ++ [z])) as [Hfc Hl].
  { destruct l; simpl in *; rewrite chain_cons_cons in Hc; naive_solver. }
  intros [->|?]%elem_of_cons; auto.
Qed.

Lemma ring_defined f l x : ring f l → x ∈ l → is_Some (f x).
Proof.
  unfold ring. destruct l as [|a l]; [by intros _ ?%elem_of_nil|].
  apply chain_defined.
Qed.

Lemma cyc_alloc h l x : cyc h l → x ∈ l → is_Some (links h !! x).
Proof. intros (_ & Hn & _) Hx. apply alloc_next. by apply (ring_defined _ l). Qed.

Lemma cyc_rotate h l1 l2 : cyc h (l1 ++ l2) ↔ cyc h (l2 ++ l1).
Proof.
  unfold cyc. rewrite !reverse_app, (ring_rotate _ l1 l2),
    (ring_rotate _ (reverse l2) (reverse l1)).
  assert (NoDup (l1 ++ l2) ↔ NoDup (l2 ++ l1)) as ->; [|done].
  by rewrite (Permutation_app_comm l1 l2).
Qed.

Lemma cyc_next_first h a r : cyc h (a :: r) → next_of h a = Some (hd a r).
Proof. intros (_ & Hn & _). by apply ring_first. Qed.

Lemma cyc_prev_first h a r :
  cyc h (a :: r) → prev_of h a = Some (hd a (reverse r)).
Proof.
  intros (_ & _ & Hp). rewrite reverse_cons, <- ring_cons_snoc in Hp.
  by apply ring_first.
Qed.

Lemma cyc_next_inner h a l1 x l2 :
  cyc h (a :: l1 ++ x :: l2) → next_of h x = Some (hd a l2).
Proof. intros (_ & Hn & _). by apply ring_inner in Hn. Qed.

Lemma cyc_prev_inner h a l1 x l2 :
  cyc h (a :: l1 ++ x :: l2) → prev_of h x = Some (hd a (reverse l1)).
Proof.
  intros (_ & _ & Hp).
  rewrite reverse_cons, <- ring_cons_snoc, reverse_app, reverse_cons,
    <- app_assoc in Hp. simpl in Hp.
  by apply ring_inner in Hp.
Qed.

Lemma NoDup_rot2 (p : list addr) a x :
  NoDup (x :: p ++ [a]) → NoDup (p ++ [a; x]).
Proof.
  assert (p ++ [a; x] ≡ₚ x :: p ++ [a]) as ->; [|done].
  change [a; x] with ([a] ++ [x]). rewrite app_assoc.
  by rewrite <- Permutation_cons_append.
Qed.

Lemma reverse_cons2 (m : list addr) x b :
  reverse (x :: b :: m) = reverse m ++ [b; x].
Proof. by rewrite !reverse_cons, <- app_assoc. Qed.

Lemma list_del_spec h x r :
  cyc h (x :: r) → r ≠ [] →
  ∃ h', list_del x h = Ok tt h' ∧ cyc h' r ∧ relinked r h h'.
Proof.
  intros Hc Hr.
  destruct r as [|b m]; [done|].
  destruct (exists_last Hr) as (p & a & Hpa).
  pose proof (cyc_next_first _ _ _ Hc) as Hnx. simpl in Hnx.
  pose proof (cyc_prev_first _ _ _ Hc) as Hpv.
  rewrite Hpa, reverse_snoc in Hpv. simpl in Hpv.
  assert (is_Some (links h !! b)) as Hb by (apply (cyc_alloc h _ b Hc); set_solver).
  assert (is_Some (links h !! a)) as Ha.
  { apply (cyc_alloc h _ a Hc). rewrite Hpa. set_solver. }
  destruct Hc as (Hnd & Hn & Hp).
  exists (set_next a b (set_prev b a h)). split_and!.
  - unfold list_del.
    rewrite (run_load_next _ _ b), (run_load_prev _ _ a), run_store_prev by done.
    apply store_next_ok. by apply alloc_set_prev.
  - split_and!.
    + by apply NoDup_cons in Hnd as [_ ?].
    + rewrite Hpa in *.
      apply (ring_del (next_of h) _ p a x).
      * by apply NoDup_rot2.
      * rewrite next_set_next_eq by by apply alloc_set_prev. done.
      * intros c Hca. by rewrite next_set_next_ne, next_set_prev.
      * rewrite ring_cons_snoc, <- app_assoc in Hn. done.
    + rewrite reverse_cons.
      apply (ring_del (prev_of h) _ (reverse m) b x).
      * by rewrite <- reverse_cons2, reverse_Permutation.
      * by rewrite prev_set_next, prev_set_prev_eq.
      * intros c Hcb. by rewrite prev_set_next, prev_set_prev_ne.
      * by rewrite reverse_cons2 in Hp.
  - eapply relinked_trans.
    + apply (relinked_set_prev _ _ b). set_solver.
    + apply relinked_set_next. rewrite Hpa. set_solver.
Qed.

Lemma list_add_spec h x a r :
  cyc h (a :: r) → x ∉ a :: r → is_Some (links h !! x) →
  ∃ h', list_add x a h = Ok tt h' ∧ cyc h' (a :: x :: r) ∧
        relinked (x :: a :: r) h h'.
Proof.
  intros Hc Hx Hxa.
  pose proof (cyc_next_first _ _ _ Hc) as Hnx.
  set (nx := hd a r) in *.
  assert (nx ∈ a :: r) as Hnxin by (destruct r; set_solver).
  assert (is_Some (links h !! nx)) as Hnxa by (by apply (cyc_alloc h (a :: r))).
  assert (is_Some (links h !! a)) as Haa by (apply (cyc_alloc h (a :: r)); set_solver).
  assert (x ≠ a) as Hxa' by set_solver.
  assert (x ≠ nx) as Hxnx by set_solver.
  exists (set_next a x (set_prev x a (set_next x nx (set_prev nx x h)))).
  split_and!.
  - unfold list_add.
    rewrite (run_load_next _ _ nx), run_store_prev, run_store_next,
      run_store_prev; try done.
    + apply store_next_ok.
      by rewrite alloc_set_prev, alloc_set_next, alloc_set_prev.
    + by rewrite alloc_set_next, alloc_set_prev.
    + by rewrite alloc_set_prev.
  - destruct Hc as (Hnd & Hn & Hp). split_and!.
    + apply NoDup_cons in Hnd as [Har Hr].
      rewrite !NoDup_cons. set_solver.
    + apply (ring_rotate _ [a; x] r).
      apply (ring_ins (next_of h) _ r a x).
      * assert (r ++ [a; x] ≡ₚ x :: a :: r) as -> by solve_Permutation.
        apply NoDup_cons. done.
      * rewrite next_set_next_eq; [done|].
        by rewrite alloc_set_prev, alloc_set_next, alloc_set_prev.
      * rewrite next_set_next_ne, next_set_prev by done.
        rewrite next_set_next_eq; [done|]. by rewrite alloc_set_prev.
      * intros c ? ?.
        by rewrite next_set_next_ne, next_set_prev, next_set_next_ne,
          next_set_prev.
      * by apply ring_cons_snoc.
    + rewrite reverse_cons2.
      assert (prev_of h nx = Some a) as Hpnx.
      { destruct r as [|b r'].
        - apply (cyc_prev_first h a []). by split_and!.
        - apply (cyc_prev_inner h a [] b r'). by split_and!. }
      assert (∀ c, c ≠ nx → c ≠ x →
        prev_of (set_next a x (set_prev x a (set_next x nx (set_prev nx x h)))) c
        = prev_of h c) as Hframe.
      { intros c ? ?.
        by rewrite prev_set_next, prev_set_prev_ne, prev_set_next,
          prev_set_prev_ne. }
      assert (prev_of (set_next a x (set_prev x a (set_next x nx (set_prev nx x h)))) nx
        = Some x) as Hnx'.
      { rewrite prev_set_next, prev_set_prev_ne, prev_set_next by done.
        by rewrite prev_set_prev_eq. }
      assert (prev_of (set_next a x (set_prev x a (set_next x nx (set_prev nx x h)))) x
        = prev_of h nx) as Hx'.
      { rewrite prev_set_next, prev_set_prev_eq; [done|].
        by rewrite alloc_set_next, alloc_set_prev. }
      destruct r as [|b r']; simpl in nx; subst nx.
      * apply (ring_cons_snoc _ x [a]). simpl.
        apply (ring_ins (prev_of h) _ [] a x); try done.
        simpl. apply NoDup_cons. split; [set_solver|apply NoDup_singleton].
      * rewrite reverse_cons, <- app_assoc. simpl.
        replace (reverse r' ++ [b; x; a]) with ((reverse r' ++ [b; x]) ++ [a])
          by (by rewrite <- app_assoc).
        apply (ring_rotate _ (reverse r' ++ [b; x]) [a]). simpl.
        apply (ring_ins (prev_of h) _ (a :: reverse r') b x); try done.
        -- assert ((a :: reverse r') ++ [b; x] ≡ₚ x :: a :: b :: r') as ->.
           { rewrite <- (reverse_Permutation r') at 2. solve_Permutation. }
           apply NoDup_cons. done.
        -- simpl. apply ring_cons_snoc.
           rewrite <- app_assoc. simpl. by rewrite <- reverse_cons2.
  - eapply relinked_trans; [apply (relinked_set_prev _ _ nx); set_solver|].
    eapply relinked_trans; [apply (relinked_set_next _ _ x); set_solver|].
    eapply relinked_trans; [apply (relinked_set_prev _ _ x); set_solver|].
    apply relinked_set_next. set_solver.
Qed.

Lemma list_add_tail_spec h x a r :
  cyc h (a :: r) → x ∉ a :: r → is_Some (links h !! x) →
  ∃ h', list_add_tail x a h = Ok tt h' ∧ cyc h' (a :: r ++ [x]) ∧
        relinked (x :: a :: r) h h'.
Proof.
  intros Hc Hx Hxa.
  pose proof (cyc_prev_first _ _ _ Hc) as Hpv.
  set (pv := hd a (reverse r)) in *.
  assert (pv ∈ a :: r) as Hpvin.
  { subst pv. destruct (reverse r) as [|b m] eqn:E; simpl; [set_solver|].
    right. apply elem_of_reverse. rewrite E. left. }
  assert (is_Some (links h !! pv)) as Hpva by (by apply (cyc_alloc h (a :: r))).
  assert (is_Some (links h !! a)) as Haa by (apply (cyc_alloc h (a :: r)); set_solver).
  assert (x ≠ a) as Hxa' by set_solver.
  assert (x ≠ pv) as Hxpv by set_solver.
  set (h4 := set_prev a x (set_prev x pv (set_next x a (set_next pv x h)))).
  assert (prev_of h4 a = Some x) as Hpa.
  { subst h4. rewrite prev_set_prev_eq; [done|].
    by rewrite alloc_set_prev, alloc_set_next, alloc_set_next. }
  assert (prev_of h4 x = Some pv) as Hpx.
  { subst h4. rewrite prev_set_prev_ne by done.
    rewrite prev_set_prev_eq; [done|]. by rewrite alloc_set_next, alloc_set_next. }
  assert (∀ c, c ≠ a → c ≠ x → prev_of h4 c = prev_of h c) as Hpf.
  { intros c ? ?. subst h4.
    by rewrite !prev_set_prev_ne, !prev_set_next. }
  assert (next_of h4 pv = Some x) as Hnp.
  { subst h4. rewrite !next_set_prev, next_set_next_ne by done.
    by rewrite next_set_next_eq. }
  assert (next_of h4 x = Some a) as Hnx.
  { subst h4. rewrite !next_set_prev, next_set_next_eq; [done|].
    by rewrite alloc_set_next. }
  assert (∀ c, c ≠ pv → c ≠ x → next_of h4 c = next_of h c) as Hnf.
  { intros c ? ?. subst h4.
    by rewrite !next_set_prev, !next_set_next_ne. }
  exists h4. split_and!.
  - unfold list_add_tail.
    rewrite (run_load_prev _ _ pv), run_store_next, run_store_next,
      run_store_prev; try done.
    + apply store_prev_ok.
      by rewrite alloc_set_prev, alloc_set_next, alloc_set_next.
    + by rewrite alloc_set_next, alloc_set_next.
    + by rewrite alloc_set_next.
  - destruct Hc as (Hnd & Hn & Hp). split_and!.
    + assert (a :: r ++ [x] ≡ₚ x :: a :: r) as -> by solve_Permutation.
      by apply NoDup_cons.
    + destruct (decide (r = [])) as [->|Hne].
      * simpl in *. subst pv.
        apply (ring_ins (next_of h) _ [] a x); try done.
        -- simpl. apply NoDup_cons. split; [set_solver|apply NoDup_singleton].
        -- rewrite Hnx. symmetry. by apply (cyc_next_first h a []).
      * destruct (exists_last Hne) as (r' & z & ->).
        assert (pv = z) as ->.
        { subst pv. by rewrite reverse_snoc. }
        replace (a :: (r' ++ [z]) ++ [x]) with ((a :: r') ++ [z; x])
          by (simpl; by rewrite <- app_assoc).
        apply (ring_ins (next_of h) _ (a :: r') z x); try done.
        -- assert ((a :: r') ++ [z; x] ≡ₚ x :: a :: r' ++ [z]) as ->
             by solve_Permutation.
           by apply NoDup_cons.
        -- rewrite Hnx. symmetry.
           apply (cyc_next_inner h a r' z []). by split_and!.
    + rewrite reverse_cons, reverse_snoc. simpl.
      apply ring_cons_snoc. rewrite <- app_assoc. simpl.
      apply (ring_ins (prev_of h) _ (reverse r) a x); try done.
      * assert (reverse r ++ [a; x] ≡ₚ x :: a :: r) as ->.
        { rewrite <- (reverse_Permutation r) at 2. solve_Permutation. }
        by apply NoDup_cons.
      * by rewrite Hpx.
      * by rewrite <- reverse_cons.
  - subst h4.
    eapply relinked_trans; [apply (relinked_set_next _ _ pv); set_solver|].
    eapply relinked_trans; [apply (relinked_set_next _ _ x); set_solver|].
    eapply relinked_trans; [apply (relinked_set_prev _ _ x); set_solver|].
    apply relinked_set_prev. set_solver.
Qed.
End Cyc.

(** ** Queues *)

Section Queue.
Implicit Types (h : heap) (head x : addr) (e : elem) (es : list elem).

Lemma cyc_frame h h' l :
  (∀ c, c ∈ l → links h' !! c = links h !! c) → cyc h l → cyc h' l.
Proof.
  intros Hf (Hnd & Hn & Hp). split_and!; [done|..].
  - destruct l as [|a l]; [done|]. unfold ring in *.
    apply (chain_frame (next_of h)); [|done].
    intros c Hc. unfold next_of. by rewrite Hf.
  - destruct (reverse l) as [|a m] eqn:E; [done|]. unfold ring in *.
    apply (chain_frame (prev_of h)); [|done].
    intros c Hc. unfold prev_of. rewrite Hf; [done|].
    apply elem_of_reverse. by rewrite E.
Qed.

Lemma has_values_frame h h' es :
  (∀ e, e ∈ es → values h' !! e.1 = values h !! e.1) →
  has_values h es → has_values h' es.
Proof.
  unfold has_values. rewrite !Forall_forall. intros Hf H e He.
  rewrite Hf by done. by apply H.
Qed.

Lemma relinked_has_values S h h' es :
  relinked S h h' → has_values h es → has_values h' es.
Proof. intros (HV & _). unfold has_values. by rewrite HV. Qed.

Lemma queue_relinked S h h' head es :
  relinked S h h' → cyc h' (head :: es.*1) → queue h head es → queue h' head es.
Proof.
  intros Hr Hc (Hn & _ & Hv). split_and!; [apply (relinked_null _ _ _ Hr Hn)|done|].
  by eapply relinked_has_values.
Qed.

Lemma queue_alloc h head es x :
  queue h head es → x ∈ head :: es.*1 → is_Some (links h !! x).
Proof. intros (_ & Hc & _). by apply cyc_alloc. Qed.

Lemma queue_not_null h head es x :
  queue h head es → x ∈ head :: es.*1 → x ≠ NULL.
Proof.
  intros Hq Hx ->. destruct (queue_alloc _ _ _ _ Hq Hx) as [n Hn].
  destruct Hq as (H0 & _). congruence.
Qed.

Lemma queue_head_not_null h head es : queue h head es → head ≠ NULL.
Proof. intros Hq. apply (queue_not_null h head es); [done|left]. Qed.

Lemma queue_NoDup h head es : queue h head es → NoDup (head :: es.*1).
Proof. by intros (_ & (? & _) & _). Qed.

Lemma queue_value h head es e :
  queue h head es → e ∈ es → values h !! e.1 = Some e.2.
Proof. intros (_ & _ & Hv) He. unfold has_values in Hv. by rewrite Forall_forall in Hv; apply Hv. Qed.

Lemma queue_next_head h head es :
  queue h head es → next_of h head = Some (hd head es.*1).
Proof. intros (_ & Hc & _). by apply cyc_next_first. Qed.

Lemma queue_prev_head h head es :
  queue h head es → prev_of h head = Some (hd head (reverse es.*1)).
Proof. intros (_ & Hc & _). by apply cyc_prev_first. Qed.

Lemma queue_next_elem h head l1 e l2 :
  queue h head (l1 ++ e :: l2) → next_of h e.1 = Some (hd head l2.*1).
Proof.
  intros (_ & Hc & _). rewrite fmap_app, fmap_cons in Hc.
  by apply cyc_next_inner in Hc.
Qed.

Lemma queue_prev_elem h head l1 e l2 :
  queue h head (l1 ++ e :: l2) → prev_of h e.1 = Some (hd head (reverse l1.*1)).
Proof.
  intros (_ & Hc & _). rewrite fmap_app, fmap_cons in Hc.
  by apply cyc_prev_inner in Hc.
Qed.

Lemma queue_first_ne_head h head e es : queue h head (e :: es) → e.1 ≠ head.
Proof.
  intros Hq%queue_NoDup. apply NoDup_cons in Hq as [Hq _]. set_solver.
Qed.

Lemma run_list_empty {B} h head es (k : bool → M B) :
  queue h head es →
  (list_empty head ≫= k) h = k (bool_decide (es = [])) h.
Proof.
  intros Hq. unfold list_empty.
  erewrite run_bind; [done|].
  rewrite (run_load_next _ _ _ _ (queue_next_head _ _ _ Hq)).
  unfold mret, M_ret. f_equal.
  destruct es as [|e es]; simpl.
  - by rewrite !bool_decide_eq_true_2.
  - rewrite !bool_decide_eq_false_2; [done..|]. by eapply queue_first_ne_head.
Qed.

Lemma hd_reverse_ne (a b : addr) (l : list addr) d :
  NoDup (a :: b :: l) → hd d (reverse (a :: b :: l)) ≠ a.
Proof.
  intros Hnd. rewrite reverse_cons.
  destruct (reverse (b :: l)) as [|c m] eqn:E.
  - by apply (f_equal length) in E; rewrite length_reverse in E.
  - simpl. intros ->. apply NoDup_cons in Hnd as [Hn _]. apply Hn.
    apply elem_of_reverse. rewrite E. left.
Qed.

Lemma run_list_is_singular {B} h head es (k : bool → M B) :
  queue h head es →
  (list_is_singular head ≫= k) h = k (bool_decide (length es = 1%nat)) h.
Proof.
  intros Hq. unfold list_is_singular.
  erewrite run_bind; [done|].
  rewrite (run_list_empty _ _ es) by done.
  destruct es as [|e es]; [done|].
  rewrite bool_decide_eq_false_2 by done.
  rewrite (run_load_prev _ _ _ _ (queue_prev_head _ _ _ Hq)).
  rewrite (run_load_next _ _ _ _ (queue_next_head _ _ _ Hq)).
  unfold mret, M_ret. f_equal. simpl.
  destruct es as [|e' es]; simpl.
  - by rewrite !bool_decide_eq_true_2.
  - rewrite !bool_decide_eq_false_2; [done..|].
    apply queue_NoDup in Hq. apply NoDup_cons in Hq as [_ Hq].
    by apply (hd_reverse_ne e.1 e'.1 es.*1).
Qed.

(** Unlinking an element of a queue. *)
Lemma queue_del h head l1 e l2 :
  queue h head (l1 ++ e :: l2) →
  ∃ h', list_del e.1 h = Ok tt h' ∧ queue h' head (l1 ++ l2) ∧
        relinked (head :: (l1 ++ l2).*1) h h'.
Proof.
  intros Hq. pose proof Hq as (H0 & Hc & Hv).
  rewrite fmap_app, fmap_cons in Hc.
  apply (cyc_rotate h (head :: l1.*1) (e.1 :: l2.*1)) in Hc. simpl in Hc.
  destruct (list_del_spec h e.1 (l2.*1 ++ head :: l1.*1)) as (h' & Hrun & Hc' & Hr);
    [done|by destruct (l2.*1)|].
  apply (cyc_rotate h' (l2.*1) (head :: l1.*1)) in Hc'.
  assert (relinked (head :: (l1 ++ l2).*1) h h') as Hr'.
  { eapply relinked_mono; [|done]. rewrite fmap_app. set_solver. }
  exists h'. split_and!; [done| |done].
  split_and!; [apply (relinked_null _ _ _ Hr H0)| by rewrite fmap_app|].
  apply (relinked_has_values _ h _ _ Hr). unfold has_values in *.
  rewrite Forall_app, Forall_cons in Hv. rewrite Forall_app. tauto.
Qed.

(** Linking a node at the front of a queue, at its back, and before one of
    its elements. *)
Lemma queue_add h head es x s :
  queue h head es → x ∉ head :: es.*1 → is_Some (links h !! x) →
  values h !! x = Some s →
  ∃ h', list_add x head h = Ok tt h' ∧ queue h' head ((x, s) :: es) ∧
        relinked (x :: head :: es.*1) h h'.
Proof.
  intros (H0 & Hc & Hv) Hx Hxa Hs.
  destruct (list_add_spec h x head es.*1) as (h' & Hrun & Hc' & Hr); [done..|].
  exists h'. split_and!; [done| |done].
  split_and!; [apply (relinked_null _ _ _ Hr H0)|done|].
  apply (relinked_has_values _ h _ _ Hr). by apply Forall_cons.
Qed.

Lemma queue_add_tail h head es x s :
  queue h head es → x ∉ head :: es.*1 → is_Some (links h !! x) →
  values h !! x = Some s →
  ∃ h', list_add_tail x head h = Ok tt h' ∧ queue h' head (es ++ [(x, s)]) ∧
        relinked (x :: head :: es.*1) h h'.
Proof.
  intros (H0 & Hc & Hv) Hx Hxa Hs.
  destruct (list_add_tail_spec h x head es.*1) as (h' & Hrun & Hc' & Hr); [done..|].
  exists h'. split_and!; [done| |done].
  split_and!; [apply (relinked_null _ _ _ Hr H0)|by rewrite fmap_app|].
  apply (relinked_has_values _ h _ _ Hr).
  apply Forall_app. split; [done|]. by apply Forall_singleton.
Qed.

Lemma queue_add_before h head l1 e l2 x s :
  queue h head (l1 ++ e :: l2) → x ∉ head :: (l1 ++ e :: l2).*1 →
  is_Some (links h !! x) → values h !! x = Some s →
  ∃ h', list_add_tail x e.1 h = Ok tt h' ∧
        queue h' head (l1 ++ (x, s) :: e :: l2) ∧
        relinked (x :: head :: (l1 ++ e :: l2).*1) h h'.
Proof.
  intros (H0 & Hc & Hv) Hx Hxa Hs.
  rewrite fmap_app, fmap_cons in Hc, Hx.
  apply (cyc_rotate h (head :: l1.*1) (e.1 :: l2.*1)) in Hc. simpl in Hc.
  destruct (list_add_tail_spec h x e.1 (l2.*1 ++ head :: l1.*1))
    as (h' & Hrun & Hc' & Hr); [done|set_solver|done|].
  exists h'.
  assert (relinked (x :: head :: (l1 ++ e :: l2).*1) h h') as Hr'.
  { eapply relinked_mono; [|done]. rewrite fmap_app, fmap_cons. set_solver. }
  split_and!; [done| |done].
  split_and!; [apply (relinked_null _ _ _ Hr H0)| |].
  - rewrite fmap_app, !fmap_cons. simpl.
    rewrite <- app_assoc in Hc'.
    apply (cyc_rotate h' (e.1 :: l2.*1) (head :: l1.*1 ++ [x])) in Hc'.
    simpl in Hc'. by rewrite <- app_assoc in Hc'.
  - apply (relinked_has_values _ h _ _ Hr). unfold has_values in *.
    rewrite Forall_app, !Forall_cons in *. tauto.
Qed.

(** Releasing a node that is not linked in the queue. *)
Lemma run_release {B} h x (k : unit → M B) :
  is_Some (links h !! x) →
  (q_release_element x ≫= k) h
  = k tt (Heap (delete x (links h)) (delete x (values h))).
Proof.
  intros [n Hn]. unfold q_release_element, free_value, free.
  unfold mbind, M_bind. simpl. by rewrite Hn.
Qed.

Lemma queue_release h head es x :
  queue h head es → x ∉ head :: es.*1 → x ≠ NULL →
  queue (Heap (delete x (links h)) (delete x (values h))) head es.
Proof.
  intros (H0 & Hc & Hv) Hx Hxn. split_and!; simpl.
  - by rewrite lookup_delete_ne.
  - eapply cyc_frame; [|done]. intros c Hc'. simpl.
    apply lookup_delete_ne. set_solver.
  - eapply has_values_frame; [|done]. intros e He. simpl.
    apply lookup_delete_ne. intros ->. apply Hx. right.
    apply list_elem_of_fmap. eauto.
Qed.
End Queue.

(** ** q_reverse *)

Section Reverse.
Implicit Types (h : heap) (head x : addr) (e : elem) (es : list elem).

Lemma queue_elem_not_in h head l1 e l2 :
  queue h head (l1 ++ e :: l2) → e.1 ∉ head :: (l1 ++ l2).*1.
Proof.
  intros Hnd%queue_NoDup. rewrite fmap_app, fmap_cons in Hnd.
  rewrite fmap_app.
  assert (head :: l1.*1 ++ e.1 :: l2.*1 ≡ₚ e.1 :: head :: l1.*1 ++ l2.*1) as HP
    by solve_Permutation.
  rewrite HP in Hnd. by apply NoDup_cons in Hnd as [? _].
Qed.

Lemma queue_elem_ne_head h head l1 e l2 :
  queue h head (l1 ++ e :: l2) → e.1 ≠ head.
Proof. intros Hq%queue_elem_not_in. set_solver. Qed.

Lemma reverse_loop_spec head rest : ∀ done h fuel safe,
  queue h head (done ++ rest) →
  (length rest < fuel)%nat →
  (rest ≠ [] → safe = hd head (tail rest).*1) →
  ∃ h', reverse_loop fuel head (hd head rest.*1) safe h = Ok tt h' ∧
        queue h' head (reverse rest ++ done) ∧
        relinked (head :: (done ++ rest).*1) h h'.
Proof.
  induction rest as [|x rest IH]; intros done h fuel safe Hq Hfuel Hsafe;
    (destruct fuel as [|fuel]; [simpl in Hfuel; lia|]); simpl.
  - rewrite bool_decide_eq_true_2 by done. exists h.
    rewrite app_nil_r in *. split_and!; [done..|apply relinked_refl].
  - rewrite bool_decide_eq_false_2 by (by eapply queue_elem_ne_head).
    destruct (queue_del _ _ _ _ _ Hq) as (h1 & Hdel & Hq1 & Hr1).
    destruct (queue_add h1 head (done ++ rest) x.1 x.2) as (h2 & Hadd & Hq2 & Hr2).
    + done.
    + by eapply queue_elem_not_in.
    + rewrite (relinked_alloc _ _ _ _ Hr1).
      apply (queue_alloc _ _ _ _ Hq). rewrite fmap_app, fmap_cons. set_solver.
    + destruct Hr1 as (-> & _). apply (queue_value _ _ _ _ Hq). set_solver.
    + replace (x.1, x.2) with x in Hq2 by by destruct x.
      assert (∃ safe', next_of h2 safe = Some safe' ∧
                (rest ≠ [] → safe' = hd head (tail rest).*1)) as (safe' & Hs1 & Hs2).
      { rewrite Hsafe by done. simpl. destruct rest as [|y rest'].
        - simpl. eexists. split; [by apply (queue_next_head _ _ _ Hq2)|done].
        - simpl. eexists. split; [|done].
          by apply (queue_next_elem h2 head (x :: done) y rest'). }
      destruct (IH (x :: done) h2 fuel safe') as (h' & Hrun & Hq' & Hr');
        [done|simpl in Hfuel; lia|done|].
      exists h'. split_and!.
      * unfold list_move.
        erewrite run_bind; [|erewrite run_bind; [|exact Hdel]; exact Hadd].
        rewrite (run_load_next _ _ _ _ Hs1).
        rewrite Hsafe by done. exact Hrun.
      * by rewrite reverse_cons, <- app_assoc.
      * eapply relinked_trans; [eapply relinked_mono; [|exact Hr1]|].
        { rewrite !fmap_app, fmap_cons. set_solver. }
        eapply relinked_trans; [eapply relinked_mono; [|exact Hr2]|].
        { rewrite !fmap_app, fmap_cons. set_solver. }
        eapply relinked_mono; [|exact Hr'].
        rewrite ?fmap_app, ?fmap_cons, ?fmap_app. set_solver.
Qed.

Lemma q_reverse_null fuel h : q_reverse fuel NULL h = Ok tt h.
Proof. done. Qed.

Lemma q_reverse_spec fuel h head es :
  queue h head es → (length es < fuel)%nat →
  ∃ h', q_reverse fuel head h = Ok tt h' ∧ queue h' head (reverse es) ∧
        relinked (head :: es.*1) h h'.
Proof.
  intros Hq Hfuel. unfold q_reverse.
  rewrite bool_decide_eq_false_2 by (by eapply queue_head_not_null).
  rewrite (run_list_empty _ _ es) by done.
  destruct es as [|e es].
  { exists h. split_and!; [done..|apply relinked_refl]. }
  rewrite bool_decide_eq_false_2 by done.
  rewrite (run_list_is_singular _ _ (e :: es)) by done.
  destruct es as [|e' es].
  { exists h. split_and!; [done..|apply relinked_refl]. }
  rewrite bool_decide_eq_false_2 by done.
  rewrite (run_load_next _ _ _ _ (queue_next_head _ _ _ Hq)). simpl hd.
  rewrite (run_load_next _ _ _ _ (queue_next_elem h head [] e (e' :: es) Hq)).
  destruct (reverse_loop_spec head (e :: e' :: es) [] h fuel (hd head (e' :: es).*1))
    as (h' & Hrun & Hq' & Hr'); [done..|].
  exists h'. rewrite app_nil_r in Hq'. done.
Qed.

Lemma q_reverse_twice fuel h head es :
  queue h head es → (length es < fuel)%nat →
  ∃ h1 h2, q_reverse fuel head h = Ok tt h1 ∧ q_reverse fuel head h1 = Ok tt h2 ∧
           queue h1 head (reverse es) ∧ queue h2 head es ∧
           relinked (head :: es.*1) h h2.
Proof.
  intros Hq Hfuel.
  destruct (q_reverse_spec fuel h head es) as (h1 & Hrun1 & Hq1 & Hr1); [done..|].
  destruct (q_reverse_spec fuel h1 head (reverse es)) as (h2 & Hrun2 & Hq2 & Hr2);
    [done|by rewrite length_reverse|].
  rewrite reverse_involutive in Hq2.
  exists h1, h2. split_and!; try done.
  eapply relinked_trans; [done|]. eapply relinked_mono; [|done].
  rewrite fmap_reverse. intros x. rewrite !elem_of_cons, elem_of_reverse. done.
Qed.
End Reverse.

(** ** q_swap and q_size *)

Section Swap.
Implicit Types (h : heap) (head x : addr) (e : elem) (es : list elem).

Lemma swap_loop_spec head : ∀ n rest done h fuel,
  (length rest ≤ n)%nat →
  queue h head (done ++ rest) →
  (length rest < fuel)%nat →
  ∃ h', swap_loop fuel head (hd head rest.*1) h = Ok tt h' ∧
        queue h' head (done ++ swap_pairs rest) ∧
        relinked (head :: (done ++ rest).*1) h h'.
Proof.
  induction n as [|n IH]; intros rest done h fuel Hn Hq Hfuel;
    (destruct fuel as [|fuel]; [lia|]).
  { destruct rest; [|simpl in Hn; lia]. simpl.
    rewrite bool_decide_eq_true_2 by done. exists h.
    split_and!; [done..|apply relinked_refl]. }
  destruct rest as [|x [|y rest]].
  - simpl. rewrite bool_decide_eq_true_2 by done. exists h.
    split_and!; [done..|apply relinked_refl].
  - simpl. rewrite bool_decide_eq_false_2 by (by eapply queue_elem_ne_head).
    rewrite (run_load_next _ _ _ _ (queue_next_elem _ _ _ _ _ Hq)). simpl.
    rewrite bool_decide_eq_true_2 by done. exists h.
    split_and!; [done..|apply relinked_refl].
  - rewrite fmap_cons. cbn [hd swap_loop swap_pairs].
    rewrite bool_decide_eq_false_2 by (by eapply queue_elem_ne_head).
    rewrite (run_load_next _ _ _ _ (queue_next_elem _ _ _ _ _ Hq)).
    rewrite fmap_cons. cbn [hd].
    assert (queue h head ((done ++ [x]) ++ y :: rest)) as Hq0
      by (by rewrite <- app_assoc).
    rewrite bool_decide_eq_false_2 by (by eapply queue_elem_ne_head).
    rewrite (run_load_next _ _ _ _ (queue_next_elem _ _ _ _ _ Hq)).
    rewrite fmap_cons. cbn [hd].
    destruct (queue_del _ _ _ _ _ Hq0) as (h1 & Hdel & Hq1 & Hr1).
    rewrite <- app_assoc in Hq1. simpl in Hq1.
    destruct (queue_add_before h1 head done x rest y.1 y.2)
      as (h2 & Hadd & Hq2 & Hr2).
    + done.
    + rewrite <- app_assoc in Hr1. simpl in Hr1.
      apply queue_elem_not_in in Hq0. rewrite <- app_assoc in Hq0. done.
    + rewrite (relinked_alloc _ _ _ _ Hr1).
      apply (queue_alloc _ _ _ _ Hq). rewrite fmap_app, !fmap_cons. set_solver.
    + destruct Hr1 as (-> & _). apply (queue_value _ _ _ _ Hq). set_solver.
    + replace (y.1, y.2) with y in Hq2 by by destruct y.
      assert (queue h2 head ((done ++ [y]) ++ x :: rest)) as Hq2'
        by (by rewrite <- app_assoc).
      pose proof (queue_next_elem _ _ _ _ _ Hq2') as Hnx.
      destruct (IH rest (done ++ [y; x]) h2 fuel) as (h' & Hrun & Hq' & Hr').
      * simpl in Hn. lia.
      * by rewrite <- app_assoc.
      * simpl in Hfuel. lia.
      * exists h'. split_and!.
        -- erewrite run_bind; [|exact Hdel].
           erewrite run_bind; [|exact Hadd].
           rewrite (run_load_next _ _ _ _ Hnx). exact Hrun.
        -- by rewrite <- app_assoc in Hq'.
        -- eapply relinked_trans; [eapply relinked_mono; [|exact Hr1]|].
           { rewrite ?fmap_app, ?fmap_cons, ?fmap_app. set_solver. }
           eapply relinked_trans; [eapply relinked_mono; [|exact Hr2]|].
           { rewrite ?fmap_app, ?fmap_cons, ?fmap_app. set_solver. }
           eapply relinked_mono; [|exact Hr'].
           rewrite ?fmap_app, ?fmap_cons, ?fmap_app. set_solver.
Qed.

Lemma q_swap_null fuel h : q_swap fuel NULL h = Ok tt h.
Proof. done. Qed.

Lemma q_swap_spec fuel h head es :
  queue h head es → (length es < fuel)%nat →
  ∃ h', q_swap fuel head h = Ok tt h' ∧ queue h' head (swap_pairs es) ∧
        relinked (head :: es.*1) h h'.
Proof.
  intros Hq Hfuel. unfold q_swap.
  rewrite bool_decide_eq_false_2 by (by eapply queue_head_not_null).
  rewrite (run_list_empty _ _ es) by done.
  destruct es as [|e es].
  { exists h. split_and!; [done..|apply relinked_refl]. }
  rewrite bool_decide_eq_false_2 by done.
  rewrite (run_list_is_singular _ _ (e :: es)) by done.
  destruct es as [|e' es].
  { exists h. split_and!; [done..|apply relinked_refl]. }
  rewrite bool_decide_eq_false_2 by done.
  rewrite (run_load_next _ _ _ _ (queue_next_head _ _ _ Hq)).
  by apply (swap_loop_spec head (length (e :: e' :: es)) (e :: e' :: es) [] h fuel).
Qed.
End Swap.

Section Size.
Implicit Types (h : heap) (head x : addr) (e : elem) (es : list elem).

Lemma size_loop_spec head h : ∀ rest done fuel count,
  queue h head (done ++ rest) →
  count + Z.of_nat (length rest) ≤ INT_MAX →
  (length rest < fuel)%nat →
  size_loop fuel head (hd head rest.*1) count h
  = Ok (count + Z.of_nat (length rest)) h.
Proof.
  induction rest as [|x rest IH]; intros done fuel count Hq Hc Hfuel;
    (destruct fuel as [|fuel]; [simpl in Hfuel; lia|]).
  - simpl. rewrite bool_decide_eq_true_2 by done.
    unfold mret, M_ret. f_equal. lia.
  - rewrite fmap_cons. cbn [hd size_loop].
    rewrite bool_decide_eq_false_2 by (by eapply queue_elem_ne_head).
    rewrite bool_decide_eq_false_2 by (simpl in Hc; lia).
    rewrite (run_load_next _ _ _ _ (queue_next_elem _ _ _ _ _ Hq)).
    rewrite (IH (done ++ [x])).
    + f_equal. simpl length. lia.
    + by rewrite <- app_assoc.
    + simpl in Hc. lia.
    + simpl in Hfuel. lia.
Qed.

Lemma q_size_null fuel h : q_size fuel NULL h = Ok 0 h.
Proof. done. Qed.

Lemma q_size_spec fuel h head es :
  queue h head es → Z.of_nat (length es) ≤ INT_MAX → (length es < fuel)%nat →
  q_size fuel head h = Ok (Z.of_nat (length es)) h.
Proof.
  intros Hq Hn Hfuel. unfold q_size.
  rewrite bool_decide_eq_false_2 by (by eapply queue_head_not_null).
  rewrite (run_list_empty _ _ es) by done.
  destruct es as [|e es]; [done|].
  rewrite bool_decide_eq_false_2 by done.
  rewrite (run_load_next _ _ _ _ (queue_next_head _ _ _ Hq)).
  by rewrite (size_loop_spec head h (e :: es) []).
Qed.
End Size.

(** ** q_delete_mid *)

Section Released.
Implicit Types (h : heap) (R S : list addr).

Lemma released_of_relinked S h h' : relinked S h h' → released [] S h h'.
Proof.
  intros Hr. pose proof Hr as (HV & HD & HF). split_and!.
  - by intros x ?%elem_of_nil.
  - intros x _. by rewrite HV.
  - intros x _. by apply (relinked_alloc S).
  - intros x _. apply HF.
Qed.

Lemma released_trans R1 R2 S h h1 h2 :
  released R1 S h h1 → released R2 S h1 h2 → released (R1 ++ R2) S h h2.
Proof.
  intros (A1 & B1 & C1 & D1) (A2 & B2 & C2 & D2). split_and!.
  - intros x Hx. destruct (decide (x ∈ R2)) as [|Hn]; [by apply A2|].
    apply elem_of_app in Hx as [Hx|]; [|done].
    destruct (A1 x Hx) as [E1 E2]. split.
    + apply eq_None_not_Some. rewrite (C2 x Hn), E1. by intros [? ?].
    + by rewrite (B2 x Hn).
  - intros x Hx. rewrite B2, B1; set_solver.
  - intros x Hx. rewrite C2, C1; set_solver.
  - intros x Hx HS. rewrite D2, D1; set_solver.
Qed.

Lemma released_mono R S S' h h' : S ⊆ S' → released R S h h' → released R S' h h'.
Proof.
  intros HS (A & B & C & D). split_and!; [done..|].
  intros x ? ?. apply D; set_solver.
Qed.

Lemma released_free S h x :
  released [x] S h (Heap (delete x (links h)) (delete x (values h))).
Proof.
  split_and!; simpl.
  - intros y ->%list_elem_of_singleton. by rewrite !lookup_delete_eq.
  - intros y Hy. apply lookup_delete_ne. set_solver.
  - intros y Hy. rewrite lookup_delete_ne; [done|set_solver].
  - intros y Hy _. apply lookup_delete_ne. set_solver.
Qed.
End Released.

Section DeleteMid.
Implicit Types (h : heap) (head x : addr) (e : elem) (es : list elem).

Lemma half_SS n : (S (S n) / 2 = S (n / 2))%nat.
Proof.
  replace (S (S n)) with (n + 1 * 2)%nat by lia. by rewrite Nat.div_add by lia; lia.
Qed.

Lemma half_lt n : (0 < n → n / 2 < n)%nat.
Proof. intros. apply Nat.div_lt; lia. Qed.

(** The slow pointer stops on the node of index [length / 2] of the part of
    the list the fast pointer had before it. *)
Lemma mid_loop_spec head h : ∀ n lf df ls ds fuel,
  (length lf ≤ n)%nat →
  queue h head (df ++ lf) → queue h head (ds ++ ls) →
  (length lf ≤ length ls)%nat →
  (length lf < fuel)%nat →
  mid_loop fuel head (hd head lf.*1) (hd head ls.*1) h
  = Ok (hd head (drop (length lf / 2) ls).*1) h.
Proof.
  induction n as [|n IH]; intros lf df ls ds fuel Hn Hqf Hqs Hlen Hfuel;
    (destruct fuel as [|fuel]; [lia|]).
  { destruct lf; [|simpl in Hn; lia]. simpl.
    by rewrite bool_decide_eq_true_2. }
  destruct lf as [|a [|b lf]].
  - simpl. by rewrite bool_decide_eq_true_2.
  - simpl. rewrite bool_decide_eq_false_2 by (by eapply queue_elem_ne_head).
    rewrite (run_load_next _ _ _ _ (queue_next_elem _ _ _ _ _ Hqf)). simpl.
    by rewrite bool_decide_eq_true_2.
  - rewrite fmap_cons. cbn [hd mid_loop].
    rewrite bool_decide_eq_false_2 by (by eapply queue_elem_ne_head).
    rewrite (run_load_next _ _ _ _ (queue_next_elem _ _ _ _ _ Hqf)).
    rewrite fmap_cons. cbn [hd].
    assert (queue h head ((df ++ [a]) ++ b :: lf)) as Hqf'
      by (by rewrite <- app_assoc).
    rewrite bool_decide_eq_false_2 by (by eapply queue_elem_ne_head).
    rewrite (run_load_next _ _ _ _ (queue_next_elem _ _ _ _ _ Hqf)).
    rewrite fmap_cons. cbn [hd].
    rewrite (run_load_next _ _ _ _ (queue_next_elem _ _ _ _ _ Hqf')).
    destruct ls as [|c ls]; [simpl in Hlen; lia|].
    rewrite fmap_cons. cbn [hd].
    rewrite (run_load_next _ _ _ _ (queue_next_elem _ _ _ _ _ Hqs)).
    rewrite (IH lf (df ++ [a; b]) ls (ds ++ [c])).
    + cbn [length]. by rewrite half_SS.
    + simpl in Hn. lia.
    + by rewrite <- app_assoc.
    + by rewrite <- app_assoc.
    + simpl in Hlen. lia.
    + simpl in Hfuel. lia.
Qed.

Lemma q_delete_mid_null fuel h : q_delete_mid fuel NULL h = Ok false h.
Proof. done. Qed.

Lemma q_delete_mid_empty fuel h head :
  queue h head [] → q_delete_mid fuel head h = Ok false h.
Proof.
  intros Hq. unfold q_delete_mid.
  rewrite bool_decide_eq_false_2 by (by eapply queue_head_not_null).
  by rewrite (run_list_empty _ _ []).
Qed.

Lemma q_delete_mid_spec fuel h head es :
  queue h head es → es ≠ [] → (length es < fuel)%nat →
  ∃ e h', es !! (length es / 2)%nat = Some e ∧
          q_delete_mid fuel head h = Ok true h' ∧
          queue h' head (delete (length es / 2)%nat es) ∧
          released [e.1] (head :: es.*1) h h'.
Proof.
  intros Hq Hne Hfuel.
  set (k := (length es / 2)%nat).
  assert (k < length es)%nat as Hk by (apply half_lt; destruct es; simpl; [done|lia]).
  destruct (lookup_lt_is_Some_2 es k Hk) as [e He].
  pose proof (take_drop_middle es k e He) as Hes.
  exists e. unfold q_delete_mid.
  rewrite bool_decide_eq_false_2 by (by eapply queue_head_not_null).
  rewrite (run_list_empty _ _ es) by done.
  rewrite bool_decide_eq_false_2 by done.
  rewrite (run_load_next _ _ _ _ (queue_next_head _ _ _ Hq)).
  erewrite run_bind;
    [|by apply (mid_loop_spec head h (length es) es [] es [])].
  fold k. rewrite (drop_S es e k He), fmap_cons. cbn [hd].
  rewrite <- Hes in Hq.
  destruct (queue_del _ _ _ _ _ Hq) as (h1 & Hdel & Hq1 & Hr1).
  erewrite run_bind; [|exact Hdel].
  assert (is_Some (links h1 !! e.1)) as Ha.
  { rewrite (relinked_alloc _ _ _ _ Hr1).
    apply (queue_alloc _ _ _ _ Hq). rewrite fmap_app, fmap_cons. set_solver. }
  rewrite run_release by done.
  eexists. split_and!; [done|done|..].
  - rewrite delete_take_drop. apply queue_release; [done|..].
    + by eapply queue_elem_not_in.
    + apply (queue_not_null _ _ _ _ Hq). rewrite fmap_app, fmap_cons. set_solver.
  - apply (released_trans [] [e.1] _ h h1).
    + apply released_of_relinked. eapply relinked_mono; [|exact Hr1].
      intros x Hx. rewrite <- Hes. revert Hx.
      rewrite !fmap_app, fmap_cons. set_solver.
    + apply released_free.
Qed.
End DeleteMid.

(** ** q_delete_dup *)

Section DeleteDup.
Implicit Types (h : heap) (head : addr) (x e : elem) (es done rest : list elem).

(** [list_del(node); q_release_element(node);] on an element of a queue. *)
Lemma run_delete_node {B} h head done x rest (b : bool) (k : bool → M B) :
  queue h head (done ++ x :: rest) →
  ∃ h2, ((list_del x.1;; q_release_element x.1;; mret b) ≫= k) h = k b h2 ∧
        queue h2 head (done ++ rest) ∧
        released [x.1] (head :: (done ++ x :: rest).*1) h h2.
Proof.
  intros Hq.
  destruct (queue_del _ _ _ _ _ Hq) as (h1 & Hdel & Hq1 & Hr1).
  assert (is_Some (links h1 !! x.1)) as Ha.
  { rewrite (relinked_alloc _ _ _ _ Hr1).
    apply (queue_alloc _ _ _ _ Hq). rewrite fmap_app, fmap_cons. set_solver. }
  eexists. split_and!.
  - erewrite run_bind; [done|].
    erewrite run_bind; [|exact Hdel].
    by rewrite run_release.
  - apply queue_release; [done|..].
    + by eapply queue_elem_not_in.
    + apply (queue_not_null _ _ _ _ Hq). rewrite fmap_app, fmap_cons. set_solver.
  - apply (released_trans [] [x.1] _ h h1).
    + apply released_of_relinked. eapply relinked_mono; [|exact Hr1].
      rewrite !fmap_app, fmap_cons. set_solver.
    + apply released_free.
Qed.

Lemma queue_next_safe h head done rest :
  queue h head (done ++ rest) →
  ∃ s, next_of h (hd head rest.*1) = Some s ∧
       (rest ≠ [] → s = hd head (tail rest).*1).
Proof.
  intros Hq. destruct rest as [|y rest]; simpl.
  - eexists. split; [by apply (queue_next_head _ _ _ Hq)|done].
  - eexists. split; [by apply (queue_next_elem _ _ _ _ _ Hq)|done].
Qed.

Lemma dup_loop_spec head rest : ∀ done h fuel dup safe,
  queue h head (done ++ rest) →
  (length rest < fuel)%nat →
  (rest ≠ [] → safe = hd head (tail rest).*1) →
  ∃ h', dup_loop fuel head (hd head rest.*1) safe dup h = Ok tt h' ∧
        queue h' head (done ++ dedup dup rest) ∧
        released (dedup_removed dup rest).*1 (head :: (done ++ rest).*1) h h'.
Proof.
  induction rest as [|x rest IH]; intros done h fuel dup safe Hq Hfuel Hsafe;
    (destruct fuel as [|fuel]; [simpl in Hfuel; lia|]).
  { simpl. rewrite bool_decide_eq_true_2 by done. exists h.
    split_and!; [done..|]. apply released_of_relinked, relinked_refl. }
  rewrite fmap_cons. cbn [hd dup_loop].
  rewrite bool_decide_eq_false_2 by (by eapply queue_elem_ne_head).
  rewrite (run_load_next _ _ _ _ (queue_next_elem _ _ _ _ _ Hq)).
  rewrite Hsafe by done. cbn [tail].
  set (eq := eq_next x rest).
  assert (∀ B (k : bool → M B),
    ((if bool_decide (hd head rest.*1 ≠ head)
      then v1 ← load_value x.1; nx ← load_next x.1; v2 ← load_value nx;
           mret (bool_decide (strcmp v1 v2 = 0))
      else mret false) ≫= k) h = k eq h) as Heq.
  { intros B k. subst eq. destruct rest as [|y rest'].
    - simpl. by rewrite bool_decide_eq_false_2 by (by intros []).
    - rewrite fmap_cons. cbn [hd].
      assert (queue h head ((done ++ [x]) ++ y :: rest')) as Hq'
        by (by rewrite <- app_assoc).
      rewrite bool_decide_eq_true_2 by (by eapply queue_elem_ne_head).
      erewrite run_bind; [done|].
      rewrite (run_load_value _ _ x.2)
        by (apply (queue_value _ _ _ _ Hq); set_solver).
      rewrite (run_load_next _ _ _ _ (queue_next_elem _ _ _ _ _ Hq)).
      rewrite fmap_cons. cbn [hd].
      rewrite (run_load_value _ _ y.2)
        by (apply (queue_value _ _ _ _ Hq); set_solver).
      done. }
  rewrite Heq. cbn [dedup dedup_removed]. fold eq.
  destruct eq; [|destruct dup].
  - destruct (run_delete_node h head done x rest true
      (λ dup0, safe' ← load_next (hd head rest.*1);
               dup_loop fuel head (hd head rest.*1) safe' dup0))
      as (h2 & Hrun2 & Hq2 & Hr2); [done|].
    destruct (queue_next_safe _ _ _ _ Hq2) as (s & Hs1 & Hs2).
    destruct (IH done h2 fuel true s) as (h' & Hrun & Hq' & Hr');
      [done|simpl in Hfuel; lia|done|].
    exists h'. split_and!.
    + rewrite Hrun2. by rewrite (run_load_next _ _ _ _ Hs1).
    + done.
    + rewrite fmap_cons. apply (released_trans [x.1] _ _ h h2); [done|].
      eapply released_mono; [|done]. rewrite !fmap_app, fmap_cons. set_solver.
  - destruct (run_delete_node h head done x rest false
      (λ dup0, safe' ← load_next (hd head rest.*1);
               dup_loop fuel head (hd head rest.*1) safe' dup0))
      as (h2 & Hrun2 & Hq2 & Hr2); [done|].
    destruct (queue_next_safe _ _ _ _ Hq2) as (s & Hs1 & Hs2).
    destruct (IH done h2 fuel false s) as (h' & Hrun & Hq' & Hr');
      [done|simpl in Hfuel; lia|done|].
    exists h'. split_and!.
    + rewrite Hrun2. by rewrite (run_load_next _ _ _ _ Hs1).
    + done.
    + rewrite fmap_cons. apply (released_trans [x.1] _ _ h h2); [done|].
      eapply released_mono; [|done]. rewrite !fmap_app, fmap_cons. set_solver.
  - rewrite run_ret.
    assert (queue h head ((done ++ [x]) ++ rest)) as Hq2
      by (by rewrite <- app_assoc).
    destruct (queue_next_safe _ _ _ _ Hq2) as (s & Hs1 & Hs2).
    destruct (IH (done ++ [x]) h fuel false s) as (h' & Hrun & Hq' & Hr');
      [done|simpl in Hfuel; lia|done|].
    exists h'. split_and!.
    + by rewrite (run_load_next _ _ _ _ Hs1).
    + by rewrite <- app_assoc in Hq'.
    + by rewrite <- app_assoc in Hr'.
Qed.

Lemma q_delete_dup_null fuel h : q_delete_dup fuel NULL h = Ok false h.
Proof. done. Qed.

Lemma q_delete_dup_spec fuel h head es :
  queue h head es → (length es < fuel)%nat →
  ∃ h', q_delete_dup fuel head h = Ok true h' ∧
        queue h' head (dedup false es) ∧
        released (dedup_removed false es).*1 (head :: es.*1) h h' ∧
        ((length es ≤ 1)%nat → h' = h).
Proof.
  intros Hq Hfuel. unfold q_delete_dup.
  rewrite bool_decide_eq_false_2 by (by eapply queue_head_not_null).
  rewrite (run_list_empty _ _ es) by done.
  destruct es as [|e es].
  { exists h. split_and!; [done..| |done].
    apply released_of_relinked, relinked_refl. }
  rewrite bool_decide_eq_false_2 by done.
  rewrite (run_list_is_singular _ _ (e :: es)) by done.
  destruct es as [|e' es].
  { exists h. split_and!; [done..| |done].
    apply released_of_relinked, relinked_refl. }
  rewrite bool_decide_eq_false_2 by done.
  rewrite (run_load_next _ _ _ _ (queue_next_head _ _ _ Hq)). simpl hd.
  rewrite (run_load_next _ _ _ _ (queue_next_elem h head [] e (e' :: es) Hq)).
  destruct (dup_loop_spec head (e :: e' :: es) [] h fuel false
    (hd head (e' :: es).*1)) as (h' & Hrun & Hq' & Hr'); [done..|].
  exists h'. split_and!; [|done|done|simpl; lia].
  erewrite run_bind; [|exact Hrun]. done.
Qed.
End DeleteDup.

(** ** q_insert_head and q_insert_tail *)

Section Insert.
Implicit Types (h : heap) (head e : addr) (s : string) (es : list elem).

(** The heap after a successful [malloc] and [strdup] of an insertion. *)
Lemma queue_alloc_elem h head es e s :
  queue h head es → e ≠ NULL → links h !! e = None →
  queue (Heap (<[e := ListHead NULL NULL]> (links h)) (<[e := s]> (values h)))
    head es ∧ e ∉ head :: es.*1.
Proof.
  intros Hq He Hfresh.
  assert (e ∉ head :: es.*1) as Hnot.
  { intros Hin. destruct (queue_alloc _ _ _ _ Hq Hin) as [n Hn]. congruence. }
  split; [|done]. destruct Hq as (H0 & Hc & Hv). split_and!; simpl.
  - by rewrite lookup_insert_ne.
  - eapply cyc_frame; [|done]. intros c Hc'. simpl.
    apply lookup_insert_ne. set_solver.
  - eapply has_values_frame; [|done]. intros x Hx. simpl.
    apply lookup_insert_ne. intros ->. apply Hnot. right.
    apply list_elem_of_fmap. eauto.
Qed.

Lemma run_malloc {B} h e (k : addr → M B) :
  e ≠ NULL →
  (malloc e ≫= k) h
  = k e (Heap (<[e := ListHead NULL NULL]> (links h)) (values h)).
Proof.
  intros He. unfold mbind, M_bind, malloc. by rewrite bool_decide_eq_false_2.
Qed.

Lemma run_malloc_null {B} h (k : addr → M B) : (malloc NULL ≫= k) h = k NULL h.
Proof. done. Qed.

Lemma run_strdup {B} h e s ok (k : bool → M B) :
  (strdup e s ok ≫= k) h
  = k ok (if ok then Heap (links h) (<[e := s]> (values h)) else h).
Proof. unfold mbind, M_bind, strdup. by destruct ok. Qed.

Lemma run_free {B} h e (k : unit → M B) :
  is_Some (links h !! e) →
  (free e ≫= k) h = k tt (Heap (delete e (links h)) (values h)).
Proof. intros [n Hn]. unfold mbind, M_bind, free. by rewrite Hn. Qed.

Lemma q_insert_head_spec h head es s e :
  queue h head es → e ≠ NULL → links h !! e = None →
  ∃ h', q_insert_head head s e true h = Ok true h' ∧
        queue h' head ((e, s) :: es) ∧
        values h' = <[e := s]> (values h) ∧
        dom (links h') = {[e]} ∪ dom (links h).
Proof.
  intros Hq He Hfresh.
  destruct (queue_alloc_elem h head es e s Hq He Hfresh) as [Hq1 Hnot].
  destruct (queue_add _ head es e s Hq1) as (h' & Hrun & Hq' & Hr');
    [done|simpl; by rewrite lookup_insert_eq|simpl; by rewrite lookup_insert_eq|].
  exists h'. split_and!; [|done|..].
  - unfold q_insert_head.
    rewrite bool_decide_eq_false_2 by (by eapply queue_head_not_null).
    rewrite run_malloc by done.
    rewrite bool_decide_eq_false_2 by done.
    rewrite run_strdup. cbn [negb links values].
    erewrite run_bind; [|exact Hrun]. done.
  - by destruct Hr' as (-> & _).
  - destruct Hr' as (_ & -> & _). simpl. by rewrite dom_insert_L.
Qed.

Lemma q_insert_tail_spec h head es s e :
  queue h head es → e ≠ NULL → links h !! e = None →
  ∃ h', q_insert_tail head s e true h = Ok true h' ∧
        queue h' head (es ++ [(e, s)]) ∧
        values h' = <[e := s]> (values h) ∧
        dom (links h') = {[e]} ∪ dom (links h).
Proof.
  intros Hq He Hfresh.
  destruct (queue_alloc_elem h head es e s Hq He Hfresh) as [Hq1 Hnot].
  destruct (queue_add_tail _ head es e s Hq1) as (h' & Hrun & Hq' & Hr');
    [done|simpl; by rewrite lookup_insert_eq|simpl; by rewrite lookup_insert_eq|].
  exists h'. split_and!; [|done|..].
  - unfold q_insert_tail.
    rewrite bool_decide_eq_false_2 by (by eapply queue_head_not_null).
    rewrite run_malloc by done.
    rewrite bool_decide_eq_false_2 by done.
    rewrite run_strdup. cbn [negb links values].
    erewrite run_bind; [|exact Hrun]. done.
  - by destruct Hr' as (-> & _).
  - destruct Hr' as (_ & -> & _). simpl. by rewrite dom_insert_L.
Qed.

(** A failed insertion: the three causes give [false], and [false] leaves
    the heap as it was. *)
Lemma heap_eq h h' : links h = links h' → values h = values h' → h = h'.
Proof. destruct h, h'. simpl. by intros -> ->. Qed.

Lemma malloc_free_fresh h e :
  links h !! e = None →
  Heap (delete e (<[e := ListHead NULL NULL]> (links h))) (values h) = h.
Proof.
  intros Hf. apply heap_eq; simpl; [|done].
  by rewrite delete_insert_eq, delete_id.
Qed.

Lemma q_insert_head_fail h head s e dup_ok :
  e = NULL ∨ links h !! e = None →
  (head = NULL ∨ e = NULL ∨ dup_ok = false →
     q_insert_head head s e dup_ok h = Ok false h) ∧
  (∀ h', q_insert_head head s e dup_ok h = Ok false h' → h' = h).
Proof.
  intros He. unfold q_insert_head.
  destruct (decide (head = NULL)) as [->|Hh].
  { rewrite bool_decide_eq_true_2 by done. split; [done|]. by intros h' [= ->]. }
  rewrite bool_decide_eq_false_2 by done.
  destruct (decide (e = NULL)) as [->|Hen].
  { rewrite run_malloc_null, bool_decide_eq_true_2 by done.
    split; [done|]. by intros h' [= ->]. }
  destruct He as [?|Hf]; [done|].
  rewrite run_malloc, bool_decide_eq_false_2, run_strdup by done.
  destruct dup_ok; cbn [negb links values].
  - split; [naive_solver|].
    unfold mbind, M_bind. intros h'.
    by destruct (list_add e head _).
  - rewrite run_free by (simpl; by rewrite lookup_insert_eq). simpl.
    rewrite malloc_free_fresh by done.
    split; [done|]. by intros h' [= ->].
Qed.

Lemma q_insert_tail_fail h head s e dup_ok :
  e = NULL ∨ links h !! e = None →
  (head = NULL ∨ e = NULL ∨ dup_ok = false →
     q_insert_tail head s e dup_ok h = Ok false h) ∧
  (∀ h', q_insert_tail head s e dup_ok h = Ok false h' → h' = h).
Proof.
  intros He. unfold q_insert_tail.
  destruct (decide (head = NULL)) as [->|Hh].
  { rewrite bool_decide_eq_true_2 by done. split; [done|]. by intros h' [= ->]. }
  rewrite bool_decide_eq_false_2 by done.
  destruct (decide (e = NULL)) as [->|Hen].
  { rewrite run_malloc_null, bool_decide_eq_true_2 by done.
    split; [done|]. by intros h' [= ->]. }
  destruct He as [?|Hf]; [done|].
  rewrite run_malloc, bool_decide_eq_false_2, run_strdup by done.
  destruct dup_ok; cbn [negb links values].
  - split; [naive_solver|].
    unfold mbind, M_bind. intros h'.
    by destruct (list_add_tail e head _).
  - rewrite run_free by (simpl; by rewrite lookup_insert_eq). simpl.
    rewrite malloc_free_fresh by done.
    split; [done|]. by intros h' [= ->].
Qed.

(** Every sequence of elements with distinct non-null addresses is the
    content of a queue: the one [q_insert_tail] builds. *)
Lemma build_queue head : ∀ es2 h es1,
  queue h head es1 → NoDup es2.*1 →
  (∀ x, x ∈ es2.*1 → x ≠ NULL ∧ links h !! x = None) →
  queue (build h head es2) head (es1 ++ es2).
Proof.
  induction es2 as [|[a s] es2 IH]; intros h es1 Hq Hnd Hf; simpl.
  { by rewrite app_nil_r. }
  rewrite fmap_cons in Hnd, Hf. simpl in *.
  apply NoDup_cons in Hnd as [Ha Hnd].
  destruct (Hf a) as [Han Haf]; [left|].
  destruct (q_insert_tail_spec h head es1 s a Hq Han Haf)
    as (h' & Hrun & Hq' & HV & HD).
  rewrite Hrun. simpl.
  replace (es1 ++ (a, s) :: es2) with ((es1 ++ [(a, s)]) ++ es2)
    by (by rewrite <- app_assoc).
  apply IH; [done..|]. intros x Hx. destruct (Hf x) as [? Hxf]; [by right|].
  split; [done|]. apply not_elem_of_dom. rewrite HD.
  apply not_elem_of_dom in Hxf. set_solver.
Qed.

Lemma empty_queue_queue head : head ≠ NULL → queue (empty_queue head) head [].
Proof.
  intros Hh. split_and!; simpl.
  - by rewrite lookup_singleton_ne.
  - split_and!; [apply NoDup_singleton|..]; unfold ring; simpl;
      rewrite chain_cons_cons; (split; [|done]).
    + unfold next_of. simpl. by rewrite lookup_singleton_eq.
    + unfold prev_of. simpl. by rewrite lookup_singleton_eq.
  - apply Forall_nil_2.
Qed.

Lemma mkq_queue head es :
  NoDup (head :: es.*1) → NULL ∉ head :: es.*1 → queue (mkq head es) head es.
Proof.
  intros Hnd Hnull. unfold mkq.
  apply NoDup_cons in Hnd as [Hh Hnd].
  apply (build_queue head es (empty_queue head) []); [|done|].
  - apply empty_queue_queue. set_solver.
  - intros x Hx. split; [set_solver|]. simpl.
    apply lookup_singleton_ne. set_solver.
Qed.
End Insert.

(** [q_new] on the empty heap, with a successful allocation, builds the empty
    queue; with a failed one it returns [NULL]. *)
Lemma q_new_empty_queue head :
  head ≠ NULL → q_new head (Heap ∅ ∅) = Ok head (empty_queue head).
Proof.
  intros Hh. unfold q_new. rewrite run_malloc by done.
  rewrite bool_decide_eq_true_2 by done.
  unfold INIT_LIST_HEAD. erewrite run_bind; [done|].
  rewrite run_store_next by (simpl; by rewrite lookup_insert_eq).
  rewrite store_prev_ok.
  2:{ apply alloc_set_next. simpl. by rewrite lookup_insert_eq. }
  f_equal. apply heap_eq; [|done]. simpl.
  by rewrite insert_empty, !alter_singleton_eq.
Qed.

Lemma q_new_fails h : q_new NULL h = Ok NULL h.
Proof. done. Qed.

(** ** q_remove_head and q_remove_tail *)

Section Remove.
Implicit Types (h : heap) (head : addr) (e : elem) (es : list elem)
  (buf : list ascii) (s : string).

Lemma size_sub_1 n : 1 ≤ n < 2 ^ SIZE_WIDTH → size_sub n 1 = n - 1.
Proof. intros Hn. unfold size_sub. apply Z.mod_small. lia. Qed.

Lemma size_sub_0_1 : size_sub 0 1 = 2 ^ SIZE_WIDTH - 1.
Proof. done. Qed.

Lemma length_copied s n : (1 ≤ n)%nat → length (copied s n) = n.
Proof.
  intros Hn. unfold copied. rewrite length_app, length_replicate, length_take. lia.
Qed.

(** The bytes of [copied s n]: those of [s] below its length, zeros from
    there on, with the terminator at offset [n - 1] at the latest. *)
Lemma copied_lookup_string s n i :
  (i < n - 1)%nat → (i < length (String.list_ascii_of_string s))%nat →
  copied s n !! i = String.list_ascii_of_string s !! i.
Proof.
  intros Hi Hl. unfold copied.
  rewrite lookup_app_l by (rewrite length_take; lia).
  by rewrite lookup_take_lt.
Qed.

Lemma copied_lookup_zero s n i :
  (i < n)%nat → (n - 1 ≤ i ∨ length (String.list_ascii_of_string s) ≤ i)%nat →
  copied s n !! i = Some zero.
Proof.
  intros Hi Hl. unfold copied.
  rewrite lookup_app_r by (rewrite length_take; lia).
  apply lookup_replicate_2. rewrite length_take. lia.
Qed.

Lemma strncpy_store_copied buf s k :
  (k < length buf)%nat →
  <[k := zero]> (take k (String.list_ascii_of_string s ++ replicate k zero)
                 ++ drop k buf)
  = copied s (S k) ++ drop (S k) buf.
Proof.
  intros Hk. set (src := String.list_ascii_of_string s).
  assert (take k (src ++ replicate k zero)
          = take k src ++ replicate (k - length src) zero) as ->.
  { rewrite take_app, take_replicate. f_equal. f_equal. lia. }
  assert (length (take k src ++ replicate (k - length src) zero) = k) as Hl.
  { rewrite length_app, length_take, length_replicate. lia. }
  rewrite insert_app_r_alt by lia. rewrite Hl, Nat.sub_diag.
  destruct (lookup_lt_is_Some_2 buf k Hk) as [b Hb].
  rewrite (drop_S buf b k Hb). simpl.
  unfold copied. fold src. replace (S k - 1)%nat with k by lia.
  replace (S k - length (take k src))%nat with ((k - length src) + 1)%nat
    by (rewrite length_take; lia).
  rewrite replicate_add. simpl. by rewrite <- !app_assoc.
Qed.

Lemma run_copy_out_null {B} h x n (k : option (list ascii) → M B) :
  (copy_out x None n ≫= k) h = k None h.
Proof. done. Qed.

Lemma run_copy_out {B} h x s buf n (k : option (list ascii) → M B) :
  values h !! x = Some s →
  1 ≤ n ≤ Z.of_nat (length buf) → n < 2 ^ SIZE_WIDTH →
  (copy_out x (Some buf) n ≫= k) h
  = k (Some (copied s (Z.to_nat n) ++ drop (Z.to_nat n) buf)) h.
Proof.
  intros Hs Hn Hw. unfold copy_out.
  erewrite run_bind; [done|].
  rewrite (run_load_value _ _ s) by done.
  rewrite size_sub_1 by lia.
  unfold strncpy. rewrite bool_decide_eq_true_2 by lia. rewrite run_ret.
  unfold store_byte.
  rewrite bool_decide_eq_true_2.
  2:{ rewrite length_app, length_take, length_drop, length_app, length_replicate. lia. }
  rewrite run_ret. unfold mret, M_ret. do 2 f_equal.
  replace (Z.to_nat n) with (S (Z.to_nat (n - 1))) by lia.
  apply strncpy_store_copied. lia.
Qed.

(** With capacity 0 the length [bufsize - 1] wraps around to [SIZE_MAX]:
    the copy runs off every buffer that is shorter. *)
Lemma copy_out_zero {B} h x s buf (k : option (list ascii) → M B) :
  values h !! x = Some s →
  Z.of_nat (length buf) < 2 ^ SIZE_WIDTH - 1 →
  (copy_out x (Some buf) 0 ≫= k) h = Fault.
Proof.
  intros Hs Hl. unfold copy_out.
  unfold mbind at 1, M_bind at 1.
  rewrite (run_load_value _ _ s) by done.
  rewrite size_sub_0_1. unfold strncpy.
  by rewrite bool_decide_eq_false_2 by lia.
Qed.

Lemma q_remove_head_null h sp n : q_remove_head NULL sp n h = Ok (NULL, sp) h.
Proof. done. Qed.

Lemma q_remove_head_empty h head sp n :
  queue h head [] → q_remove_head head sp n h = Ok (NULL, sp) h.
Proof.
  intros Hq. unfold q_remove_head.
  rewrite bool_decide_eq_false_2 by (by eapply queue_head_not_null).
  by rewrite (run_list_empty _ _ []).
Qed.

Lemma q_remove_head_spec h head e es sp n :
  queue h head (e :: es) → copy_ok sp n →
  ∃ h', q_remove_head head sp n h = Ok (e.1, copied_into sp e.2 n) h' ∧
        queue h' head es ∧ relinked (head :: es.*1) h h'.
Proof.
  intros Hq Hsp. unfold q_remove_head.
  rewrite bool_decide_eq_false_2 by (by eapply queue_head_not_null).
  rewrite (run_list_empty _ _ (e :: es)) by done.
  rewrite bool_decide_eq_false_2 by done.
  rewrite (run_load_next _ _ _ _ (queue_next_head _ _ _ Hq)).
  rewrite fmap_cons. cbn [hd].
  destruct (queue_del h head [] e es Hq) as (h' & Hdel & Hq' & Hr').
  exists h'. split_and!; [|done..].
  destruct sp as [buf|]; simpl in Hsp.
  - rewrite (run_copy_out _ _ e.2) by (try apply (queue_value _ _ _ _ Hq); set_solver).
    erewrite run_bind; [|exact Hdel]. done.
  - rewrite run_copy_out_null. erewrite run_bind; [|exact Hdel]. done.
Qed.

Lemma q_remove_tail_null h sp n : q_remove_tail NULL sp n h = Ok (NULL, sp) h.
Proof. done. Qed.

Lemma q_remove_tail_empty h head sp n :
  queue h head [] → q_remove_tail head sp n h = Ok (NULL, sp) h.
Proof.
  intros Hq. unfold q_remove_tail.
  rewrite bool_decide_eq_false_2 by (by eapply queue_head_not_null).
  by rewrite (run_list_empty _ _ []).
Qed.

Lemma q_remove_tail_spec h head e es sp n :
  queue h head (es ++ [e]) → copy_ok sp n →
  ∃ h', q_remove_tail head sp n h = Ok (e.1, copied_into sp e.2 n) h' ∧
        queue h' head es ∧ relinked (head :: es.*1) h h'.
Proof.
  intros Hq Hsp. unfold q_remove_tail.
  rewrite bool_decide_eq_false_2 by (by eapply queue_head_not_null).
  rewrite (run_list_empty _ _ (es ++ [e])) by done.
  rewrite bool_decide_eq_false_2 by (by destruct es).
  rewrite (run_load_prev _ _ _ _ (queue_prev_head _ _ _ Hq)).
  rewrite fmap_app, reverse_app. cbn [fmap list_fmap reverse app hd].
  destruct (queue_del h head es e [] Hq) as (h' & Hdel & Hq' & Hr').
  rewrite app_nil_r in Hq', Hr'.
  exists h'. split_and!; [|done..].
  destruct sp as [buf|]; simpl in Hsp.
  - rewrite (run_copy_out _ _ e.2) by (try apply (queue_value _ _ _ _ Hq); set_solver).
    erewrite run_bind; [|exact Hdel]. done.
  - rewrite run_copy_out_null. erewrite run_bind; [|exact Hdel]. done.
Qed.

Lemma q_remove_head_zero h head e es buf :
  queue h head (e :: es) → Z.of_nat (length buf) < 2 ^ SIZE_WIDTH - 1 →
  q_remove_head head (Some buf) 0 h = Fault.
Proof.
  intros Hq Hl. unfold q_remove_head.
  rewrite bool_decide_eq_false_2 by (by eapply queue_head_not_null).
  rewrite (run_list_empty _ _ (e :: es)) by done.
  rewrite bool_decide_eq_false_2 by done.
  rewrite (run_load_next _ _ _ _ (queue_next_head _ _ _ Hq)).
  rewrite fmap_cons. cbn [hd].
  apply (copy_out_zero _ _ e.2); [|done]. apply (queue_value _ _ _ _ Hq). set_solver.
Qed.

Lemma q_remove_tail_zero h head e es buf :
  queue h head (es ++ [e]) → Z.of_nat (length buf) < 2 ^ SIZE_WIDTH - 1 →
  q_remove_tail head (Some buf) 0 h = Fault.
Proof.
  intros Hq Hl. unfold q_remove_tail.
  rewrite bool_decide_eq_false_2 by (by eapply queue_head_not_null).
  rewrite (run_list_empty _ _ (es ++ [e])) by done.
  rewrite bool_decide_eq_false_2 by (by destruct es).
  rewrite (run_load_prev _ _ _ _ (queue_prev_head _ _ _ Hq)).
  rewrite fmap_app, reverse_app. cbn [fmap list_fmap reverse app hd].
  apply (copy_out_zero _ _ e.2); [|done]. apply (queue_value _ _ _ _ Hq). set_solver.
Qed.
End Remove.

(** ** The sequence merge sort builds *)

Section MergeModel.
Implicit Types (x y : elem) (l : list elem) (s : string).

Lemma merge_nil_l l : merge [] l = l.
Proof. done. Qed.

Lemma merge_nil_r l : merge l [] = l.
Proof. by destruct l. Qed.

Lemma merge_cons x l1 y l2 :
  merge (x :: l1) (y :: l2)
  = if bool_decide (strcmp x.2 y.2 < 0) then x :: merge l1 (y :: l2)
    else y :: merge (x :: l1) l2.
Proof. done. Qed.

Lemma merge_perm l1 l2 : merge l1 l2 ≡ₚ l1 ++ l2.
Proof.
  revert l2. induction l1 as [|x l1 IH1]; intros l2; [done|].
  induction l2 as [|y l2 IH2]; [by rewrite merge_nil_r, app_nil_r|].
  rewrite merge_cons. case_bool_decide.
  - by rewrite IH1.
  - rewrite IH2. by rewrite Permutation_middle.
Qed.

Lemma merge_head l1 l2 z :
  head (merge l1 l2) = Some z → head l1 = Some z ∨ head l2 = Some z.
Proof.
  destruct l1 as [|x l1]; [by right|]. destruct l2 as [|y l2]; [by left|].
  rewrite merge_cons. case_bool_decide; simpl; auto.
Qed.

Lemma adj_cons_head {A} (R : A → A → Prop) a (l : list A) :
  adj R (a :: l) ↔ (∀ z, head l = Some z → R a z) ∧ adj R l.
Proof.
  destruct l as [|b l]; [rewrite adj_singleton; naive_solver|].
  rewrite adj_cons_cons. simpl. naive_solver.
Qed.

Lemma ascending_Forall x l :
  ascending (x :: l) → Forall (λ z, strcmp x.2 z.2 ≤ 0) l.
Proof.
  unfold ascending. revert x. induction l as [|y l IH]; intros x; [done|].
  rewrite adj_cons_cons. intros [Hxy Hl]. constructor; [done|].
  eapply Forall_impl; [by apply IH|]. simpl. intros z Hz.
  by apply (strcmp_le_trans _ y.2).
Qed.

Lemma merge_ascending l1 l2 :
  ascending l1 → ascending l2 → ascending (merge l1 l2).
Proof.
  unfold ascending. revert l2. induction l1 as [|x l1 IH1]; intros l2; [done|].
  induction l2 as [|y l2 IH2]; intros H1 H2; [by rewrite merge_nil_r|].
  rewrite merge_cons. case_bool_decide as Hlt.
  - apply adj_cons_head. split; [|apply IH1; [by eapply adj_cons_inv|done]].
    intros z [Hz|Hz]%merge_head.
    + apply adj_cons_head in H1 as [H1 _]. by apply H1.
    + injection Hz as <-. lia.
  - apply adj_cons_head. split; [|apply IH2; [done|by eapply adj_cons_inv]].
    intros z [Hz|Hz]%merge_head.
    + injection Hz as <-. rewrite (strcmp_antisym x.2 y.2). lia.
    + apply adj_cons_head in H2 as [H2 _]. by apply H2.
Qed.

(** Elements with equal strings: those of the second operand come first. *)
Lemma filter_above s x y l :
  same_string s x → strcmp x.2 y.2 < 0 → ascending (y :: l) →
  filter (same_string s) (y :: l) = [].
Proof.
  intros Hx Hxy Hl. apply ascending_Forall in Hl.
  assert (Forall (λ z, strcmp y.2 z.2 ≤ 0) (y :: l)) as Hall.
  { constructor; [by rewrite strcmp_refl|done]. }
  clear Hl. induction Hall as [|z l' Hz _ IH]; [done|].
  rewrite filter_cons_False; [done|].
  unfold same_string in *. intros Hzs.
  assert (strcmp z.2 x.2 = 0) as Hzx.
  { apply (strcmp_eq_trans _ s); [done|by apply strcmp_eq_sym]. }
  assert (strcmp y.2 x.2 ≤ 0) as Hyx
    by (apply (strcmp_le_trans _ z.2); [done|lia]).
  rewrite (strcmp_antisym x.2 y.2) in Hyx. lia.
Qed.

Lemma merge_filter s l1 l2 :
  ascending l2 →
  filter (same_string s) (merge l1 l2)
  = filter (same_string s) l2 ++ filter (same_string s) l1.
Proof.
  revert l2. induction l1 as [|x l1 IH1]; intros l2; [by rewrite app_nil_r|].
  induction l2 as [|y l2 IH2]; intros H2; [by rewrite merge_nil_r|].
  rewrite merge_cons. case_bool_decide as Hlt.
  - rewrite !(filter_cons _ x), IH1 by done.
    destruct (decide (same_string s x)) as [Hx|Hx]; [|done].
    by rewrite (filter_above s x y l2).
  - rewrite !(filter_cons _ y), IH2 by (by eapply adj_cons_inv).
    by destruct (decide (same_string s y)).
Qed.

Lemma msort_aux_small n l : (length l ≤ 1)%nat → msort_aux n l = l.
Proof.
  destruct n; [done|]. destruct l as [|x [|y l]]; simpl; [done..|lia].
Qed.

Lemma msort_aux_split n l :
  (2 ≤ length l)%nat →
  msort_aux (S n) l
  = merge (msort_aux n (take (length l / 2) l))
          (msort_aux n (drop (length l / 2) l)).
Proof. destruct l as [|x [|y l]]; simpl; [lia..|done]. Qed.

Lemma half_bounds n : (2 ≤ n → 1 ≤ n / 2 ∧ n / 2 < n)%nat.
Proof.
  intros Hn. split; [|apply Nat.div_lt; lia].
  replace n with ((n - 2) + 1 * 2)%nat by lia. rewrite Nat.div_add by lia. lia.
Qed.

Lemma msort_aux_perm n l : msort_aux n l ≡ₚ l.
Proof.
  revert l. induction n as [|n IH]; intros l; [done|].
  destruct (decide (length l ≤ 1)%nat); [by rewrite msort_aux_small|].
  rewrite msort_aux_split by lia.
  by rewrite merge_perm, !IH, take_drop.
Qed.

Lemma msort_aux_ascending n l :
  (length l ≤ n)%nat → ascending (msort_aux n l).
Proof.
  revert l. induction n as [|n IH]; intros l Hl.
  { by destruct l; [|simpl in Hl; lia]. }
  destruct (decide (length l ≤ 1)%nat).
  { rewrite msort_aux_small by done. by destruct l as [|x [|y l]]; [..|simpl in *; lia]. }
  rewrite msort_aux_split by lia.
  pose proof (half_bounds (length l)).
  apply merge_ascending; apply IH; rewrite ?length_take, ?length_drop; lia.
Qed.

Lemma msort_aux_filter s n l :
  (length l ≤ n)%nat →
  filter (same_string s) (msort_aux n l) = reverse (filter (same_string s) l).
Proof.
  revert l. induction n as [|n IH]; intros l Hl.
  { by destruct l; [|simpl in Hl; lia]. }
  destruct (decide (length l ≤ 1)%nat).
  { rewrite msort_aux_small by done.
    destruct l as [|x [|y l]]; [done| |simpl in *; lia].
    rewrite filter_cons, filter_nil. by destruct (decide _). }
  rewrite msort_aux_split by lia.
  pose proof (half_bounds (length l)).
  rewrite merge_filter
    by (apply msort_aux_ascending; rewrite length_drop; lia).
  rewrite !IH by (rewrite ?length_take, ?length_drop; lia).
  by rewrite <- reverse_app, <- filter_app, take_drop.
Qed.

Lemma msort_perm l : msort l ≡ₚ l.
Proof. apply msort_aux_perm. Qed.

Lemma msort_ascending l : ascending (msort l).
Proof. by apply msort_aux_ascending. Qed.

Lemma msort_filter s l :
  filter (same_string s) (msort l) = reverse (filter (same_string s) l).
Proof. by apply msort_aux_filter. Qed.
End MergeModel.

(** ** mergeTwoLists *)

Section MergeLoop.
Implicit Types (h : heap) (l : list elem) (acc : list addr).

Lemma run_assoc {A B C} h (m : M A) (f : A → M B) (g : B → M C) :
  ((m ≫= f) ≫= g) h = (m ≫= λ a, f a ≫= g) h.
Proof. unfold mbind, M_bind. by destruct (m h). Qed.

(** Reading a null-terminated chain. *)
Lemma chain_next_hd f (a : addr) (l : list addr) z :
  chain f (a :: l ++ [z]) → f a = Some (hd z l).
Proof. destruct l; simpl; rewrite chain_cons_cons; tauto. Qed.

Lemma chain_tail f (a : addr) (l : list addr) : chain f (a :: l) → chain f l.
Proof. apply adj_cons_inv. Qed.

(** Appending a node to a chain by a store to its last node. *)
Lemma chain_link f f' (p : list addr) t c :
  NoDup (p ++ [t]) → chain f (p ++ [t]) →
  f' t = Some c → (∀ x, x ≠ t → f' x = f x) →
  chain f' (p ++ [t; c]).
Proof.
  intros Hnd Hc Ht Hf. apply chain_snoc. split; [|done].
  apply (chain_frame f); [|done].
  intros x Hx. apply Hf. intros ->.
  apply NoDup_app in Hnd as (_ & Hd & _). apply (Hd t Hx). left.
Qed.

Lemma split_loop_spec h : ∀ n (lf ls : list addr) fuel,
  (length lf ≤ n)%nat →
  chain (next_of h) (lf ++ [NULL]) → chain (next_of h) (ls ++ [NULL]) →
  NULL ∉ lf →
  (length lf ≤ length ls)%nat →
  (length lf < fuel)%nat →
  split_loop fuel (hd NULL lf) (hd NULL ls) h
  = Ok (hd NULL (drop (length lf / 2) ls)) h.
Proof.
  induction n as [|n IH]; intros lf ls fuel Hn Hf Hs Hnull Hlen Hfuel;
    (destruct fuel as [|fuel]; [lia|]).
  { by destruct lf; [|simpl in Hn; lia]. }
  destruct lf as [|a [|b lf]].
  - done.
  - cbn [hd split_loop]. rewrite bool_decide_eq_false_2 by set_solver.
    by rewrite (run_load_next _ _ NULL) by (by apply (chain_next_hd _ a [] NULL)).
  - cbn [hd split_loop].
    rewrite bool_decide_eq_false_2 by set_solver.
    assert (next_of h a = Some b) as Ha by (by apply (chain_next_hd _ a (b :: lf) NULL)).
    rewrite (run_load_next _ _ b) by done.
    rewrite bool_decide_eq_false_2 by set_solver.
    rewrite (run_load_next _ _ b) by done.
    apply chain_tail in Hf.
    rewrite (run_load_next _ _ _ _ (chain_next_hd _ b lf NULL Hf)).
    destruct ls as [|c ls]; [simpl in Hlen; lia|].
    rewrite (run_load_next _ _ _ _ (chain_next_hd _ c ls NULL Hs)).
    rewrite (IH lf ls).
    + cbn [length]. by rewrite half_SS.
    + simpl in Hn. lia.
    + by apply chain_tail in Hf.
    + by apply chain_tail in Hs.
    + set_solver.
    + simpl in Hlen. lia.
    + simpl in Hfuel. lia.
Qed.

Lemma fmap_hd_ne_null l :
  NULL ∉ l.*1 → l ≠ [] → hd NULL l.*1 ≠ NULL.
Proof. destruct l as [|x l]; [done|]. rewrite fmap_cons. simpl. set_solver. Qed.


(** [*ptr = *node; ptr = &( *ptr)->next;] appends the node [cur] to the
    result. *)
Lemma run_append_node {B} h acc head ptr cur
    (k : addr → addr → M B) :
  ptr_inv h acc head ptr → NoDup (acc ++ [cur]) → is_Some (links h !! cur) →
  ∃ h1 head',
    (pp_store ptr cur head ≫= λ hd', pp_load ptr hd' ≫= k hd') h
    = k head' cur h1 ∧
    ptr_inv h1 (acc ++ [cur]) head' (AddrOfNext cur) ∧
    relinked acc h h1 ∧
    (∀ x, prev_of h1 x = prev_of h x) ∧
    (∀ x, x ∉ acc → next_of h1 x = next_of h x).
Proof.
  intros Hptr Hnd Hcur. unfold ptr_inv in *.
  destruct (last acc) as [t|] eqn:Hlast.
  - destruct Hptr as (-> & -> & Hacc & Hta).
    apply last_Some in Hlast as [accp ->].
    exists (set_next t cur h), (hd NULL (accp ++ [t])). split_and!.
    + cbn [pp_store pp_load]. rewrite run_assoc, run_store_next, run_ret by done.
      by rewrite (run_load_next _ _ cur) by (by apply next_set_next_eq).
    + rewrite last_snoc. split_and!; [done| | |by apply alloc_set_next].
      * by destruct accp.
      * rewrite <- app_assoc. simpl.
        apply (chain_link (next_of h)); [by apply NoDup_app in Hnd as [? _]|done|..].
        -- by apply next_set_next_eq.
        -- intros. by apply next_set_next_ne.
    + apply relinked_set_next. set_solver.
    + intros. apply prev_set_next.
    + intros x Hx. apply next_set_next_ne. set_solver.
  - apply last_None in Hlast as ->. subst ptr.
    exists h, cur. split_and!; [done| |apply relinked_refl|done..].
    simpl. split_and!; done.
Qed.

(** [*ptr = l1 | l2;] links the remainder [rem] after the result. *)
Lemma run_append_rest h acc head ptr (rem : list addr) :
  ptr_inv h acc head ptr → NoDup (acc ++ rem) →
  chain (next_of h) (rem ++ [NULL]) →
  ∃ h', pp_store ptr (hd NULL rem) head h = Ok (hd NULL (acc ++ rem)) h' ∧
        chain (next_of h') (acc ++ rem ++ [NULL]) ∧
        relinked acc h h' ∧
        (∀ x, prev_of h' x = prev_of h x).
Proof.
  intros Hptr Hnd Hrem. unfold ptr_inv in *.
  destruct (last acc) as [t|] eqn:Hlast.
  - destruct Hptr as (-> & -> & Hacc & Hta).
    apply last_Some in Hlast as [accp ->].
    exists (set_next t (hd NULL rem) h). split_and!.
    + cbn [pp_store]. rewrite run_store_next by done.
      unfold mret, M_ret. f_equal. by destruct accp.
    + assert (NoDup (accp ++ [t])) as Hnd' by (by apply NoDup_app in Hnd as [? _]).
      assert (chain (next_of (set_next t (hd NULL rem) h)) (accp ++ [t; hd NULL rem]))
        as Hlink.
      { apply (chain_link (next_of h)); [done..| |].
        - by apply next_set_next_eq.
        - intros. by apply next_set_next_ne. }
      destruct rem as [|z rem']; simpl in *.
      { by rewrite <- app_assoc. }
      apply (chain_app_mid _ (accp ++ [t]) z (rem' ++ [NULL])).
      rewrite <- app_assoc. split; [done|].
      change (z :: rem' ++ [NULL]) with ((z :: rem') ++ [NULL]).
      apply (chain_frame (next_of h)); [|done].
      intros c Hc. apply next_set_next_ne. intros ->.
      apply NoDup_app in Hnd as (_ & Hd & _). apply (Hd t); set_solver.
    + apply relinked_set_next. set_solver.
    + intros. apply prev_set_next.
  - apply last_None in Hlast as ->. subst ptr.
    exists h. split_and!; [done|done|apply relinked_refl|done].
Qed.

Lemma merge_loop_rest l1 l2 acc h fuel head ptr :
  l1 = [] ∨ l2 = [] →
  NoDup (acc ++ l1.*1 ++ l2.*1) →
  chain (next_of h) (l1.*1 ++ [NULL]) →
  chain (next_of h) (l2.*1 ++ [NULL]) →
  ptr_inv h acc head ptr →
  ∃ h', merge_loop (S fuel) head ptr (hd NULL l1.*1) (hd NULL l2.*1) h
        = Ok (hd NULL (acc ++ (merge l1 l2).*1)) h' ∧
        chain (next_of h') (acc ++ (merge l1 l2).*1 ++ [NULL]) ∧
        relinked (acc ++ l1.*1 ++ l2.*1) h h' ∧
        (∀ x, prev_of h' x = prev_of h x).
Proof.
  intros Hemp Hnd Hc1 Hc2 Hptr.
  assert (bool_decide (hd NULL l1.*1 ≠ NULL) && bool_decide (hd NULL l2.*1 ≠ NULL)
          = false ∧
          Z.lor (hd NULL l1.*1) (hd NULL l2.*1) = hd NULL (merge l1 l2).*1 ∧
          chain (next_of h) ((merge l1 l2).*1 ++ [NULL]) ∧
          l1.*1 ++ l2.*1 = (merge l1 l2).*1) as (Hb & Hlor & Hcr & Heq).
  { destruct Hemp as [-> | ->].
    - rewrite merge_nil_l. simpl. rewrite Z.lor_0_l. done.
    - rewrite merge_nil_r, app_nil_r. simpl. rewrite Z.lor_0_r, andb_false_r. done. }
  cbn [merge_loop]. rewrite Hb, Hlor. rewrite Heq in *.
  destruct (run_append_rest h acc head ptr (merge l1 l2).*1)
    as (h' & Hrun & Hc' & Hr' & Hp'); [done..|].
  exists h'. split_and!; [done..| |done].
  eapply relinked_mono; [|done]. set_solver.
Qed.

Lemma merge_loop_spec : ∀ n l1 l2 acc h fuel head ptr,
  (length l1 + length l2 ≤ n)%nat →
  NoDup (acc ++ l1.*1 ++ l2.*1) →
  NULL ∉ l1.*1 ++ l2.*1 →
  chain (next_of h) (l1.*1 ++ [NULL]) →
  chain (next_of h) (l2.*1 ++ [NULL]) →
  has_values h l1 → has_values h l2 →
  ptr_inv h acc head ptr →
  (n < fuel)%nat →
  ∃ h', merge_loop fuel head ptr (hd NULL l1.*1) (hd NULL l2.*1) h
        = Ok (hd NULL (acc ++ (merge l1 l2).*1)) h' ∧
        chain (next_of h') (acc ++ (merge l1 l2).*1 ++ [NULL]) ∧
        relinked (acc ++ l1.*1 ++ l2.*1) h h' ∧
        (∀ x, prev_of h' x = prev_of h x).
Proof.
  induction n as [|n IH]; intros l1 l2 acc h fuel head ptr Hn Hnd Hnull
    Hc1 Hc2 Hv1 Hv2 Hptr Hfuel; (destruct fuel as [|fuel]; [lia|]).
  { apply merge_loop_rest; try done. destruct l1; [by left|simpl in Hn; lia]. }
  destruct l1 as [|x l1']; [apply merge_loop_rest; try done; by left|].
  destruct l2 as [|y l2']; [apply merge_loop_rest; try done; by right|].
  rewrite !fmap_cons in *. cbn [hd merge_loop].
  rewrite !bool_decide_eq_true_2 by set_solver. cbn [andb].
  unfold has_values in Hv1, Hv2.
  apply Forall_cons in Hv1 as [Hx Hv1]. apply Forall_cons in Hv2 as [Hy Hv2].
  rewrite (run_load_value _ _ x.2) by done.
  rewrite (run_load_value _ _ y.2) by done.
  cbv zeta. rewrite merge_cons.
  assert (is_Some (links h !! x.1)) as Hxa.
  { apply (next_alloc _ _ (hd NULL l1'.*1)). by apply chain_next_hd. }
  assert (is_Some (links h !! y.1)) as Hya.
  { apply (next_alloc _ _ (hd NULL l2'.*1)). by apply chain_next_hd. }
  destruct (bool_decide (strcmp x.2 y.2 < 0)) eqn:Hlt.
  - lazymatch goal with
    | |- ∃ _, (pp_store _ _ _ ≫= (λ hd', pp_load _ hd' ≫= @?k hd')) _ = _ ∧ _ =>
        destruct (run_append_node h acc head ptr x.1 k)
          as (h1 & head' & Hrun & Hptr1 & Hr1 & Hp1 & Hn1)
    end.
    { done. }
    { apply NoDup_app. apply NoDup_app in Hnd as (? & Hd & ?).
      split_and!; [done| |apply NoDup_singleton]. set_solver. }
    { done. }
    assert (∀ c, c ∈ x.1 :: l1'.*1 ++ y.1 :: l2'.*1 → next_of h1 c = next_of h c)
      as Hframe.
    { intros c Hc. apply Hn1. apply NoDup_app in Hnd as (_ & Hd & _).
      intros Hin. apply (Hd c Hin). set_solver. }
    destruct (IH l1' (y :: l2') (acc ++ [x.1]) h1 fuel head' (AddrOfNext x.1))
      as (h' & Hrun' & Hc' & Hr' & Hp').
    + simpl in *. lia.
    + rewrite <- app_assoc. done.
    + set_solver.
    + apply chain_tail in Hc1. apply (chain_frame (next_of h)); [|done].
      intros c Hc. apply Hframe. set_solver.
    + change (y.1 :: l2'.*1 ++ [NULL]) with ((y.1 :: l2'.*1) ++ [NULL]) in Hc2.
      rewrite fmap_cons.
      apply (chain_frame (next_of h)); [|done].
      intros c Hc. apply Hframe. set_solver.
    + eapply relinked_has_values; done.
    + eapply relinked_has_values; [done|]. by apply Forall_cons.
    + done.
    + lia.
    + exists h'. split_and!.
      * rewrite Hrun.
        rewrite (run_load_next _ _ (hd NULL l1'.*1)).
        2:{ rewrite Hframe by set_solver. by apply chain_next_hd. }
        change (hd NULL (y :: l2').*1) with y.1 in Hrun'.
        rewrite Hrun'. rewrite fmap_cons, <- app_assoc. done.
      * rewrite fmap_cons, <- app_assoc in *. done.
      * eapply relinked_trans; [eapply relinked_mono; [|exact Hr1]|].
        { set_solver. }
        eapply relinked_mono; [|exact Hr']. rewrite fmap_cons. set_solver.
      * intros c. by rewrite Hp', Hp1.
  - lazymatch goal with
    | |- ∃ _, (pp_store _ _ _ ≫= (λ hd', pp_load _ hd' ≫= @?k hd')) _ = _ ∧ _ =>
        destruct (run_append_node h acc head ptr y.1 k)
          as (h1 & head' & Hrun & Hptr1 & Hr1 & Hp1 & Hn1)
    end.
    { done. }
    { apply NoDup_app. apply NoDup_app in Hnd as (? & Hd & ?).
      split_and!; [done| |apply NoDup_singleton]. set_solver. }
    { done. }
    assert (∀ c, c ∈ x.1 :: l1'.*1 ++ y.1 :: l2'.*1 → next_of h1 c = next_of h c)
      as Hframe.
    { intros c Hc. apply Hn1. apply NoDup_app in Hnd as (_ & Hd & _).
      intros Hin. apply (Hd c Hin). set_solver. }
    destruct (IH (x :: l1') l2' (acc ++ [y.1]) h1 fuel head' (AddrOfNext y.1))
      as (h' & Hrun' & Hc' & Hr' & Hp').
    + simpl in *. lia.
    + rewrite <- app_assoc, fmap_cons. simpl.
      assert (acc ++ y.1 :: x.1 :: l1'.*1 ++ l2'.*1
              ≡ₚ acc ++ x.1 :: l1'.*1 ++ y.1 :: l2'.*1) as -> by solve_Permutation.
      done.
    + rewrite fmap_cons. set_solver.
    + change (x.1 :: l1'.*1 ++ [NULL]) with ((x.1 :: l1'.*1) ++ [NULL]) in Hc1.
      rewrite fmap_cons.
      apply (chain_frame (next_of h)); [|done].
      intros c Hc. apply Hframe. set_solver.
    + apply chain_tail in Hc2. apply (chain_frame (next_of h)); [|done].
      intros c Hc. apply Hframe. set_solver.
    + eapply relinked_has_values; [done|]. by apply Forall_cons.
    + eapply relinked_has_values; done.
    + done.
    + lia.
    + exists h'. split_and!.
      * rewrite Hrun.
        rewrite (run_load_next _ _ (hd NULL l2'.*1)).
        2:{ rewrite Hframe by set_solver. by apply chain_next_hd. }
        change (hd NULL (x :: l1').*1) with x.1 in Hrun'.
        rewrite Hrun'. rewrite fmap_cons, <- app_assoc. done.
      * rewrite fmap_cons, <- app_assoc in *. done.
      * eapply relinked_trans; [eapply relinked_mono; [|exact Hr1]|].
        { set_solver. }
        eapply relinked_mono; [|exact Hr']. rewrite !fmap_cons. set_solver.
      * intros c. by rewrite Hp', Hp1.
Qed.
End MergeLoop.

(** ** mergesort and q_sort *)

Section Mergesort.
Implicit Types (h : heap) (l : list elem).

Lemma chain_app_l f (l1 l2 : list addr) : chain f (l1 ++ l2) → chain f l1.
Proof. apply adj_app_l. Qed.

Lemma chain_app_r f (l1 l2 : list addr) : chain f (l1 ++ l2) → chain f l2.
Proof. apply adj_app_r. Qed.

Lemma mergesort_spec : ∀ n l h fuel,
  (length l ≤ n)%nat → l ≠ [] →
  NoDup l.*1 → NULL ∉ l.*1 →
  chain (next_of h) (l.*1 ++ [NULL]) →
  chain (prev_of h) (reverse l.*1) →
  has_values h l →
  (length l + 2 ≤ fuel)%nat →
  ∃ h', mergesort fuel (hd NULL l.*1) h = Ok (hd NULL (msort_aux n l).*1) h' ∧
        chain (next_of h') ((msort_aux n l).*1 ++ [NULL]) ∧
        relinked l.*1 h h' ∧
        (∀ x, prev_of h' x = prev_of h x).
Proof.
  induction n as [|n IH]; intros l h fuel Hn Hne Hnd Hnull Hc Hp Hv Hfuel.
  { destruct l; [done|simpl in Hn; lia]. }
  destruct fuel as [|fuel]; [lia|].
  destruct l as [|x l']; [done|].
  destruct l' as [|y l''].
  { (* a single node *)
    exists h. rewrite msort_aux_small by (simpl; lia).
    split_and!; [|done|apply relinked_refl|done].
    cbn [mergesort]. simpl in *.
    by rewrite (run_load_next _ _ NULL) by (by apply (chain_next_hd _ _ [] NULL)). }
  assert (hd NULL (x :: y :: l'').*1 = x.1) as Hhd by done.
  assert (next_of h x.1 = Some y.1) as Hxy.
  { by apply (chain_next_hd _ x.1 (y.1 :: l''.*1) NULL). }
  assert (y.1 ≠ NULL) as Hynull by (rewrite !fmap_cons in Hnull; set_solver).
  remember (x :: y :: l'') as l eqn:El.
  assert (2 ≤ length l)%nat as Hlen by (subst l; simpl; lia).
  pose proof (half_bounds (length l) Hlen) as [Hk1 Hk2].
  rewrite msort_aux_split by done.
  remember (length l / 2)%nat as k eqn:Ek.
  remember (take k l) as L eqn:EL. remember (drop k l) as R eqn:ER.
  assert (l = L ++ R) as Hl by (subst L R; by rewrite take_drop).
  assert (length L = k) as HLlen by (subst L; rewrite length_take; lia).
  assert (length R = (length l - k)%nat) as HRlen by (subst R; by rewrite length_drop).
  assert (L ≠ []) as HLne by (intros E; rewrite E in HLlen; simpl in HLlen; lia).
  assert (R ≠ []) as HRne by (intros E; rewrite E in HRlen; simpl in HRlen; lia).
  destruct (exists_last HLne) as (Lp & p & HL).
  assert (∃ m Rd, R = m :: Rd) as (m & Rd & HR) by (destruct R; [done|eauto]).
  assert (hd NULL L.*1 = x.1) as HhdL.
  { subst L l. destruct k; [lia|done]. }
  assert (hd NULL R.*1 = m.1) as HhdR by (by rewrite HR).
  assert (split_loop fuel x.1 x.1 h = Ok m.1 h) as Hsplit.
  { rewrite <- Hhd at 1 2.
    rewrite (split_loop_spec h (length l.*1) l.*1 l.*1); try done.
    - rewrite length_fmap, <- fmap_drop, <- Ek, <- ER. by rewrite HhdR.
    - rewrite length_fmap. lia. }
  clear EL ER.
  (* facts about the two halves *)
  rewrite Hl, fmap_app in Hnd, Hnull, Hc, Hp.
  rewrite reverse_app in Hp.
  apply NoDup_app in Hnd as (HndL & Hdisj & HndR).
  assert (chain (next_of h) (R.*1 ++ [NULL])) as HcR.
  { rewrite <- app_assoc in Hc. by apply chain_app_r in Hc. }
  assert (chain (next_of h) L.*1) as HcL.
  { rewrite <- app_assoc in Hc. by apply chain_app_l in Hc. }
  assert (chain (prev_of h) (reverse L.*1)) as HpL by (by apply chain_app_r in Hp).
  assert (chain (prev_of h) (reverse R.*1)) as HpR by (by apply chain_app_l in Hp).
  assert (prev_of h m.1 = Some p.1) as Hpm.
  { rewrite HR, HL, fmap_cons, fmap_app, reverse_cons, reverse_app in Hp.
    simpl in Hp. rewrite <- app_assoc in Hp. apply chain_app_r in Hp.
    simpl in Hp. rewrite chain_cons_cons in Hp. tauto. }
  assert (is_Some (links h !! p.1)) as Hpa.
  { apply alloc_next. apply (chain_defined _ (L.*1 ++ R.*1) NULL); [done|].
    rewrite HL, fmap_app. set_solver. }
  assert (has_values h L ∧ has_values h R) as [HvL HvR].
  { unfold has_values in *. rewrite Hl in Hv. by apply Forall_app in Hv. }
  (* running the split *)
  set (h1 := set_next p.1 NULL h).
  assert (∀ c, c ≠ p.1 → next_of h1 c = next_of h c) as Hf1
    by (intros; by apply next_set_next_ne).
  assert (∀ c, prev_of h1 c = prev_of h c) as Hp1
    by (intros; by apply prev_set_next).
  assert (relinked l.*1 h h1) as Hr1.
  { apply relinked_set_next. rewrite Hl, HL, !fmap_app. set_solver. }
  assert (chain (next_of h1) (L.*1 ++ [NULL])) as HcL1.
  { rewrite HL, fmap_app in *. simpl. rewrite <- app_assoc. simpl.
    apply (chain_link (next_of h)); [done..| |done].
    by apply next_set_next_eq. }
  assert (chain (next_of h1) (R.*1 ++ [NULL])) as HcR1.
  { apply (chain_frame (next_of h)); [|done]. intros c Hc'. apply Hf1.
    intros ->. apply (Hdisj p.1); [|done]. rewrite HL, fmap_app. set_solver. }
  destruct (IH L h1 fuel) as (h2 & Hrun2 & Hc2 & Hr2 & Hp2).
  { lia. } { done. }
  { done. } { set_solver. } { done. }
  { by apply (chain_frame_all (prev_of h)). }
  { by eapply relinked_has_values. } { lia. }
  assert (chain (next_of h2) (R.*1 ++ [NULL])) as HcR2.
  { apply (chain_frame (next_of h1)); [|done]. intros c Hc'.
    apply (relinked_next _ _ _ _ Hr2). intros Hin. by apply (Hdisj c). }
  destruct (IH R h2 fuel) as (h3 & Hrun3 & Hc3 & Hr3 & Hp3).
  { lia. } { done. }
  { done. } { set_solver. } { done. }
  { apply (chain_frame_all (prev_of h)); [|done]. intros. by rewrite Hp2, Hp1. }
  { eapply relinked_has_values; [done|]. by eapply relinked_has_values. } { lia. }
  pose proof (msort_aux_perm n L) as HPL.
  pose proof (msort_aux_perm n R) as HPR.
  assert (chain (next_of h3) ((msort_aux n L).*1 ++ [NULL])) as HcL3.
  { apply (chain_frame (next_of h2)); [|done]. intros c Hc'.
    apply (relinked_next _ _ _ _ Hr3). intros Hin. apply (Hdisj c); [|done].
    by rewrite HPL in Hc'. }
  destruct (merge_loop_spec (length l) (msort_aux n L) (msort_aux n R) [] h3
    fuel NULL AddrOfHead) as (h4 & Hrun4 & Hc4 & Hr4 & Hp4).
  { rewrite HPL, HPR. lia. }
  { simpl. rewrite HPL, HPR. by apply NoDup_app. }
  { rewrite HPL, HPR. done. }
  { done. } { done. }
  { unfold has_values. rewrite HPL. fold (has_values h3 L).
    do 2 (eapply relinked_has_values; [done|]). by eapply relinked_has_values. }
  { unfold has_values. rewrite HPR. fold (has_values h3 R).
    do 2 (eapply relinked_has_values; [done|]). by eapply relinked_has_values. }
  { done. } { lia. }
  exists h4. split_and!.
  - cbn [mergesort]. rewrite Hhd.
    rewrite (run_load_next _ _ y.1) by done.
    rewrite bool_decide_eq_false_2 by done.
    erewrite run_bind; [|exact Hsplit]. cbv zeta.
    rewrite (run_load_prev _ _ p.1) by done.
    rewrite run_store_next by done. fold h1.
    rewrite <- HhdL. erewrite run_bind; [|exact Hrun2].
    rewrite <- HhdR. erewrite run_bind; [|exact Hrun3].
    exact Hrun4.
  - done.
  - eapply relinked_trans; [exact Hr1|].
    eapply relinked_trans; [eapply relinked_mono; [|exact Hr2]|].
    { rewrite Hl, fmap_app. set_solver. }
    eapply relinked_trans; [eapply relinked_mono; [|exact Hr3]|].
    { rewrite Hl, fmap_app. set_solver. }
    eapply relinked_mono; [|exact Hr4].
    simpl. rewrite HPL, HPR, Hl, fmap_app. done.
  - intros c. by rewrite Hp4, Hp3, Hp2, Hp1.
Qed.

Lemma ring_intro f (head : addr) (P : list addr) :
  chain f ((head :: P) ++ [head]) → ring f (head :: P).
Proof. done. Qed.

(** The last loop of [q_sort] rebuilds [prev] along the sorted chain and
    closes the ring. *)
Lemma relink_loop_spec head : ∀ rest d t h fuel,
  NoDup (d ++ [t] ++ rest) → NULL ∉ rest →
  (∃ P, d ++ [t] = head :: P) →
  chain (next_of h) (d ++ [t] ++ rest ++ [NULL]) →
  chain (prev_of h) (reverse (d ++ [t])) →
  (length rest < fuel)%nat →
  ∃ h', relink_loop fuel head t h = Ok tt h' ∧
        cyc h' (d ++ [t] ++ rest) ∧
        relinked (d ++ [t] ++ rest) h h'.
Proof.
  induction rest as [|y rest IH]; intros d t h fuel Hnd Hnull [P HP] Hn Hp Hfuel;
    (destruct fuel as [|fuel]; [simpl in Hfuel; lia|]).
  - simpl in *. rewrite ?app_nil_r in *.
    assert (is_Some (links h !! head)) as Hha.
    { apply alloc_next.
      apply (chain_defined _ (d ++ [t]) NULL).
      - by rewrite <- app_assoc.
      - rewrite HP. left. }
    apply chain_snoc in Hn as [Hn Ht].
    assert (is_Some (links h !! t)) as Hta by (by eapply next_alloc).
    rewrite (run_load_next _ _ NULL) by done.
    rewrite bool_decide_eq_false_2 by (by intros []).
    rewrite run_store_next by done.
    rewrite store_prev_ok by (by apply alloc_set_next).
    eexists. split_and!; [done| |].
    + split_and!; [done|..].
      * rewrite HP. apply ring_intro. rewrite <- HP. rewrite <- app_assoc. simpl.
        apply (chain_link (next_of h)); [done|done|..].
        -- by rewrite next_set_prev, next_set_next_eq.
        -- intros x Hx. by rewrite next_set_prev, next_set_next_ne.
      * rewrite reverse_snoc. apply ring_intro.
        rewrite <- (reverse_snoc d t), HP, reverse_cons, <- app_assoc. simpl.
        apply (chain_link (prev_of h)).
        -- rewrite <- reverse_cons, <- HP. by rewrite reverse_Permutation.
        -- by rewrite <- reverse_cons, <- HP.
        -- by rewrite prev_set_prev_eq by (by apply alloc_set_next).
        -- intros x Hx. by rewrite prev_set_prev_ne, prev_set_next.
    + eapply relinked_trans.
      * apply (relinked_set_next _ _ t). set_solver.
      * apply relinked_set_prev. rewrite HP. set_solver.
  - cbn [relink_loop].
    assert (next_of h t = Some y) as Ht.
    { apply chain_app_r in Hn. simpl in Hn. rewrite chain_cons_cons in Hn. tauto. }
    assert (is_Some (links h !! y)) as Hya.
    { apply alloc_next.
      apply (chain_defined _ (d ++ [t] ++ y :: rest) NULL).
      - by rewrite <- !app_assoc.
      - set_solver. }
    rewrite (run_load_next _ _ y) by done.
    rewrite bool_decide_eq_true_2 by set_solver.
    rewrite (run_load_next _ _ y) by done.
    rewrite run_store_prev by done.
    rewrite (run_load_next _ _ y) by (by rewrite next_set_prev).
    destruct (IH (d ++ [t]) y (set_prev y t h) fuel) as (h' & Hrun & Hc' & Hr').
    + by rewrite <- app_assoc.
    + set_solver.
    + exists (P ++ [y]). by rewrite HP.
    + rewrite <- app_assoc. simpl.
      apply (chain_frame_all (next_of h)); [|done].
      intros. apply next_set_prev.
    + rewrite !reverse_snoc. rewrite reverse_snoc in Hp.
      rewrite chain_cons_cons. split; [by apply prev_set_prev_eq|].
      apply (chain_frame_all (prev_of h)); [|done].
      intros c Hc. apply prev_set_prev_ne. intros ->.
      apply NoDup_app in Hnd as (_ & Hd & Hd3).
      rewrite elem_of_cons, elem_of_reverse in Hc.
      destruct Hc as [Hc|Hc].
      * subst. simpl in Hd3. apply NoDup_cons in Hd3 as [Hd3 _]. set_solver.
      * apply (Hd _ Hc). set_solver.
    + simpl in Hfuel. lia.
    + exists h'. rewrite <- !app_assoc in *. simpl in *. split_and!; [done..|].
      eapply relinked_trans; [|done].
      apply relinked_set_prev. set_solver.
Qed.

Lemma msort_small l : (length l ≤ 1)%nat → msort l = l.
Proof. apply msort_aux_small. Qed.

Lemma q_sort_null fuel h : q_sort fuel NULL h = Ok tt h.
Proof. done. Qed.

Lemma q_sort_spec fuel h head es :
  queue h head es → (length es + 2 ≤ fuel)%nat →
  ∃ h', q_sort fuel head h = Ok tt h' ∧ queue h' head (msort es) ∧
        relinked (head :: es.*1) h h'.
Proof.
  intros Hq Hfuel. unfold q_sort.
  rewrite bool_decide_eq_false_2 by (by eapply queue_head_not_null).
  rewrite (run_list_empty _ _ es) by done.
  destruct es as [|e0 es0].
  { exists h. split_and!; [done..|apply relinked_refl]. }
  rewrite bool_decide_eq_false_2 by done.
  rewrite (run_list_is_singular _ _ (e0 :: es0)) by done.
  destruct es0 as [|e1 es1].
  { exists h. split_and!; [done..|apply relinked_refl]. }
  rewrite bool_decide_eq_false_2 by done.
  remember (e0 :: e1 :: es1) as es eqn:Ees.
  assert (hd head es.*1 = e0.1) as Hhd by (by subst es).
  assert (hd NULL es.*1 = e0.1) as Hhd0 by (by subst es).
  assert (es ≠ []) as Hne by (by subst es).
  destruct (exists_last Hne) as (E & z & HE).
  clear Ees.
  pose proof (queue_NoDup _ _ _ Hq) as Hnd.
  apply NoDup_cons in Hnd as [Hhead Hnd].
  assert (NULL ∉ es.*1) as Hnull.
  { intros Hin. apply (queue_not_null _ _ _ NULL Hq); [by right|done]. }
  pose proof (queue_next_head _ _ _ Hq) as Hnh. rewrite Hhd in Hnh.
  pose proof (queue_prev_head _ _ _ Hq) as Hph.
  rewrite HE, fmap_app, reverse_app in Hph. simpl in Hph.
  assert (is_Some (links h !! z.1)) as Hza.
  { apply (queue_alloc _ _ _ _ Hq). rewrite HE, fmap_app. set_solver. }
  assert (is_Some (links h !! head)) as Hha.
  { apply (queue_alloc _ _ _ _ Hq). left. }
  destruct Hq as (H0 & (_ & Hrn & Hrp) & Hv).
  rewrite (run_load_next _ _ _ _ Hnh), (run_load_prev _ _ _ _ Hph).
  rewrite run_store_next by done.
  rewrite run_store_next by (by apply alloc_set_next).
  set (h2 := set_next head NULL (set_next z.1 NULL h)).
  assert (relinked (head :: es.*1) h h2) as Hr2.
  { eapply relinked_trans.
    - apply (relinked_set_next _ _ z.1). rewrite HE, fmap_app. set_solver.
    - apply relinked_set_next. set_solver. }
  assert (∀ c, prev_of h2 c = prev_of h c) as Hp2.
  { intros c. unfold h2. by rewrite !prev_set_next. }
  (* the broken chain *)
  assert (chain (next_of h2) (es.*1 ++ [NULL])) as Hc2.
  { unfold ring in Hrn. apply chain_tail in Hrn.
    apply chain_app_l in Hrn.
    apply (chain_frame (next_of (set_next z.1 NULL h))).
    { intros c Hc. unfold h2. apply next_set_next_ne. set_solver. }
    rewrite HE, fmap_app in *. simpl. rewrite <- app_assoc. simpl.
    apply (chain_link (next_of h)); [done..| |].
    - by apply next_set_next_eq.
    - intros. by apply next_set_next_ne. }
  assert (chain (prev_of h2) (reverse es.*1)) as Hcp2.
  { apply (chain_frame_all (prev_of h)); [done|].
    rewrite reverse_cons in Hrp. unfold ring in Hrp.
    destruct (reverse es.*1 ++ [head]) as [|a m] eqn:Erev.
    { by destruct (reverse es.*1). }
    rewrite <- Erev in Hrp. by do 2 apply chain_app_l in Hrp. }
  destruct (mergesort_spec (length es) es h2 fuel)
    as (h3 & Hrun3 & Hc3 & Hr3 & Hp3); try done.
  fold (msort es) in Hrun3, Hc3.
  pose proof (msort_perm es) as HP.
  remember (msort es) as s eqn:Es0. clear Es0.
  assert (is_Some (links h3 !! head)) as Hha3.
  { rewrite (relinked_alloc _ _ _ _ Hr3). by rewrite (relinked_alloc _ _ _ _ Hr2). }
  set (h4 := set_next head (hd NULL s.*1) h3).
  destruct (relink_loop_spec head s.*1 [] head h4 fuel)
    as (h' & Hrun' & Hc' & Hr').
  { simpl. apply NoDup_cons. rewrite HP. done. }
  { by rewrite HP. }
  { by exists []. }
  { simpl.
    assert (s ≠ []) as Hsne.
    { intros E0. rewrite E0 in HP. by apply Permutation_nil_l in HP. }
    destruct s as [|a s'] eqn:Es; [done|]. rewrite fmap_cons in *. simpl.
    rewrite chain_cons_cons. split.
    - unfold h4. by apply next_set_next_eq.
    - change (a.1 :: s'.*1 ++ [NULL]) with ((a.1 :: s'.*1) ++ [NULL]).
      apply (chain_frame (next_of h3)); [|done].
      intros c Hc. unfold h4. apply next_set_next_ne. intros ->.
      apply Hhead. rewrite <- HP, fmap_cons. done. }
  { done. }
  { rewrite length_fmap, HP. lia. }
  assert (relinked (head :: es.*1) h h') as Hrel.
  { eapply relinked_trans; [exact Hr2|].
    eapply relinked_trans; [eapply relinked_mono; [|exact Hr3]; set_solver|].
    eapply relinked_trans; [apply (relinked_set_next _ _ head); set_solver|].
    eapply relinked_mono; [|exact Hr']. simpl. rewrite HP. done. }
  exists h'. split_and!; [|split_and!|done].
  - rewrite <- Hhd0. erewrite run_bind; [|exact Hrun3]. cbv zeta.
    rewrite run_store_next by done. exact Hrun'.
  - by apply (relinked_null _ _ _ Hrel).
  - done.
  - apply (relinked_has_values _ _ _ _ Hrel).
    unfold has_values. by rewrite HP.
Qed.
End Mergesort.

(** ** The invariant in terms of pointers; the sequence q_delete_dup leaves *)

Section Invariant.
Implicit Types (h : heap) (head : addr) (es : list elem).

Lemma walk_chain f : ∀ k (a : addr) (l : list addr) b,
  chain f (a :: l) → (a :: l) !! k = Some b → walk f k a = Some b.
Proof.
  induction k as [|k IH]; intros a l b Hc Hk; simpl in *; [done|].
  destruct l as [|c l]; [done|].
  rewrite chain_cons_cons in Hc. destruct Hc as [-> Hc]. by apply (IH c l).
Qed.

(** Every node of a circular doubly-linked list is the [prev] of its
    [next] and the [next] of its [prev]. *)
Lemma cyc_local h (l : list addr) x :
  cyc h l → x ∈ l →
  ∃ nx pv, next_of h x = Some nx ∧ prev_of h x = Some pv ∧
           prev_of h nx = Some x ∧ next_of h pv = Some x.
Proof.
  intros Hc Hx. apply list_elem_of_split in Hx as (l1 & l2 & ->).
  apply (cyc_rotate h l1 (x :: l2)) in Hc. simpl in Hc.
  remember (l2 ++ l1) as r eqn:Er. clear Er l1 l2.
  pose proof (cyc_next_first _ _ _ Hc) as Hn.
  pose proof (cyc_prev_first _ _ _ Hc) as Hp.
  exists (hd x r), (hd x (reverse r)). split_and!; [done..| |].
  - destruct r as [|nx r']; [done|]. simpl.
    apply (cyc_rotate h [x] (nx :: r')) in Hc. simpl in Hc.
    apply cyc_prev_first in Hc. by rewrite reverse_snoc in Hc.
  - destruct (decide (r = [])) as [->|Hne]; [done|].
    destruct (exists_last Hne) as (r' & pv & ->).
    rewrite reverse_snoc. simpl.
    apply (cyc_rotate h (x :: r') [pv]) in Hc. simpl in Hc.
    by apply cyc_next_first in Hc.
Qed.

Lemma ring_walk f head (ps : list addr) k x :
  ring f (head :: ps) → (head :: ps ++ [head]) !! k = Some x →
  walk f k head = Some x.
Proof. intros Hr Hk. by apply (walk_chain f k head (ps ++ [head])). Qed.

Lemma ring_walk_back f head (ps : list addr) :
  NoDup (head :: ps) → ring f (head :: ps) →
  (∀ k x, (k ≤ length ps)%nat → walk f k head = Some x → x ∈ head :: ps) ∧
  (∀ k, (1 ≤ k ≤ length ps)%nat → walk f k head ≠ Some head) ∧
  walk f (S (length ps)) head = Some head.
Proof.
  intros Hnd Hr. split_and!.
  - intros k x Hk Hw.
    destruct (lookup_lt_is_Some_2 (head :: ps) k) as [y Hy]; [simpl; lia|].
    rewrite (ring_walk f head ps k y) in Hw; [|done|].
    + injection Hw as <-. by eapply list_elem_of_lookup_2.
    + change (head :: ps ++ [head]) with ((head :: ps) ++ [head]).
      by apply lookup_app_l_Some.
  - intros k Hk.
    destruct k as [|k]; [lia|].
    destruct (lookup_lt_is_Some_2 ps k) as [y Hy]; [lia|].
    rewrite (ring_walk f head ps (S k) y); [|done|].
    + intros [= ->]. apply NoDup_cons in Hnd as [Hn _]. apply Hn.
      by eapply list_elem_of_lookup_2.
    + simpl. by apply lookup_app_l_Some.
  - apply (ring_walk f head ps); [done|]. simpl.
    rewrite lookup_app_r by lia. by rewrite Nat.sub_diag.
Qed.

Lemma queue_dll_invariant h head es :
  queue h head es → dll_invariant h head (length es).
Proof.
  intros (H0 & Hc & Hv). pose proof Hc as (Hnd & Hrn & Hrp).
  rewrite reverse_cons, <- ring_cons_snoc in Hrp.
  destruct (ring_walk_back (next_of h) head es.*1 Hnd Hrn) as (A1 & A2 & A3).
  destruct (ring_walk_back (prev_of h) head (reverse es.*1)) as (B1 & B2 & B3);
    [|done|].
  { apply NoDup_cons in Hnd as [? ?]. apply NoDup_cons.
    rewrite elem_of_reverse. by rewrite reverse_Permutation. }
  rewrite length_reverse in *. rewrite length_fmap in *.
  split_and!; [|by split; [apply A2|apply B2]|done..].
  intros k n Hk Hw. apply (cyc_local h (head :: es.*1)); [done|].
  by apply (A1 k).
Qed.
End Invariant.

Section DedupModel.
Implicit Types (x y : elem) (l pre : list elem).

Lemma dedup_cons dup x t :
  dedup dup (x :: t)
  = if eq_next x t then dedup true t
    else if dup then dedup false t else x :: dedup false t.
Proof. done. Qed.

Lemma dedup_removed_cons dup x t :
  dedup_removed dup (x :: t)
  = if eq_next x t then x :: dedup_removed true t
    else if dup then x :: dedup_removed false t else dedup_removed false t.
Proof. done. Qed.

Lemma dedup_sublist dup l : sublist (dedup dup l) l.
Proof.
  revert dup. induction l as [|x t IH]; intros dup; [done|].
  rewrite dedup_cons. destruct (eq_next x t); [|destruct dup].
  - by apply sublist_cons.
  - by apply sublist_cons.
  - by apply sublist_skip.
Qed.

Lemma dedup_removed_sublist dup l : sublist (dedup_removed dup l) l.
Proof.
  revert dup. induction l as [|x t IH]; intros dup; [done|].
  rewrite dedup_removed_cons. destruct (eq_next x t); [|destruct dup].
  - by apply sublist_skip.
  - by apply sublist_skip.
  - by apply sublist_cons.
Qed.

Lemma dedup_partition dup l : dedup dup l ++ dedup_removed dup l ≡ₚ l.
Proof.
  revert dup. induction l as [|x t IH]; intros dup; [done|].
  rewrite dedup_cons, dedup_removed_cons.
  destruct (eq_next x t); [|destruct dup].
  - by rewrite <- Permutation_middle, IH.
  - by rewrite <- Permutation_middle, IH.
  - simpl. by rewrite IH.
Qed.

Lemma equal_neighbour_first pre x t dup :
  dup_flag pre (x :: t) dup →
  equal_neighbour (pre ++ x :: t) (length pre)
  ↔ eq_next x t = true ∨ dup = true.
Proof.
  intros Hdup. unfold equal_neighbour.
  assert ((pre ++ x :: t) !! length pre = Some x) as Hmid
    by (by apply list_lookup_middle).
  split.
  - intros (x' & Hx' & Hcases). rewrite Hmid in Hx'. injection Hx' as <-.
    destruct Hcases as [(j & p & Hj & Hp & He) | (y & Hy & He)].
    + right. apply Hdup. exists p, x. split_and!; [|done..].
      rewrite last_lookup. rewrite Hj. simpl.
      rewrite lookup_app_l in Hp by lia. done.
    + left. rewrite (lookup_app_r pre) in Hy by lia.
      replace (S (length pre) - length pre)%nat with 1%nat in Hy by lia.
      destruct t as [|y' t]; [done|]. simpl in *. injection Hy as ->.
      by apply bool_decide_eq_true_2.
  - intros [He | Hd]; exists x; (split; [done|]).
    + right. destruct t as [|y t]; [done|]. exists y. split.
      * rewrite lookup_app_r by lia.
        by replace (S (length pre) - length pre)%nat with 1%nat by lia.
      * simpl in He. by apply bool_decide_eq_true in He.
    + left. apply Hdup in Hd as (p & x' & Hl & [= <-] & He).
      rewrite last_lookup in Hl.
      destruct (length pre) as [|j] eqn:Elen; [by destruct pre|].
      exists j, p. split_and!; [done| |done].
      simpl in Hl. rewrite lookup_app_l by lia. done.
Qed.

Lemma dup_flag_next pre x t : dup_flag (pre ++ [x]) t (eq_next x t).
Proof.
  unfold dup_flag. rewrite last_snoc. destruct t as [|y t]; simpl.
  - split; [done|]. by intros (? & ? & _ & ? & _).
  - rewrite bool_decide_eq_true. split.
    + intros He. by exists x, y.
    + by intros (? & ? & [= <-] & [= <-] & ?).
Qed.

Lemma dedup_spec l : ∀ pre dup,
  NoDup (pre ++ l).*1 → dup_flag pre l dup →
  ∀ i x, l !! i = Some x →
    (x ∈ dedup dup l ↔ ¬ equal_neighbour (pre ++ l) (length pre + i)) ∧
    (x ∈ dedup_removed dup l ↔ equal_neighbour (pre ++ l) (length pre + i)).
Proof.
  induction l as [|a t IH]; intros pre dup Hnd Hdup i x Hi; [done|].
  assert (∀ d z, z ∈ dedup d t → z.1 ≠ a.1) as Hfresh1.
  { intros d z Hz Heq. rewrite fmap_app, fmap_cons in Hnd.
    apply NoDup_app in Hnd as (_ & _ & Hnd). apply NoDup_cons in Hnd as [Hn _].
    apply Hn. rewrite <- Heq. apply list_elem_of_fmap. exists z. split; [done|].
    eapply elem_of_sublist; [done|apply dedup_sublist]. }
  assert (∀ d z, z ∈ dedup_removed d t → z.1 ≠ a.1) as Hfresh2.
  { intros d z Hz Heq. rewrite fmap_app, fmap_cons in Hnd.
    apply NoDup_app in Hnd as (_ & _ & Hnd). apply NoDup_cons in Hnd as [Hn _].
    apply Hn. rewrite <- Heq. apply list_elem_of_fmap. exists z. split; [done|].
    eapply elem_of_sublist; [done|apply dedup_removed_sublist]. }
  rewrite dedup_cons, dedup_removed_cons.
  destruct i as [|j].
  - injection Hi as ->. rewrite Nat.add_0_r.
    rewrite (equal_neighbour_first pre x t dup) by done.
    destruct (eq_next x t); [|destruct dup]; rewrite ?elem_of_cons.
    + split; [|naive_solver]. split; [|naive_solver].
      intros Hx. by destruct (Hfresh1 _ _ Hx).
    + split; [|naive_solver]. split; [|naive_solver].
      intros Hx. by destruct (Hfresh1 _ _ Hx).
    + split; [naive_solver|]. split; [|naive_solver].
      intros Hx. by destruct (Hfresh2 _ _ Hx).
  - simpl in Hi.
    assert (x.1 ≠ a.1) as Hxa.
    { intros Heq. rewrite fmap_app, fmap_cons in Hnd.
      apply NoDup_app in Hnd as (_ & _ & Hnd). apply NoDup_cons in Hnd as [Hn _].
      apply Hn. rewrite <- Heq. apply list_elem_of_fmap. exists x. split; [done|].
      by eapply list_elem_of_lookup_2. }
    assert (x ≠ a) as Hxa' by (by intros ->).
    destruct (IH (pre ++ [a]) (eq_next a t)) with (i := j) (x := x)
      as [IH1 IH2]; [by rewrite <- app_assoc|apply dup_flag_next|done|].
    rewrite <- app_assoc, length_app in IH1, IH2. simpl in IH1, IH2.
    replace (length pre + 1 + j)%nat with (length pre + S j)%nat in IH1, IH2 by lia.
    rewrite <- IH1, <- IH2.
    destruct (eq_next a t); [|destruct dup]; rewrite ?elem_of_cons; naive_solver.
Qed.

Lemma dedup_head dup l z : head (dedup dup l) = Some z → z ∈ l.
Proof.
  intros Hz. eapply elem_of_sublist; [|apply (dedup_sublist dup)].
  destruct (dedup dup l); [done|]. injection Hz as ->. left.
Qed.

(** On ascending input what remains is strictly ascending. *)
Lemma dedup_strictly_ascending dup l :
  ascending l → strictly_ascending (dedup dup l).
Proof.
  unfold strictly_ascending. revert dup.
  induction l as [|x t IH]; intros dup Hl; [done|].
  assert (ascending t) as Ht by (by eapply adj_cons_inv).
  rewrite dedup_cons. destruct (eq_next x t) eqn:He; [by apply IH|].
  destruct dup; [by apply IH|].
  apply adj_cons_head. split; [|by apply IH].
  intros z Hz%dedup_head.
  destruct t as [|y t']; [by apply elem_of_nil in Hz|].
  simpl in He. apply bool_decide_eq_false in He.
  pose proof Hl as Hxy. unfold ascending in Hxy.
  rewrite adj_cons_cons in Hxy. destruct Hxy as [Hxy _].
  assert (strcmp y.2 z.2 ≤ 0) as Hyz.
  { apply elem_of_cons in Hz as [->|Hz]; [by rewrite strcmp_refl|].
    apply ascending_Forall in Ht. rewrite Forall_forall in Ht. by apply Ht. }
  destruct (decide (strcmp x.2 z.2 < 0)) as [|Hge]; [done|].
  assert (strcmp y.2 x.2 ≤ 0) as Hyx.
  { apply (strcmp_le_trans _ z.2); [done|].
    rewrite (strcmp_antisym x.2 z.2). lia. }
  rewrite (strcmp_antisym x.2 y.2) in Hyx. lia.
Qed.
End DedupModel.

(** ** The claims of the specification *)

Section Concrete.
(** Concrete queues for the instances below. *)
Lemma concrete_queue head (es : list elem) :
  bool_decide (NoDup (head :: es.*1)) = true →
  bool_decide (NULL ∉ head :: es.*1) = true →
  queue (mkq head es) head es.
Proof.
  intros H1%bool_decide_eq_true H2%bool_decide_eq_true. by apply mkq_queue.
Qed.
End Concrete.

(** C1: for every ready queue and enough fuel for its loops, [q_sort] returns
    and leaves a queue whose elements are ascending by [strcmp] and are a
    permutation of the elements it was given; nothing is allocated or released
    and no string changes: only link fields of the nodes of the queue are
    rewritten. *)
Theorem q_sort_sorted_permutation fuel h head es :
  queue h head es → (length es + 2 ≤ fuel)%nat →
  ∃ h' es', q_sort fuel head h = Ok tt h' ∧ queue h' head es' ∧
            ascending es' ∧ es' ≡ₚ es ∧
            relinked (head :: es.*1) h h'.
Proof.
  intros Hq Hfuel.
  destruct (q_sort_spec fuel h head es Hq Hfuel) as (h' & Hrun & Hq' & Hr).
  exists h', (msort es). split_and!; [done..|apply msort_ascending|apply msort_perm|done].
Qed.

Lemma q_sort_sorted_permutation_witness :
  queue (mkq 100 [(1, "b"); (2, "a"); (3, "b"); (4, "a")]) 100
    [(1, "b"); (2, "a"); (3, "b"); (4, "a")] ∧
  ∃ h' es', q_sort 6 100 (mkq 100 [(1, "b"); (2, "a"); (3, "b"); (4, "a")])
            = Ok tt h' ∧ queue h' 100 es' ∧ ascending es' ∧
            es' ≡ₚ [(1, "b"); (2, "a"); (3, "b"); (4, "a")] ∧
            relinked [100; 1; 2; 3; 4]
              (mkq 100 [(1, "b"); (2, "a"); (3, "b"); (4, "a")]) h'.
Proof.
  split; [by apply concrete_queue|].
  apply (q_sort_sorted_permutation 6 _ 100 [(1, "b"); (2, "a"); (3, "b"); (4, "a")]).
  - by apply concrete_queue.
  - simpl. lia.
Defined.

Section Operations.
Implicit Types (h : heap) (head : addr) (es : list elem).

Lemma swap_pairs_perm : ∀ n (l : list elem),
  (length l ≤ n)%nat → swap_pairs l ≡ₚ l.
Proof.
  induction n as [|n IH]; intros l Hl.
  { by destruct l; [|simpl in Hl; lia]. }
  destruct l as [|a [|b l]]; [done..|]. simpl.
  rewrite IH by (simpl in Hl; lia). apply perm_swap.
Qed.

Lemma run_op_wrap {A} h h' (m : M A) (a : A) :
  m h = Ok a h' → (m ;; mret tt) h = Ok tt h'.
Proof. intros Hm. by erewrite run_bind. Qed.

(** Every operation returns and leaves a queue. *)
Lemma run_op_queue o fuel h head es :
  queue h head es → op_pre h es o → (length es + 2 ≤ fuel)%nat →
  ∃ h' es', run_op fuel o head h = Ok tt h' ∧ queue h' head es' ∧
            (length es' ≤ S (length es))%nat.
Proof.
  intros Hq Hpre Hfuel.
  assert (head ≠ NULL) as Hh by (by eapply queue_head_not_null).
  destruct o as [s e ok|s e ok|sp n|sp n| | | | | | ]; simpl in Hpre; simpl run_op.
  - destruct (decide (e = NULL ∨ ok = false)) as [Hfail|Hok].
    + destruct (q_insert_head_fail h head s e ok Hpre) as [Hrun _].
      exists h, es. split_and!; [|done|lia].
      eapply run_op_wrap. apply Hrun. tauto.
    + assert (e ≠ NULL ∧ ok = true) as [He ->] by (destruct ok; naive_solver).
      destruct Hpre as [?|Hfresh]; [done|].
      destruct (q_insert_head_spec h head es s e Hq He Hfresh) as (h' & Hrun & Hq' & _).
      exists h', ((e, s) :: es). split_and!; [|done|simpl; lia].
      by eapply run_op_wrap.
  - destruct (decide (e = NULL ∨ ok = false)) as [Hfail|Hok].
    + destruct (q_insert_tail_fail h head s e ok Hpre) as [Hrun _].
      exists h, es. split_and!; [|done|lia].
      eapply run_op_wrap. apply Hrun. tauto.
    + assert (e ≠ NULL ∧ ok = true) as [He ->] by (destruct ok; naive_solver).
      destruct Hpre as [?|Hfresh]; [done|].
      destruct (q_insert_tail_spec h head es s e Hq He Hfresh) as (h' & Hrun & Hq' & _).
      exists h', (es ++ [(e, s)]). split_and!; [|done|rewrite length_app; simpl; lia].
      by eapply run_op_wrap.
  - destruct es as [|e es].
    + exists h, []. split_and!; [|done|simpl; lia].
      eapply run_op_wrap. by apply q_remove_head_empty.
    + destruct (q_remove_head_spec h head e es sp n Hq Hpre) as (h' & Hrun & Hq' & _).
      exists h', es. split_and!; [|done|simpl; lia].
      by eapply run_op_wrap.
  - destruct (decide (es = [])) as [->|Hne].
    + exists h, []. split_and!; [|done|simpl; lia].
      eapply run_op_wrap. by apply q_remove_tail_empty.
    + destruct (exists_last Hne) as (es0 & e & ->).
      destruct (q_remove_tail_spec h head e es0 sp n Hq Hpre) as (h' & Hrun & Hq' & _).
      exists h', es0. split_and!; [|done|rewrite length_app; simpl; lia].
      by eapply run_op_wrap.
  - exists h, es. split_and!; [|done|lia].
    eapply run_op_wrap. apply q_size_spec; [done..|lia].
  - destruct (decide (es = [])) as [->|Hne].
    + exists h, []. split_and!; [|done|simpl; lia].
      eapply run_op_wrap. by apply q_delete_mid_empty.
    + destruct (q_delete_mid_spec fuel h head es Hq Hne) as (e & h' & _ & Hrun & Hq' & _);
        [lia|].
      exists h', (delete (length es / 2)%nat es). split_and!; [|done|].
      * by eapply run_op_wrap.
      * pose proof (sublist_length _ _ (sublist_delete es (length es / 2)%nat)).
        lia.
  - destruct (q_delete_dup_spec fuel h head es Hq) as (h' & Hrun & Hq' & _); [lia|].
    exists h', (dedup false es). split_and!; [|done|].
    + by eapply run_op_wrap.
    + pose proof (sublist_length _ _ (dedup_sublist false es)). lia.
  - destruct (q_swap_spec fuel h head es Hq) as (h' & Hrun & Hq' & _); [lia|].
    exists h', (swap_pairs es). split_and!; [done..|].
    rewrite (swap_pairs_perm (length es) es); lia.
  - destruct (q_reverse_spec fuel h head es Hq) as (h' & Hrun & Hq' & _); [lia|].
    exists h', (reverse es). split_and!; [done..|]. rewrite length_reverse. lia.
  - destruct (q_sort_spec fuel h head es Hq) as (h' & Hrun & Hq' & _); [lia|].
    exists h', (msort es). split_and!; [done..|]. rewrite (msort_perm es). lia.
Qed.
End Operations.

(** C2: every operation of the interface, run on a ready queue with enough
    fuel and what it asks of its caller, returns and leaves a ready queue:
    every node [n] of the list has [n.next.prev == n] and [n.prev.next == n],
    walking [next] from the sentinel meets it again after exactly one step
    more than the number of elements, likewise along [prev], and that number
    is what [q_size] returns.  The case of [OpSort] is [q_sort], which cuts
    the ring into a null-terminated chain and rebuilds it. *)
Theorem operations_preserve_invariant o fuel h head es :
  queue h head es → op_pre h es o → (length es + 2 ≤ fuel)%nat →
  ∃ h' es', run_op fuel o head h = Ok tt h' ∧ queue h' head es' ∧
            dll_invariant h' head (length es') ∧
            (Z.of_nat (length es') ≤ INT_MAX →
             q_size fuel head h' = Ok (Z.of_nat (length es')) h').
Proof.
  intros Hq Hpre Hfuel.
  destruct (run_op_queue o fuel h head es Hq Hpre Hfuel) as (h' & es' & Hrun & Hq' & Hl).
  exists h', es'. split_and!; [done..|by apply queue_dll_invariant|].
  intros Hmax. apply q_size_spec; [done..|lia].
Qed.

Lemma operations_preserve_invariant_witness :
  queue (mkq 100 [(1, "b"); (2, "a"); (3, "c")]) 100 [(1, "b"); (2, "a"); (3, "c")] ∧
  op_pre (mkq 100 [(1, "b"); (2, "a"); (3, "c")]) [(1, "b"); (2, "a"); (3, "c")] OpSort ∧
  ∃ h' es', run_op 5 OpSort 100 (mkq 100 [(1, "b"); (2, "a"); (3, "c")]) = Ok tt h' ∧
            queue h' 100 es' ∧ dll_invariant h' 100 (length es') ∧
            (Z.of_nat (length es') ≤ INT_MAX →
             q_size 5 100 h' = Ok (Z.of_nat (length es')) h').
Proof.
  split; [by apply concrete_queue|]. split; [done|].
  apply (operations_preserve_invariant OpSort 5 _ 100 [(1, "b"); (2, "a"); (3, "c")]).
  - by apply concrete_queue.
  - done.
  - simpl. lia.
Defined.

(** C3, as the specification states it, fails: [q_sort] exchanges two
    elements with equal strings. *)
Lemma q_sort_not_stable : ¬ sort_is_stable.
Proof.
  intros Hstable.
  assert (queue (mkq 100 [(1, "a"); (2, "a")]) 100 [(1, "a"); (2, "a")]) as Hq
    by (by apply concrete_queue).
  destruct (q_sort_spec 4 _ 100 _ Hq) as (h' & Hrun & Hq' & _); [simpl; lia|].
  by specialize (Hstable 4%nat _ 100 _ h' _ Hq Hrun Hq' "a").
Qed.

(** C3, amended: for every ready queue, after [q_sort] the whole sequence is
    ascending by [strcmp], and the elements whose strings compare equal appear
    in the reverse of the order they had before the call. *)
Theorem q_sort_reverses_equal_elements fuel h head es :
  queue h head es → (length es + 2 ≤ fuel)%nat →
  ∃ h' es', q_sort fuel head h = Ok tt h' ∧ queue h' head es' ∧
            ascending es' ∧
            ∀ s, filter (same_string s) es' = reverse (filter (same_string s) es).
Proof.
  intros Hq Hfuel.
  destruct (q_sort_spec fuel h head es Hq Hfuel) as (h' & Hrun & Hq' & Hr).
  exists h', (msort es). split_and!; [done..|apply msort_ascending|].
  intros s. apply msort_filter.
Qed.

Lemma q_sort_reverses_equal_elements_witness :
  queue (mkq 100 [(1, "b"); (2, "a"); (3, "b"); (4, "a")]) 100
    [(1, "b"); (2, "a"); (3, "b"); (4, "a")] ∧
  ∃ h' es', q_sort 6 100 (mkq 100 [(1, "b"); (2, "a"); (3, "b"); (4, "a")])
            = Ok tt h' ∧ queue h' 100 es' ∧ ascending es' ∧
            ∀ s, filter (same_string s) es'
                 = reverse (filter (same_string s)
                              [(1, "b"); (2, "a"); (3, "b"); (4, "a")]).
Proof.
  split; [by apply concrete_queue|].
  apply (q_sort_reverses_equal_elements 6 _ 100
           [(1, "b"); (2, "a"); (3, "b"); (4, "a")]).
  - by apply concrete_queue.
  - simpl. lia.
Defined.

(** C4: on a ready queue of [n > 0] elements, [q_delete_mid] returns true,
    unlinks and releases exactly the node of index [n / 2] and leaves the
    other elements in their order; on a null handle and on an empty queue it
    returns false and changes nothing. *)
Theorem q_delete_mid_deletes_middle fuel h head es :
  queue h head es → (length es < fuel)%nat →
  q_delete_mid fuel NULL h = Ok false h ∧
  (es = [] → q_delete_mid fuel head h = Ok false h) ∧
  (es ≠ [] →
   ∃ e h', es !! (length es / 2)%nat = Some e ∧
           q_delete_mid fuel head h = Ok true h' ∧
           queue h' head (delete (length es / 2)%nat es) ∧
           released [e.1] (head :: es.*1) h h').
Proof.
  intros Hq Hfuel. split_and!.
  - apply q_delete_mid_null.
  - intros ->. by apply q_delete_mid_empty.
  - intros Hne. by apply q_delete_mid_spec.
Qed.

Lemma q_delete_mid_deletes_middle_witness :
  queue (mkq 100 six) 100 six ∧
  q_delete_mid 7 NULL (mkq 100 six) = Ok false (mkq 100 six) ∧
  (six = [] → q_delete_mid 7 100 (mkq 100 six) = Ok false (mkq 100 six)) ∧
  (six ≠ [] →
   ∃ e h', six !! (length six / 2)%nat = Some e ∧
           q_delete_mid 7 100 (mkq 100 six) = Ok true h' ∧
           queue h' 100 (delete (length six / 2)%nat six) ∧
           released [e.1] (100 :: six.*1) (mkq 100 six) h').
Proof.
  split; [by apply concrete_queue|].
  apply (q_delete_mid_deletes_middle 7 _ 100 six).
  - by apply concrete_queue.
  - simpl. lia.
Defined.

(** C5, as the specification states it, fails: on the queue of "a" to "f"
    the node released is that of "d", so what is left is not the queue
    without "c". *)
Lemma q_delete_mid_six_not_c : ¬ delete_mid_removes_c.
Proof.
  intros Hclaim.
  assert (queue (mkq 100 six) 100 six) as Hq by (by apply concrete_queue).
  destruct (q_delete_mid_spec 7 _ 100 six Hq) as (e & h' & He & Hrun & _ & Hrel);
    [done|simpl; lia|].
  injection He as <-.
  specialize (Hclaim 7%nat _ 100 h' Hq Hrun).
  destruct Hrel as (Hrel & _). destruct (Hrel 4) as [_ Hv]; [left|].
  assert (values h' !! 4 = Some "d") as Hd.
  { apply (queue_value _ _ _ (4, "d") Hclaim). do 2 right. left. }
  pose proof (eq_trans (eq_sym Hd) Hv) as Hcontra. discriminate Hcontra.
Qed.

(** C5, amended: on a queue of the six strings "a" to "f", [q_delete_mid]
    releases the element "d", of index 3 = 6 / 2, and leaves "a", "b", "c",
    "e", "f". *)
Theorem q_delete_mid_six fuel h head a1 a2 a3 a4 a5 a6 :
  queue h head [(a1, "a"); (a2, "b"); (a3, "c"); (a4, "d"); (a5, "e"); (a6, "f")] →
  (6 < fuel)%nat →
  ∃ h', q_delete_mid fuel head h = Ok true h' ∧
        queue h' head [(a1, "a"); (a2, "b"); (a3, "c"); (a5, "e"); (a6, "f")] ∧
        released [a4] [head; a1; a2; a3; a4; a5; a6] h h'.
Proof.
  intros Hq Hfuel.
  destruct (q_delete_mid_spec fuel h head _ Hq) as (e & h' & He & Hrun & Hq' & Hrel);
    [done|simpl; lia|].
  injection He as <-. by exists h'.
Qed.

Lemma q_delete_mid_six_witness :
  queue (mkq 100 six) 100 six ∧
  ∃ h', q_delete_mid 7 100 (mkq 100 six) = Ok true h' ∧
        queue h' 100 six_without_d ∧
        released [4] [100; 1; 2; 3; 4; 5; 6] (mkq 100 six) h'.
Proof.
  split; [by apply concrete_queue|].
  apply (q_delete_mid_six 7 _ 100 1 2 3 4 5 6).
  - by apply concrete_queue.
  - lia.
Defined.

Section DeleteDupClaims.
(** What [q_delete_dup] leaves and what it releases, element by element. *)
Lemma dedup_equal_neighbour (es : list elem) :
  NoDup es.*1 →
  ∀ i x, es !! i = Some x →
    (x ∈ dedup_removed false es ↔ equal_neighbour es i) ∧
    (x ∈ dedup false es ↔ ¬ equal_neighbour es i).
Proof.
  intros Hnd i x Hi.
  destruct (dedup_spec es [] false) with (i := i) (x := x) as [H1 H2];
    [done| |done|by split].
  split; [done|]. by intros (? & ? & ? & _).
Qed.
End DeleteDupClaims.

(** C6: on a ready queue whose elements are ascending by [strcmp],
    [q_delete_dup] returns true and releases exactly the elements that have an
    equal neighbour; the others stay, in their order, and are strictly
    ascending; a queue of at most one element is left as it is; on a null
    handle the result is false. *)
Theorem q_delete_dup_sorted fuel h head es :
  queue h head es → ascending es → (length es < fuel)%nat →
  q_delete_dup fuel NULL h = Ok false h ∧
  ∃ h', q_delete_dup fuel head h = Ok true h' ∧
        queue h' head (dedup false es) ∧
        released (dedup_removed false es).*1 (head :: es.*1) h h' ∧
        (∀ i x, es !! i = Some x →
           (x ∈ dedup_removed false es ↔ equal_neighbour es i) ∧
           (x ∈ dedup false es ↔ ¬ equal_neighbour es i)) ∧
        sublist (dedup false es) es ∧
        strictly_ascending (dedup false es) ∧
        ((length es ≤ 1)%nat → h' = h).
Proof.
  intros Hq Hasc Hfuel. split; [apply q_delete_dup_null|].
  destruct (q_delete_dup_spec fuel h head es Hq Hfuel) as (h' & Hrun & Hq' & Hrel & Hsmall).
  exists h'. split_and!; [done..| | | |done].
  - apply dedup_equal_neighbour.
    apply queue_NoDup in Hq. by apply NoDup_cons in Hq as [_ ?].
  - apply dedup_sublist.
  - by apply dedup_strictly_ascending.
Qed.

Lemma q_delete_dup_sorted_witness :
  (queue (mkq 100 [(1, "a"); (2, "b"); (3, "b"); (4, "b"); (5, "c")]) 100
     [(1, "a"); (2, "b"); (3, "b"); (4, "b"); (5, "c")] ∧
   ascending [(1, "a"); (2, "b"); (3, "b"); (4, "b"); (5, "c")] ∧
   dedup false [(1, "a"); (2, "b"); (3, "b"); (4, "b"); (5, "c")]
   = [(1, "a"); (5, "c")] ∧
   ∃ h', q_delete_dup 6 100
           (mkq 100 [(1, "a"); (2, "b"); (3, "b"); (4, "b"); (5, "c")])
         = Ok true h' ∧
         queue h' 100 [(1, "a"); (5, "c")]) ∧
  (queue (mkq 100 [(1, "a"); (2, "b"); (3, "c")]) 100
     [(1, "a"); (2, "b"); (3, "c")] ∧
   ascending [(1, "a"); (2, "b"); (3, "c")] ∧
   ∃ h', q_delete_dup 4 100 (mkq 100 [(1, "a"); (2, "b"); (3, "c")]) = Ok true h' ∧
         queue h' 100 [(1, "a"); (2, "b"); (3, "c")]).
Proof.
  assert (ascending [(1, "a"); (2, "b"); (3, "b"); (4, "b"); (5, "c")]) as Ha1
    by (cbv [ascending adj]; repeat split; by vm_compute).
  assert (ascending [(1, "a"); (2, "b"); (3, "c")]) as Ha2
    by (cbv [ascending adj]; repeat split; by vm_compute).
  split.
  - split; [by apply concrete_queue|]. split; [done|]. split; [done|].
    destruct (q_delete_dup_sorted 6 (mkq 100 [(1, "a"); (2, "b"); (3, "b"); (4, "b"); (5, "c")])
                100 [(1, "a"); (2, "b"); (3, "b"); (4, "b"); (5, "c")])
      as (_ & h' & Hrun & Hq' & _); [by apply concrete_queue|done|simpl; lia|].
    exists h'. split; [exact Hrun|exact Hq'].
  - split; [by apply concrete_queue|]. split; [done|].
    destruct (q_delete_dup_sorted 4 (mkq 100 [(1, "a"); (2, "b"); (3, "c")])
                100 [(1, "a"); (2, "b"); (3, "c")])
      as (_ & h' & Hrun & Hq' & _); [by apply concrete_queue|done|simpl; lia|].
    exists h'. split; [exact Hrun|exact Hq'].
Defined.

(** C7, the failing case: with a non-null buffer and [bufsize = 0] the
    length [bufsize - 1] of the copy wraps around to [SIZE_MAX], and
    [q_remove_head] and [q_remove_tail] write beyond every buffer shorter than
    that: the behaviour is undefined. *)
Theorem q_remove_bufsize_zero h head e es buf :
  queue h head (e :: es) →
  Z.of_nat (length buf) < 2 ^ SIZE_WIDTH - 1 →
  q_remove_head head (Some buf) 0 h = Fault ∧
  q_remove_tail head (Some buf) 0 h = Fault.
Proof.
  intros Hq Hl. split; [by apply (q_remove_head_zero h head e es)|].
  destruct (exists_last (l:=e :: es)) as (es0 & e0 & Heq); [done|].
  rewrite Heq in Hq. by apply (q_remove_tail_zero h head e0 es0).
Qed.

Lemma q_remove_bufsize_zero_witness :
  queue (mkq 100 [(1, "abc")]) 100 [(1, "abc")] ∧
  Z.of_nat (length ([] : list ascii)) < 2 ^ SIZE_WIDTH - 1 ∧
  q_remove_head 100 (Some []) 0 (mkq 100 [(1, "abc")]) = Fault ∧
  q_remove_tail 100 (Some []) 0 (mkq 100 [(1, "abc")]) = Fault.
Proof.
  split; [by apply concrete_queue|]. split; [done|].
  apply (q_remove_bufsize_zero _ 100 (1, "abc") [] []).
  - by apply concrete_queue.
  - done.
Defined.

(** The copy-out within bounds: with [1 ≤ bufsize] within the buffer, the two
    removals return the unlinked element and leave in the buffer at most
    [bufsize - 1] bytes of its string, zeros up to and including offset
    [bufsize - 1], and the bytes from offset [bufsize] on as they were. *)
Lemma q_remove_copy_within_bounds h head e es e' es' buf n :
  queue h head (e :: es) → e :: es = es' ++ [e'] →
  1 ≤ n ≤ Z.of_nat (length buf) → n < 2 ^ SIZE_WIDTH →
  ∃ h1 h2 r1 r2,
    q_remove_head head (Some buf) n h = Ok (e.1, Some r1) h1 ∧
    q_remove_tail head (Some buf) n h = Ok (e'.1, Some r2) h2 ∧
    r1 = copied e.2 (Z.to_nat n) ++ drop (Z.to_nat n) buf ∧
    r2 = copied e'.2 (Z.to_nat n) ++ drop (Z.to_nat n) buf ∧
    length r1 = length buf ∧ length r2 = length buf ∧
    drop (Z.to_nat n) r1 = drop (Z.to_nat n) buf ∧
    drop (Z.to_nat n) r2 = drop (Z.to_nat n) buf ∧
    r1 !! Z.to_nat (n - 1) = Some zero ∧ r2 !! Z.to_nat (n - 1) = Some zero.
Proof.
  intros Hq Heq Hn Hw.
  destruct (q_remove_head_spec h head e es (Some buf) n Hq) as (h1 & Hrun1 & _);
    [done|].
  rewrite Heq in Hq.
  destruct (q_remove_tail_spec h head e' es' (Some buf) n Hq) as (h2 & Hrun2 & _);
    [done|].
  rewrite <- Heq in Hq.
  assert (∀ s, length (copied s (Z.to_nat n)) = Z.to_nat n) as Hlen
    by (intros; apply length_copied; lia).
  eexists h1, h2, _, _. split_and!; [rewrite Heq in *; exact Hrun1|exact Hrun2|done|done|..].
  - rewrite length_app, length_drop, Hlen. lia.
  - rewrite length_app, length_drop, Hlen. lia.
  - by rewrite drop_app_length' by (by rewrite Hlen).
  - by rewrite drop_app_length' by (by rewrite Hlen).
  - rewrite lookup_app_l by (rewrite Hlen; lia). apply copied_lookup_zero; lia.
  - rewrite lookup_app_l by (rewrite Hlen; lia). apply copied_lookup_zero; lia.
Qed.

(** C8: given an allocator that answers [NULL] or a block that was not
    allocated, each of the three causes of failure (null handle, failed
    allocation of the node, failed duplication of the string) makes
    [q_insert_head] and [q_insert_tail] return false, and whenever they return
    false the heap, hence the queue with its sequence, size and links, is
    exactly what it was. *)
Theorem q_insert_failure_changes_nothing h head s e dup_ok :
  e = NULL ∨ links h !! e = None →
  (head = NULL ∨ e = NULL ∨ dup_ok = false →
     q_insert_head head s e dup_ok h = Ok false h ∧
     q_insert_tail head s e dup_ok h = Ok false h) ∧
  (∀ h', q_insert_head head s e dup_ok h = Ok false h' → h' = h) ∧
  (∀ h', q_insert_tail head s e dup_ok h = Ok false h' → h' = h).
Proof.
  intros He.
  destruct (q_insert_head_fail h head s e dup_ok He) as [H1 H2].
  destruct (q_insert_tail_fail h head s e dup_ok He) as [H3 H4].
  split_and!; [|done..]. intros Hc. split; auto.
Qed.

Lemma q_insert_failure_changes_nothing_witness :
  (2 = NULL ∨ links (mkq 100 [(1, "a")]) !! 2 = None) ∧
  (100 = NULL ∨ 2 = NULL ∨ false = false →
     q_insert_head 100 "b" 2 false (mkq 100 [(1, "a")]) = Ok false (mkq 100 [(1, "a")]) ∧
     q_insert_tail 100 "b" 2 false (mkq 100 [(1, "a")]) = Ok false (mkq 100 [(1, "a")])) ∧
  (∀ h', q_insert_head 100 "b" 2 false (mkq 100 [(1, "a")]) = Ok false h' →
         h' = mkq 100 [(1, "a")]) ∧
  (∀ h', q_insert_tail 100 "b" 2 false (mkq 100 [(1, "a")]) = Ok false h' →
         h' = mkq 100 [(1, "a")]).
Proof.
  split; [by right|].
  apply (q_insert_failure_changes_nothing (mkq 100 [(1, "a")]) 100 "b" 2 false).
  by right.
Defined.

(** C9: on a ready queue, [q_reverse] returns and leaves the elements in
    reverse order, allocating and releasing nothing, and applied twice it
    leaves them in their original order. *)
Theorem q_reverse_involution fuel h head es :
  queue h head es → (length es < fuel)%nat →
  ∃ h1 h2, q_reverse fuel head h = Ok tt h1 ∧ queue h1 head (reverse es) ∧
           relinked (head :: es.*1) h h1 ∧
           q_reverse fuel head h1 = Ok tt h2 ∧ queue h2 head es ∧
           relinked (head :: es.*1) h h2.
Proof.
  intros Hq Hfuel.
  destruct (q_reverse_spec fuel h head es Hq Hfuel) as (h1 & Hrun1 & Hq1 & Hr1).
  destruct (q_reverse_twice fuel h head es Hq Hfuel)
    as (h1' & h2 & Hrun1' & Hrun2 & _ & Hq2 & Hr2).
  assert (h1' = h1) as -> by congruence.
  by exists h1, h2.
Qed.

Lemma q_reverse_involution_witness :
  queue (mkq 100 [(1, "x"); (2, "y"); (3, "z")]) 100 [(1, "x"); (2, "y"); (3, "z")] ∧
  ∃ h1 h2,
    q_reverse 4 100 (mkq 100 [(1, "x"); (2, "y"); (3, "z")]) = Ok tt h1 ∧
    queue h1 100 (reverse [(1, "x"); (2, "y"); (3, "z")]) ∧
    relinked (100 :: [(1, "x"); (2, "y"); (3, "z")].*1)
      (mkq 100 [(1, "x"); (2, "y"); (3, "z")]) h1 ∧
    q_reverse 4 100 h1 = Ok tt h2 ∧
    queue h2 100 [(1, "x"); (2, "y"); (3, "z")] ∧
    relinked (100 :: [(1, "x"); (2, "y"); (3, "z")].*1)
      (mkq 100 [(1, "x"); (2, "y"); (3, "z")]) h2.
Proof.
  split; [by apply concrete_queue|].
  apply (q_reverse_involution 4 _ 100 [(1, "x"); (2, "y"); (3, "z")]).
  - by apply concrete_queue.
  - simpl. lia.
Defined.

(** C10: on every ready queue, sorted or not, [q_delete_dup] returns true;
    the element of index [i] is released exactly when its string equals that
    of the element before or after it in the sequence it was given, that is,
    when it lies in a run of two or more equal strings; the others stay, in
    their order. *)
Theorem q_delete_dup_runs fuel h head es :
  queue h head es → (length es < fuel)%nat →
  ∃ h', q_delete_dup fuel head h = Ok true h' ∧
        queue h' head (dedup false es) ∧
        released (dedup_removed false es).*1 (head :: es.*1) h h' ∧
        sublist (dedup false es) es ∧
        ∀ i x, es !! i = Some x →
          (x ∈ dedup_removed false es ↔ equal_neighbour es i) ∧
          (x ∈ dedup false es ↔ ¬ equal_neighbour es i).
Proof.
  intros Hq Hfuel.
  destruct (q_delete_dup_spec fuel h head es Hq Hfuel) as (h' & Hrun & Hq' & Hrel & _).
  exists h'. split_and!; [done..|apply dedup_sublist|].
  apply dedup_equal_neighbour.
  apply queue_NoDup in Hq. by apply NoDup_cons in Hq as [_ ?].
Qed.

Lemma q_delete_dup_runs_witness :
  queue (mkq 100 [(1, "a"); (2, "b"); (3, "b"); (4, "a"); (5, "c"); (6, "a")]) 100
    [(1, "a"); (2, "b"); (3, "b"); (4, "a"); (5, "c"); (6, "a")] ∧
  dedup false [(1, "a"); (2, "b"); (3, "b"); (4, "a"); (5, "c"); (6, "a")]
  = [(1, "a"); (4, "a"); (5, "c"); (6, "a")] ∧
  ∃ h', q_delete_dup 7 100
          (mkq 100 [(1, "a"); (2, "b"); (3, "b"); (4, "a"); (5, "c"); (6, "a")])
        = Ok true h' ∧
        queue h' 100 [(1, "a"); (4, "a"); (5, "c"); (6, "a")].
Proof.
  split; [by apply concrete_queue|]. split; [done|].
  destruct (q_delete_dup_runs 7
              (mkq 100 [(1, "a"); (2, "b"); (3, "b"); (4, "a"); (5, "c"); (6, "a")])
              100 [(1, "a"); (2, "b"); (3, "b"); (4, "a"); (5, "c"); (6, "a")])
    as (h' & Hrun & Hq' & _); [by apply concrete_queue|simpl; lia|].
  exists h'. split; [exact Hrun|exact Hq'].
Defined.

(** * Further properties of queue.c *)

(** ** Extensionality of the representation, and q_free *)

Section Extensional.
Implicit Types (h : heap) (head x : addr) (es : list elem) (l : list addr).

(** A ring determines the field of each of its nodes. *)
Lemma chain_agree f f' l z x :
  chain f (l ++ [z]) → chain f' (l ++ [z]) → x ∈ l → f x = f' x.
Proof.
  induction l as [|a l IH]; [by intros _ _ ?%elem_of_nil|].
  intros Hc Hc' Hx.
  assert (∃ b, (a :: l) ++ [z] = a :: b :: drop 1 (l ++ [z])) as [b Hb].
  { destruct l; simpl; eauto. }
  assert (f a = f' a) as Ha.
  { rewrite Hb, chain_cons_cons in Hc, Hc'. destruct Hc as [-> _].
    by destruct Hc' as [-> _]. }
  apply elem_of_cons in Hx as [->|Hx]; [done|].
  apply IH; [by apply chain_tail in Hc|by apply chain_tail in Hc'|done].
Qed.

Lemma ring_agree f f' l x : ring f l → ring f' l → x ∈ l → f x = f' x.
Proof.
  destruct l as [|a l]; [by intros _ _ ?%elem_of_nil|].
  unfold ring. apply chain_agree.
Qed.

Lemma cyc_links_agree h h' l x :
  cyc h l → cyc h' l → x ∈ l → links h' !! x = links h !! x.
Proof.
  intros (_ & Hn & Hp) (_ & Hn' & Hp') Hx.
  pose proof (ring_agree _ _ _ x Hn Hn' Hx) as En.
  assert (x ∈ reverse l) as Hx' by (by apply elem_of_reverse).
  pose proof (ring_agree _ _ _ x Hp Hp' Hx') as Ep.
  destruct (ring_defined _ _ _ Hn Hx) as [v Hv].
  unfold next_of, prev_of in *.
  destruct (links h !! x) as [[n p]|], (links h' !! x) as [[n' p']|];
    simpl in *; congruence.
Qed.

(** Two heaps that hold the same queue, the same strings and the same blocks
    outside the queue are one heap. *)
Lemma queue_heap_eq h h' head es :
  queue h head es → queue h' head es →
  values h' = values h →
  (∀ x, x ∉ head :: es.*1 → links h' !! x = links h !! x) →
  h' = h.
Proof.
  intros (_ & Hc & _) (_ & Hc' & _) Hv Hl.
  apply heap_eq; [|done]. apply map_eq. intros x.
  destruct (decide (x ∈ head :: es.*1)) as [Hx|Hx]; [|by apply Hl].
  by apply (cyc_links_agree h h' (head :: es.*1)).
Qed.

Lemma queue_relinked_eq S h h' head es :
  queue h head es → queue h' head es → relinked S h h' →
  S ⊆ head :: es.*1 → h' = h.
Proof.
  intros Hq Hq' (Hv & _ & Hl) HS.
  apply (queue_heap_eq h h' head es); [done..|].
  intros x Hx. apply Hl. set_solver.
Qed.
End Extensional.

Section Free.
Implicit Types (h : heap) (head x : addr) (es : list elem) (rest : list addr).

Lemma run_free_value {B} h x (k : unit → M B) :
  (free_value x ≫= k) h = k tt (Heap (links h) (delete x (values h))).
Proof. done. Qed.

Lemma free_loop_spec head : ∀ rest h fuel safe,
  NoDup (head :: rest) →
  chain (next_of h) (rest ++ [head]) →
  is_Some (links h !! head) →
  (rest ≠ [] → safe = hd head (tail rest)) →
  (length rest < fuel)%nat →
  ∃ h', free_loop fuel head (hd head rest) safe h = Ok tt h' ∧
        (∀ x, x ∈ rest → links h' !! x = None ∧ values h' !! x = None) ∧
        (∀ x, x ∉ rest →
           links h' !! x = links h !! x ∧ values h' !! x = values h !! x).
Proof.
  induction rest as [|a rest IH]; intros h fuel safe Hnd Hc Hh Hsafe Hfuel.
  { destruct fuel as [|fuel]; [simpl in Hfuel; lia|]. simpl.
    rewrite bool_decide_eq_true_2 by done.
    exists h. split_and!; [done| |done]. by intros x ?%elem_of_nil. }
  destruct fuel as [|fuel]; [simpl in Hfuel; lia|].
  simpl in Hfuel. cbn [free_loop hd].
  apply NoDup_cons in Hnd as [Hhead Hnd].
  assert (a ≠ head) as Hah by set_solver.
  rewrite bool_decide_eq_false_2 by done.
  assert (is_Some (links h !! a)) as Ha.
  { destruct (chain_defined _ _ _ a Hc) as [v Hv]; [left|]. by eapply next_alloc. }
  specialize (Hsafe ltac:(done)). simpl in Hsafe.
  set (h1 := Heap (delete a (links h)) (delete a (values h))).
  assert (∀ x, x ≠ a → next_of h1 x = next_of h x) as Hframe.
  { intros x Hx. unfold next_of, h1. simpl. by rewrite lookup_delete_ne. }
  assert (∃ v, next_of h safe = Some v ∧ safe ≠ a ∧
               (rest ≠ [] → v = hd head (tail rest))) as (v & Hv & Hsa & Hvr).
  { destruct rest as [|b rest].
    - simpl in Hsafe. subst safe. destruct Hh as [n Hn].
      exists (next n). unfold next_of. rewrite Hn. by split_and!.
    - simpl in Hsafe. subst safe.
      apply chain_tail in Hc. simpl in Hc.
      exists (hd head rest). split_and!.
      + destruct rest; simpl in *; rewrite chain_cons_cons in Hc; by destruct Hc.
      + apply NoDup_cons in Hnd as [Hnd _]. set_solver.
      + done. }
  destruct (IH h1 fuel v) as (h' & Hrun & Hin & Hout).
  - apply NoDup_cons. split; [set_solver|].
    by apply NoDup_cons in Hnd as [_ ?].
  - apply chain_tail in Hc. eapply chain_frame; [|exact Hc].
    intros c Hc'. apply Hframe. apply NoDup_cons in Hnd as [Hnd _]. set_solver.
  - unfold h1. simpl. by rewrite lookup_delete_ne.
  - done.
  - lia.
  - exists h'. split_and!.
    + rewrite run_free_value, run_free by done.
      fold h1. rewrite (run_load_next h1 safe v) by (by rewrite Hframe).
      rewrite Hsafe. exact Hrun.
    + intros x [->|Hx]%elem_of_cons; [|by apply Hin].
      apply NoDup_cons in Hnd as [Hnd _].
      destruct (Hout a Hnd) as [-> ->]. unfold h1. simpl.
      by rewrite !lookup_delete_eq.
    + intros x Hx. apply not_elem_of_cons in Hx as [Hxa Hx].
      destruct (Hout x Hx) as [-> ->]. unfold h1. simpl.
      by rewrite !lookup_delete_ne.
Qed.
End Free.

(** ** q_new, q_free and the life of a queue *)

Section LifeCycle.
Implicit Types (h : heap) (head q e x : addr) (s : string) (es : list elem).

Lemma q_new_spec h q :
  links h !! NULL = None → q ≠ NULL →
  ∃ h', q_new q h = Ok q h' ∧ queue h' q [] ∧
        links h' = <[q := ListHead q q]> (links h) ∧ values h' = values h.
Proof.
  intros H0 Hq.
  exists (Heap (<[q := ListHead q q]> (links h)) (values h)).
  split_and!; [|split_and!|done..]; simpl.
  - unfold q_new. rewrite run_malloc by done.
    rewrite bool_decide_eq_true_2 by done.
    unfold INIT_LIST_HEAD. erewrite run_bind; [done|].
    rewrite run_store_next by (simpl; by rewrite lookup_insert_eq).
    rewrite store_prev_ok.
    2:{ apply alloc_set_next. simpl. by rewrite lookup_insert_eq. }
    f_equal. apply heap_eq; [|done]. simpl.
    by rewrite !alter_insert_eq.
  - by rewrite lookup_insert_ne.
  - split_and!; [apply NoDup_singleton|..]; unfold ring; simpl;
      rewrite chain_cons_cons; (split; [|done]).
    + unfold next_of. simpl. by rewrite lookup_insert_eq.
    + unfold prev_of. simpl. by rewrite lookup_insert_eq.
  - apply Forall_nil_2.
Qed.

Lemma q_insert_head_frame h head es s e :
  queue h head es → e ≠ NULL → links h !! e = None →
  ∃ h', q_insert_head head s e true h = Ok true h' ∧
        queue h' head ((e, s) :: es) ∧
        values h' = <[e := s]> (values h) ∧
        (∀ x, x ∉ e :: head :: es.*1 → links h' !! x = links h !! x).
Proof.
  intros Hq He Hfresh.
  destruct (queue_alloc_elem h head es e s Hq He Hfresh) as [Hq1 Hnot].
  destruct (queue_add _ head es e s Hq1) as (h' & Hrun & Hq' & Hr');
    [done|simpl; by rewrite lookup_insert_eq|simpl; by rewrite lookup_insert_eq|].
  exists h'. split_and!; [|done|..].
  - unfold q_insert_head.
    rewrite bool_decide_eq_false_2 by (by eapply queue_head_not_null).
    rewrite run_malloc by done.
    rewrite bool_decide_eq_false_2 by done.
    rewrite run_strdup. cbn [negb links values].
    erewrite run_bind; [|exact Hrun]. done.
  - by destruct Hr' as (-> & _).
  - intros x Hx. destruct Hr' as (_ & _ & ->); [|done]. simpl.
    apply lookup_insert_ne. set_solver.
Qed.

Lemma q_insert_tail_frame h head es s e :
  queue h head es → e ≠ NULL → links h !! e = None →
  ∃ h', q_insert_tail head s e true h = Ok true h' ∧
        queue h' head (es ++ [(e, s)]) ∧
        values h' = <[e := s]> (values h) ∧
        (∀ x, x ∉ e :: head :: es.*1 → links h' !! x = links h !! x).
Proof.
  intros Hq He Hfresh.
  destruct (queue_alloc_elem h head es e s Hq He Hfresh) as [Hq1 Hnot].
  destruct (queue_add_tail _ head es e s Hq1) as (h' & Hrun & Hq' & Hr');
    [done|simpl; by rewrite lookup_insert_eq|simpl; by rewrite lookup_insert_eq|].
  exists h'. split_and!; [|done|..].
  - unfold q_insert_tail.
    rewrite bool_decide_eq_false_2 by (by eapply queue_head_not_null).
    rewrite run_malloc by done.
    rewrite bool_decide_eq_false_2 by done.
    rewrite run_strdup. cbn [negb links values].
    erewrite run_bind; [|exact Hrun]. done.
  - by destruct Hr' as (-> & _).
  - intros x Hx. destruct Hr' as (_ & _ & ->); [|done]. simpl.
    apply lookup_insert_ne. set_solver.
Qed.

Lemma insert_all_spec head : ∀ new h es,
  queue h head es → NoDup new.*1 →
  (∀ x, x ∈ new.*1 → x ≠ NULL ∧ links h !! x = None) →
  ∃ h', insert_all head new h = Ok true h' ∧
        queue h' head (es ++ new) ∧
        (∀ x, x ∉ head :: es.*1 ++ new.*1 → links h' !! x = links h !! x) ∧
        (∀ x, x ∉ new.*1 → values h' !! x = values h !! x).
Proof.
  induction new as [|[a s] new IH]; intros h es Hq Hnd Hf.
  { exists h. rewrite app_nil_r. by split_and!. }
  rewrite fmap_cons in Hnd, Hf. simpl in Hnd, Hf.
  apply NoDup_cons in Hnd as [Ha Hnd].
  destruct (Hf a) as [Han Haf]; [left|].
  destruct (q_insert_tail_frame h head es s a Hq Han Haf)
    as (h1 & Hrun & Hq1 & HV & HL).
  assert (a ∉ head :: es.*1) as Hnot.
  { intros Hin. destruct (queue_alloc _ _ _ _ Hq Hin) as [n Hn]. congruence. }
  destruct (IH h1 (es ++ [(a, s)])) as (h' & Hrun' & Hq' & HL' & HV'); [done..| |].
  { intros x Hx. destruct (Hf x) as [? Hxf]; [by right|].
    split; [done|]. rewrite HL; [done|].
    apply not_elem_of_cons. split; [by intros ->|].
    intros Hin. destruct (queue_alloc _ _ _ _ Hq Hin) as [n Hn]. congruence. }
  exists h'. split_and!.
  - cbn [insert_all]. simpl. erewrite run_bind by exact Hrun. exact Hrun'.
  - by rewrite <- app_assoc in Hq'.
  - intros x Hx. rewrite fmap_cons in Hx. simpl in Hx.
    rewrite HL'.
    + apply HL. set_solver.
    + rewrite fmap_app. set_solver.
  - intros x Hx. rewrite fmap_cons in Hx. simpl in Hx.
    rewrite HV' by set_solver. rewrite HV. apply lookup_insert_ne. set_solver.
Qed.

Lemma q_free_null fuel h : q_free fuel NULL h = Ok tt h.
Proof. done. Qed.

Lemma q_free_spec fuel h head es :
  queue h head es → (length es < fuel)%nat →
  ∃ h', q_free fuel head h = Ok tt h' ∧
        (∀ x, x ∈ head :: es.*1 → links h' !! x = None) ∧
        (∀ x, x ∈ es.*1 → values h' !! x = None) ∧
        (∀ x, x ∉ head :: es.*1 → links h' !! x = links h !! x) ∧
        (∀ x, x ∉ es.*1 → values h' !! x = values h !! x).
Proof.
  intros Hq Hfuel.
  pose proof (queue_head_not_null _ _ _ Hq) as Hh.
  pose proof (queue_next_head _ _ _ Hq) as Hnx.
  destruct (queue_next_safe h head [] es Hq) as (safe & Hs & Hsafe).
  pose proof (queue_NoDup _ _ _ Hq) as Hnd.
  assert (is_Some (links h !! head)) as Hha by (eapply queue_alloc; [done|left]).
  destruct (free_loop_spec head es.*1 h fuel safe) as (h1 & Hrun & Hin & Hout).
  - done.
  - destruct Hq as (_ & (_ & Hr & _) & _). unfold ring in Hr.
    change ((head :: es.*1) ++ [head]) with (head :: (es.*1 ++ [head])) in Hr.
    by apply chain_tail in Hr.
  - done.
  - intros Hne. rewrite Hsafe by (by destruct es). by destruct es.
  - by rewrite length_fmap.
  - assert (head ∉ es.*1) as Hhe by (by apply NoDup_cons in Hnd as [? _]).
    destruct (Hout head Hhe) as [Hl1 Hv1].
    exists (Heap (delete head (links h1)) (values h1)). split_and!.
    + unfold q_free. rewrite bool_decide_eq_false_2 by done.
      rewrite (run_load_next h head _ _ Hnx).
      rewrite (run_load_next h _ safe _ Hs).
      erewrite run_bind by exact Hrun.
      unfold free. rewrite Hl1. by destruct Hha as [n ->].
    + intros x [->|Hx]%elem_of_cons; simpl.
      * apply lookup_delete_eq.
      * rewrite lookup_delete_ne by set_solver. by apply Hin.
    + intros x Hx. simpl. by apply Hin.
    + intros x Hx. simpl. apply not_elem_of_cons in Hx as [Hxh Hx].
      rewrite lookup_delete_ne by done. by apply Hout.
    + intros x Hx. simpl. by apply Hout.
Qed.
End LifeCycle.

(** [q_new]: a failed allocation gives [NULL] and changes nothing; a
    successful one gives the block of the allocator, initialised as the
    sentinel of an empty queue: nothing else in the heap changes, and the
    queue has size 0 and nothing to remove. *)
Theorem q_new_returns_empty_queue fuel h q sp n :
  links h !! NULL = None → q ≠ NULL →
  q_new NULL h = Ok NULL h ∧
  ∃ h', q_new q h = Ok q h' ∧ queue h' q [] ∧
        links h' = <[q := ListHead q q]> (links h) ∧ values h' = values h ∧
        q_size fuel q h' = Ok 0 h' ∧
        q_remove_head q sp n h' = Ok (NULL, sp) h'.
Proof.
  intros H0 Hq. split; [done|].
  destruct (q_new_spec h q H0 Hq) as (h' & Hrun & Hq' & Hl & Hv).
  exists h'. split_and!; [done..| |by apply q_remove_head_empty].
  unfold q_size. rewrite bool_decide_eq_false_2 by done.
  by rewrite (run_list_empty h' q [] _ Hq').
Qed.

Lemma q_new_returns_empty_queue_witness :
  links (mkq 100 [(1, "a")]) !! NULL = None ∧
  q_new NULL (mkq 100 [(1, "a")]) = Ok NULL (mkq 100 [(1, "a")]) ∧
  ∃ h', q_new 200 (mkq 100 [(1, "a")]) = Ok 200 h' ∧ queue h' 200 [] ∧
        links h' = <[200 := ListHead 200 200]> (links (mkq 100 [(1, "a")])) ∧
        values h' = values (mkq 100 [(1, "a")]) ∧
        q_size 0 200 h' = Ok 0 h' ∧
        q_remove_head 200 None 0 h' = Ok (NULL, None) h'.
Proof.
  split; [reflexivity|].
  apply (q_new_returns_empty_queue 0 (mkq 100 [(1, "a")]) 200 None 0).
  - reflexivity.
  - done.
Defined.



(** The life of a queue: [q_new], then [q_insert_tail] for each string of a
    list, then [q_free], with an allocator that answers distinct blocks that
    were not allocated, returns and leaves the heap exactly as it was before
    [q_new]: everything that was allocated is released, and nothing else. *)
Theorem queue_life_cycle_restores_heap fuel h q es :
  links h !! NULL = None →
  NoDup (q :: es.*1) →
  (∀ x, x ∈ q :: es.*1 → x ≠ NULL ∧ links h !! x = None) →
  (∀ x, x ∈ es.*1 → values h !! x = None) →
  (length es < fuel)%nat →
  (head ← q_new q; insert_all head es;; q_free fuel head) h = Ok tt h.
Proof.
  intros H0 Hnd Hfresh Hvfresh Hfuel.
  destruct (Hfresh q) as [Hq Hqf]; [left|].
  destruct (q_new_spec h q H0 Hq) as (h1 & Hrun1 & Hq1 & Hl1 & Hv1).
  apply NoDup_cons in Hnd as [Hqe Hnd].
  destruct (insert_all_spec q es h1 [] Hq1 Hnd) as (h2 & Hrun2 & Hq2 & Hl2 & Hv2).
  { intros x Hx. destruct (Hfresh x) as [? Hxf]; [by right|]. split; [done|].
    rewrite Hl1. rewrite lookup_insert_ne; [done|]. set_solver. }
  simpl in Hq2, Hl2.
  destruct (q_free_spec fuel h2 q es Hq2 Hfuel) as (h3 & Hrun3 & Hin & Hvin & Hout & Hvout).
  erewrite run_bind by exact Hrun1.
  erewrite run_bind by exact Hrun2.
  rewrite Hrun3. f_equal. apply heap_eq; apply map_eq; intros x.
  - destruct (decide (x ∈ q :: es.*1)) as [Hx|Hx].
    + rewrite Hin by done. symmetry. by apply Hfresh.
    + rewrite Hout, Hl2, Hl1 by done. apply lookup_insert_ne.
      intros ->. apply Hx. left.
  - destruct (decide (x ∈ es.*1)) as [Hx|Hx].
    + rewrite Hvin by done. symmetry. by apply Hvfresh.
    + by rewrite Hvout, Hv2, Hv1.
Qed.

Lemma queue_life_cycle_restores_heap_witness :
  links (mkq 100 [(1, "a")]) !! NULL = None ∧
  NoDup (200 :: [(2, "x"); (3, "y")].*1) ∧
  (head ← q_new 200; insert_all head [(2, "x"); (3, "y")];; q_free 3 head)
    (mkq 100 [(1, "a")])
  = Ok tt (mkq 100 [(1, "a")]).
Proof.
  split; [done|].
  assert (NoDup (200 :: [(2, "x"); (3, "y")].*1)) as Hnd.
  { apply (bool_decide_unpack _). by vm_compute. }
  split; [exact Hnd|].
  apply (queue_life_cycle_restores_heap 3 (mkq 100 [(1, "a")]) 200
           [(2, "x"); (3, "y")]).
  - done.
  - exact Hnd.
  - intros x Hx. simpl in Hx.
    apply elem_of_cons in Hx as [->|Hx]; [done|].
    apply elem_of_cons in Hx as [->|Hx]; [done|].
    apply elem_of_cons in Hx as [->|Hx]; [done|].
    by apply elem_of_nil in Hx.
  - intros x Hx. simpl in Hx.
    apply elem_of_cons in Hx as [->|Hx]; [done|].
    apply elem_of_cons in Hx as [->|Hx]; [done|].
    by apply elem_of_nil in Hx.
  - simpl. lia.
Defined.

(** ** The two ends of the queue *)

Section Ends.
Implicit Types (h : heap) (head x : addr) (e : elem) (s : string)
  (es : list elem) (buf : list ascii).

(** The string read back from the buffer: when the string and its terminator
    fit in [n] bytes, the buffer holds the string followed by a zero byte. *)
Lemma copied_reads_back s n buf :
  (length (String.list_ascii_of_string s) < n)%nat →
  take (length (String.list_ascii_of_string s)) (copied s n ++ drop n buf)
  = String.list_ascii_of_string s ∧
  (copied s n ++ drop n buf) !! length (String.list_ascii_of_string s)
  = Some zero.
Proof.
  intros Hlen. remember (String.list_ascii_of_string s) as bytes eqn:Hb.
  assert (length (copied s n) = n) as Hc by (apply length_copied; lia).
  split.
  - apply list_eq. intros i.
    destruct (decide (i < length bytes)%nat) as [Hi|Hi].
    + rewrite lookup_take_lt by done.
      rewrite lookup_app_l by lia.
      rewrite copied_lookup_string; subst bytes; [done|lia|done].
    + rewrite lookup_take_ge by lia. symmetry. apply lookup_ge_None. lia.
  - rewrite lookup_app_l by lia.
    apply copied_lookup_zero; [lia|]. right. subst bytes. lia.
Qed.

Lemma release_ok h x :
  is_Some (links h !! x) →
  q_release_element x h
  = Ok tt (Heap (delete x (links h)) (delete x (values h))).
Proof.
  intros [n Hn]. unfold q_release_element, free_value, free.
  unfold mbind, M_bind. simpl. by rewrite Hn.
Qed.

Lemma remove_release_restores h h1 h2 head es x s :
  queue h head es → links h !! x = None → values h !! x = None → x ≠ NULL →
  values h1 = <[x := s]> (values h) →
  (∀ y, y ∉ x :: head :: es.*1 → links h1 !! y = links h !! y) →
  queue h2 head es → relinked (head :: es.*1) h1 h2 →
  is_Some (links h1 !! x) →
  q_release_element x h2 = Ok tt h.
Proof.
  intros Hq Hfresh Hvfresh Hx Hv1 Hl1 Hq2 Hr Hx1.
  assert (x ∉ head :: es.*1) as Hnot.
  { intros Hin. destruct (queue_alloc _ _ _ _ Hq Hin) as [n Hn].
    pose proof (eq_trans (eq_sym Hn) Hfresh) as E. discriminate E. }
  assert (is_Some (links h2 !! x)) as Hx2.
  { by apply (relinked_alloc _ _ _ _ Hr). }
  rewrite release_ok by done. f_equal.
  apply (queue_heap_eq h _ head es); [done|by apply queue_release| |]; simpl.
  - destruct Hr as (-> & _). rewrite Hv1. by apply delete_insert_id.
  - intros y Hy. destruct (decide (y = x)) as [->|Hyx].
    + rewrite lookup_delete_eq. symmetry. exact Hfresh.
    + rewrite lookup_delete_ne by done.
      destruct Hr as (_ & _ & ->); [|done]. apply Hl1.
      by apply not_elem_of_cons.
Qed.

Lemma remove_all_spec head : ∀ es h,
  queue h head es →
  ∃ h', remove_all (length es) head h = Ok es.*1 h' ∧ queue h' head [] ∧
        relinked (head :: es.*1) h h'.
Proof.
  induction es as [|e es IH]; intros h Hq.
  { exists h. split_and!; [done..|apply relinked_refl]. }
  destruct (q_remove_head_spec h head e es None 0 Hq) as (h1 & Hrun & Hq1 & Hr1);
    [done|].
  destruct (IH h1 Hq1) as (h' & Hrun' & Hq' & Hr').
  exists h'. split_and!; [|done|].
  - cbn [remove_all length]. erewrite run_bind by exact Hrun.
    erewrite run_bind by exact Hrun'. done.
  - rewrite fmap_cons. apply (relinked_trans _ h h1 h').
    + eapply relinked_mono; [|exact Hr1]. set_solver.
    + eapply relinked_mono; [|exact Hr']. set_solver.
Qed.
End Ends.

(** An insertion followed by the removal at the same end and the release of
    the element returned: the element returned is the one inserted, the
    buffer holds what the copy-out leaves of its string (the whole string and
    its terminator when they fit in [bufsize] bytes), and the heap is exactly
    what it was before the insertion. *)
Theorem insert_remove_release_round_trip h head es s e buf n :
  queue h head es →
  e ≠ NULL → links h !! e = None → values h !! e = None →
  1 ≤ n ≤ Z.of_nat (length buf) → n < 2 ^ SIZE_WIDTH →
  ∃ r,
    (q_insert_head head s e true;;
     p ← q_remove_head head (Some buf) n;
     q_release_element p.1;; mret p) h = Ok (e, Some r) h ∧
    (q_insert_tail head s e true;;
     p ← q_remove_tail head (Some buf) n;
     q_release_element p.1;; mret p) h = Ok (e, Some r) h ∧
    length r = length buf ∧
    ((length (String.list_ascii_of_string s) < Z.to_nat n)%nat →
     take (length (String.list_ascii_of_string s)) r
     = String.list_ascii_of_string s ∧
     r !! length (String.list_ascii_of_string s) = Some zero).
Proof.
  intros Hq He Hfresh Hvfresh Hn Hw.
  exists (copied s (Z.to_nat n) ++ drop (Z.to_nat n) buf).
  assert (copy_ok (Some buf) n) as Hok by done.
  split_and!.
  - destruct (q_insert_head_frame h head es s e Hq He Hfresh)
      as (h1 & Hrun1 & Hq1 & Hv1 & Hl1).
    destruct (q_remove_head_spec h1 head (e, s) es (Some buf) n Hq1 Hok)
      as (h2 & Hrun2 & Hq2 & Hr2).
    assert (q_release_element e h2 = Ok tt h) as Hrun3.
    { apply (remove_release_restores h h1 h2 head es e s); [done..|].
      eapply queue_alloc; [exact Hq1|]. right. left. }
    erewrite run_bind by exact Hrun1.
    erewrite run_bind by exact Hrun2.
    erewrite run_bind by exact Hrun3. done.
  - destruct (q_insert_tail_frame h head es s e Hq He Hfresh)
      as (h1 & Hrun1 & Hq1 & Hv1 & Hl1).
    destruct (q_remove_tail_spec h1 head (e, s) es (Some buf) n Hq1 Hok)
      as (h2 & Hrun2 & Hq2 & Hr2).
    assert (q_release_element e h2 = Ok tt h) as Hrun3.
    { apply (remove_release_restores h h1 h2 head es e s); [done..|].
      eapply queue_alloc; [exact Hq1|]. rewrite fmap_app. set_solver. }
    erewrite run_bind by exact Hrun1.
    erewrite run_bind by exact Hrun2.
    erewrite run_bind by exact Hrun3. done.
  - rewrite length_app, length_drop, length_copied by lia. lia.
  - apply copied_reads_back.
Qed.

Lemma insert_remove_release_round_trip_witness :
  queue (mkq 100 [(1, "a")]) 100 [(1, "a")] ∧
  ∃ r,
    (q_insert_head 100 "hi" 2 true;;
     p ← q_remove_head 100 (Some [zero; zero; zero; zero]) 4;
     q_release_element p.1;; mret p) (mkq 100 [(1, "a")])
    = Ok (2, Some r) (mkq 100 [(1, "a")]) ∧
    (q_insert_tail 100 "hi" 2 true;;
     p ← q_remove_tail 100 (Some [zero; zero; zero; zero]) 4;
     q_release_element p.1;; mret p) (mkq 100 [(1, "a")])
    = Ok (2, Some r) (mkq 100 [(1, "a")]) ∧
    length r = length [zero; zero; zero; zero] ∧
    ((length (String.list_ascii_of_string "hi") < Z.to_nat 4)%nat →
     take (length (String.list_ascii_of_string "hi")) r
     = String.list_ascii_of_string "hi" ∧
     r !! length (String.list_ascii_of_string "hi") = Some zero).
Proof.
  split; [by apply concrete_queue|].
  apply (insert_remove_release_round_trip (mkq 100 [(1, "a")]) 100 [(1, "a")]
           "hi" 2 [zero; zero; zero; zero] 4).
  - by apply concrete_queue.
  - done.
  - reflexivity.
  - reflexivity.
  - simpl. lia.
  - reflexivity.
Defined.

(** First in, first out: after [q_insert_tail] for each string of a list,
    as many calls of [q_remove_head] as the queue has elements return first
    the elements that were in the queue, in their order, then the inserted
    ones in the order of their insertion; the queue is left empty, and every
    element returned is still allocated and holds its string. *)
Theorem insert_tail_remove_head_fifo h head es new :
  queue h head es → NoDup new.*1 →
  (∀ x, x ∈ new.*1 → x ≠ NULL ∧ links h !! x = None) →
  ∃ h', (insert_all head new;;
         remove_all (length es + length new) head) h
        = Ok (es.*1 ++ new.*1) h' ∧
        queue h' head [] ∧
        ∀ e, e ∈ es ++ new →
          is_Some (links h' !! e.1) ∧ values h' !! e.1 = Some e.2.
Proof.
  intros Hq Hnd Hfresh.
  destruct (insert_all_spec head new h es Hq Hnd Hfresh)
    as (h1 & Hrun1 & Hq1 & _).
  destruct (remove_all_spec head (es ++ new) h1 Hq1) as (h2 & Hrun2 & Hq2 & Hr2).
  exists h2. split_and!; [|done|].
  - erewrite run_bind by exact Hrun1.
    rewrite length_app, fmap_app in Hrun2. exact Hrun2.
  - intros e He. split.
    + apply (relinked_alloc _ _ _ _ Hr2).
      eapply queue_alloc; [exact Hq1|]. right.
      apply list_elem_of_fmap. by exists e.
    + destruct Hr2 as (-> & _). by apply (queue_value _ _ _ _ Hq1).
Qed.

Lemma insert_tail_remove_head_fifo_witness :
  queue (mkq 100 [(1, "a")]) 100 [(1, "a")] ∧
  ∃ h', (insert_all 100 [(2, "b"); (3, "c")];;
         remove_all (length [(1, "a")] + length [(2, "b"); (3, "c")]) 100)
          (mkq 100 [(1, "a")])
        = Ok ([(1, "a")].*1 ++ [(2, "b"); (3, "c")].*1) h' ∧
        queue h' 100 [] ∧
        ∀ e, e ∈ [(1, "a")] ++ [(2, "b"); (3, "c")] →
          is_Some (links h' !! e.1) ∧ values h' !! e.1 = Some e.2.
Proof.
  split; [by apply concrete_queue|].
  apply (insert_tail_remove_head_fifo (mkq 100 [(1, "a")]) 100 [(1, "a")]
           [(2, "b"); (3, "c")]).
  - by apply concrete_queue.
  - apply (bool_decide_unpack _). by vm_compute.
  - intros x Hx. simpl in Hx.
    apply elem_of_cons in Hx as [->|Hx]; [done|].
    apply elem_of_cons in Hx as [->|Hx]; [done|].
    by apply elem_of_nil in Hx.
Defined.



(** A null handle and an empty queue: for any fuel, buffer and [bufsize]
    (zero included), the removals return [NULL] and leave the buffer as it
    is, [q_size] returns 0, [q_delete_mid] returns false, [q_delete_dup]
    returns false on the null handle and true on the empty queue, and
    [q_swap], [q_reverse] and [q_sort] return; the heap is unchanged. *)
Theorem operations_on_null_or_empty_queue fuel h head sp n :
  head = NULL ∨ queue h head [] →
  q_remove_head head sp n h = Ok (NULL, sp) h ∧
  q_remove_tail head sp n h = Ok (NULL, sp) h ∧
  q_size fuel head h = Ok 0 h ∧
  q_delete_mid fuel head h = Ok false h ∧
  q_delete_dup fuel head h = Ok (bool_decide (head ≠ NULL)) h ∧
  q_swap fuel head h = Ok tt h ∧
  q_reverse fuel head h = Ok tt h ∧
  q_sort fuel head h = Ok tt h.
Proof.
  intros [->|Hq]; [by split_and!|].
  pose proof (queue_head_not_null _ _ _ Hq) as Hh.
  split_and!.
  - by apply q_remove_head_empty.
  - by apply q_remove_tail_empty.
  - unfold q_size. rewrite bool_decide_eq_false_2 by done.
    by rewrite (run_list_empty h head [] _ Hq).
  - by apply q_delete_mid_empty.
  - unfold q_delete_dup. rewrite bool_decide_eq_false_2 by done.
    rewrite (run_list_empty h head [] _ Hq).
    by rewrite (bool_decide_eq_true_2 (head ≠ NULL)) by done.
  - unfold q_swap. rewrite bool_decide_eq_false_2 by done.
    by rewrite (run_list_empty h head [] _ Hq).
  - unfold q_reverse. rewrite bool_decide_eq_false_2 by done.
    by rewrite (run_list_empty h head [] _ Hq).
  - unfold q_sort. rewrite bool_decide_eq_false_2 by done.
    by rewrite (run_list_empty h head [] _ Hq).
Qed.

Lemma operations_on_null_or_empty_queue_witness :
  (100 = NULL ∨ queue (empty_queue 100) 100 []) ∧
  q_remove_head 100 (Some []) 0 (empty_queue 100)
  = Ok (NULL, Some []) (empty_queue 100) ∧
  q_remove_tail 100 (Some []) 0 (empty_queue 100)
  = Ok (NULL, Some []) (empty_queue 100) ∧
  q_size 0 100 (empty_queue 100) = Ok 0 (empty_queue 100) ∧
  q_delete_mid 0 100 (empty_queue 100) = Ok false (empty_queue 100) ∧
  q_delete_dup 0 100 (empty_queue 100)
  = Ok (bool_decide (100 ≠ NULL)) (empty_queue 100) ∧
  q_swap 0 100 (empty_queue 100) = Ok tt (empty_queue 100) ∧
  q_reverse 0 100 (empty_queue 100) = Ok tt (empty_queue 100) ∧
  q_sort 0 100 (empty_queue 100) = Ok tt (empty_queue 100).
Proof.
  assert (queue (empty_queue 100) 100 []) as Hq
    by (by apply empty_queue_queue).
  split; [by right|].
  apply (operations_on_null_or_empty_queue 0 (empty_queue 100) 100 (Some []) 0).
  by right.
Defined.

(** A queue of one element: for any fuel, [q_swap], [q_reverse] and [q_sort]
    return and [q_delete_dup] returns true, all without a write to the heap;
    [q_remove_head] and [q_remove_tail] are one operation: they return the
    same element and leave the same heap. *)
Theorem operations_on_singleton_queue fuel h head e sp n :
  queue h head [e] →
  q_swap fuel head h = Ok tt h ∧
  q_reverse fuel head h = Ok tt h ∧
  q_sort fuel head h = Ok tt h ∧
  q_delete_dup fuel head h = Ok true h ∧
  q_remove_tail head sp n h = q_remove_head head sp n h.
Proof.
  intros Hq.
  pose proof (queue_head_not_null _ _ _ Hq) as Hh.
  split_and!.
  - unfold q_swap. rewrite bool_decide_eq_false_2 by done.
    rewrite (run_list_empty h head [e] _ Hq).
    rewrite bool_decide_eq_false_2 by done.
    by rewrite (run_list_is_singular h head [e] _ Hq).
  - unfold q_reverse. rewrite bool_decide_eq_false_2 by done.
    rewrite (run_list_empty h head [e] _ Hq).
    rewrite bool_decide_eq_false_2 by done.
    by rewrite (run_list_is_singular h head [e] _ Hq).
  - unfold q_sort. rewrite bool_decide_eq_false_2 by done.
    rewrite (run_list_empty h head [e] _ Hq).
    rewrite bool_decide_eq_false_2 by done.
    by rewrite (run_list_is_singular h head [e] _ Hq).
  - unfold q_delete_dup. rewrite bool_decide_eq_false_2 by done.
    rewrite (run_list_empty h head [e] _ Hq).
    rewrite bool_decide_eq_false_2 by done.
    by rewrite (run_list_is_singular h head [e] _ Hq).
  - unfold q_remove_tail, q_remove_head.
    rewrite bool_decide_eq_false_2 by done.
    rewrite !(run_list_empty h head [e] _ Hq).
    rewrite bool_decide_eq_false_2 by done.
    pose proof (queue_next_head _ _ _ Hq) as Hnx.
    pose proof (queue_prev_head _ _ _ Hq) as Hpv. simpl in Hnx, Hpv.
    by rewrite (run_load_next h head _ _ Hnx), (run_load_prev h head _ _ Hpv).
Qed.

Lemma operations_on_singleton_queue_witness :
  queue (mkq 100 [(1, "a")]) 100 [(1, "a")] ∧
  q_swap 0 100 (mkq 100 [(1, "a")]) = Ok tt (mkq 100 [(1, "a")]) ∧
  q_reverse 0 100 (mkq 100 [(1, "a")]) = Ok tt (mkq 100 [(1, "a")]) ∧
  q_sort 0 100 (mkq 100 [(1, "a")]) = Ok tt (mkq 100 [(1, "a")]) ∧
  q_delete_dup 0 100 (mkq 100 [(1, "a")]) = Ok true (mkq 100 [(1, "a")]) ∧
  q_remove_tail 100 (Some [zero]) 1 (mkq 100 [(1, "a")])
  = q_remove_head 100 (Some [zero]) 1 (mkq 100 [(1, "a")]).
Proof.
  split; [by apply concrete_queue|].
  apply (operations_on_singleton_queue 0 (mkq 100 [(1, "a")]) 100 (1, "a")
           (Some [zero]) 1).
  by apply concrete_queue.
Defined.

(** ** q_swap, q_reverse and insertion at the tail *)

Section SwapModel.
Implicit Types (l : list elem).

Lemma swap_pairs_length : ∀ n l,
  (length l ≤ n)%nat → length (swap_pairs l) = length l.
Proof.
  induction n as [|n IH]; intros l Hl.
  { by destruct l; [|simpl in Hl; lia]. }
  destruct l as [|a [|b l]]; [done..|]. simpl.
  rewrite IH; [done|]. simpl in Hl. lia.
Qed.

Lemma swap_pairs_twice : ∀ n l,
  (length l ≤ n)%nat → swap_pairs (swap_pairs l) = l.
Proof.
  induction n as [|n IH]; intros l Hl.
  { by destruct l; [|simpl in Hl; lia]. }
  destruct l as [|a [|b l]]; [done..|]. simpl.
  rewrite IH; [done|]. simpl in Hl. lia.
Qed.

Lemma swap_pairs_lookup : ∀ i l,
  ((2 * i + 1 < length l)%nat →
   swap_pairs l !! (2 * i)%nat = l !! (2 * i + 1)%nat ∧
   swap_pairs l !! (2 * i + 1)%nat = l !! (2 * i)%nat) ∧
  (length l = (2 * i + 1)%nat →
   swap_pairs l !! (2 * i)%nat = l !! (2 * i)%nat).
Proof.
  induction i as [|i IH]; intros l.
  { destruct l as [|a [|b l]]; simpl; split; intros; try done; lia. }
  destruct l as [|a [|b l]]; simpl.
  - split; intros; lia.
  - split; intros; lia.
  - destruct (IH l) as [IH1 IH2].
    replace (2 * S i)%nat with (S (S (2 * i))) by lia.
    replace (i + S (i + 0) + 1)%nat with (S (2 * i + 1)) by lia.
    replace (i + S (i + 0))%nat with (S (2 * i)) by lia. simpl.
    replace (i + (i + 0))%nat with (2 * i)%nat by lia.
    split.
    + intros Hlt. apply IH1. lia.
    + intros Hlen. apply IH2. lia.
Qed.
End SwapModel.

Section Involutions.
Implicit Types (h : heap) (head x : addr) (s : string) (es : list elem).

Lemma fmap_fst_perm_subseteq (l1 l2 : list elem) :
  l1 ≡ₚ l2 → l1.*1 ⊆ l2.*1.
Proof.
  intros Hp x Hx. apply list_elem_of_fmap in Hx as (e & -> & He).
  apply list_elem_of_fmap. exists e. split; [done|]. by rewrite <- Hp.
Qed.

Lemma cons_subseteq_cons (a : addr) (l1 l2 : list addr) :
  l1 ⊆ l2 → a :: l1 ⊆ a :: l2.
Proof.
  intros Hs x [->|Hx]%elem_of_cons; [left|right; by apply Hs].
Qed.

Lemma relinked_fresh S h h' x :
  relinked S h h' → links h !! x = None → links h' !! x = None.
Proof.
  intros Hr Hx. destruct (links h' !! x) as [n|] eqn:E; [|done].
  assert (is_Some (links h !! x)) as [m Hm].
  { apply (relinked_alloc _ _ _ _ Hr). by rewrite E. }
  congruence.
Qed.

Lemma q_swap_twice fuel h head es :
  queue h head es → (length es < fuel)%nat →
  (q_swap fuel head;; q_swap fuel head) h = Ok tt h.
Proof.
  intros Hq Hfuel.
  destruct (q_swap_spec fuel h head es Hq Hfuel) as (h1 & Hrun1 & Hq1 & Hr1).
  pose proof (swap_pairs_perm (length es) es (le_n _)) as Hp.
  destruct (q_swap_spec fuel h1 head _ Hq1) as (h2 & Hrun2 & Hq2 & Hr2).
  { by rewrite Hp. }
  rewrite (swap_pairs_twice (length es)) in Hq2 by done.
  erewrite run_bind by exact Hrun1. rewrite Hrun2. f_equal.
  apply (queue_relinked_eq (head :: es.*1) h h2 head es); [done..| |done].
  apply (relinked_trans _ h h1 h2); [done|].
  eapply relinked_mono; [|exact Hr2].
  apply cons_subseteq_cons. by apply fmap_fst_perm_subseteq.
Qed.

Lemma q_reverse_twice_heap fuel h head es :
  queue h head es → (length es < fuel)%nat →
  (q_reverse fuel head;; q_reverse fuel head) h = Ok tt h.
Proof.
  intros Hq Hfuel.
  destruct (q_reverse_spec fuel h head es Hq Hfuel) as (h1 & Hrun1 & Hq1 & Hr1).
  destruct (q_reverse_spec fuel h1 head _ Hq1) as (h2 & Hrun2 & Hq2 & Hr2).
  { by rewrite length_reverse. }
  rewrite reverse_involutive in Hq2.
  erewrite run_bind by exact Hrun1. rewrite Hrun2. f_equal.
  apply (queue_relinked_eq (head :: es.*1) h h2 head es); [done..| |done].
  apply (relinked_trans _ h h1 h2); [done|].
  eapply relinked_mono; [|exact Hr2].
  apply cons_subseteq_cons. apply fmap_fst_perm_subseteq.
  apply reverse_Permutation.
Qed.
End Involutions.

(** [q_swap] exchanges the elements of every pair of positions [2i], [2i+1]
    and leaves the last element of a queue of odd length where it is;
    nothing is allocated or released and no string changes. *)
Theorem q_swap_exchanges_pairs fuel h head es :
  queue h head es → (length es < fuel)%nat →
  ∃ h' es', q_swap fuel head h = Ok tt h' ∧ queue h' head es' ∧
            relinked (head :: es.*1) h h' ∧
            length es' = length es ∧
            ∀ i, ((2 * i + 1 < length es)%nat →
                  es' !! (2 * i)%nat = es !! (2 * i + 1)%nat ∧
                  es' !! (2 * i + 1)%nat = es !! (2 * i)%nat) ∧
                 (length es = (2 * i + 1)%nat →
                  es' !! (2 * i)%nat = es !! (2 * i)%nat).
Proof.
  intros Hq Hfuel.
  destruct (q_swap_spec fuel h head es Hq Hfuel) as (h' & Hrun & Hq' & Hr).
  exists h', (swap_pairs es). split_and!; [done..| |].
  - by apply (swap_pairs_length (length es)).
  - intros i. apply swap_pairs_lookup.
Qed.

Lemma q_swap_exchanges_pairs_witness :
  queue (mkq 100 [(1, "a"); (2, "b"); (3, "c")]) 100
    [(1, "a"); (2, "b"); (3, "c")] ∧
  ∃ h' es', q_swap 4 100 (mkq 100 [(1, "a"); (2, "b"); (3, "c")]) = Ok tt h' ∧
            queue h' 100 es' ∧
            relinked (100 :: [(1, "a"); (2, "b"); (3, "c")].*1)
              (mkq 100 [(1, "a"); (2, "b"); (3, "c")]) h' ∧
            length es' = length [(1, "a"); (2, "b"); (3, "c")] ∧
            ∀ i, ((2 * i + 1 < length [(1, "a"); (2, "b"); (3, "c")])%nat →
                  es' !! (2 * i)%nat
                  = [(1, "a"); (2, "b"); (3, "c")] !! (2 * i + 1)%nat ∧
                  es' !! (2 * i + 1)%nat
                  = [(1, "a"); (2, "b"); (3, "c")] !! (2 * i)%nat) ∧
                 (length [(1, "a"); (2, "b"); (3, "c")] = (2 * i + 1)%nat →
                  es' !! (2 * i)%nat
                  = [(1, "a"); (2, "b"); (3, "c")] !! (2 * i)%nat).
Proof.
  split; [by apply concrete_queue|].
  apply (q_swap_exchanges_pairs 4 _ 100 [(1, "a"); (2, "b"); (3, "c")]).
  - by apply concrete_queue.
  - simpl. lia.
Defined.

(** [q_swap] and [q_reverse] are involutions of the heap: called twice, each
    returns and leaves every link field of the heap, and everything else in
    it, exactly as it was. *)
Theorem q_swap_q_reverse_twice_restore_heap fuel h head es :
  queue h head es → (length es < fuel)%nat →
  (q_swap fuel head;; q_swap fuel head) h = Ok tt h ∧
  (q_reverse fuel head;; q_reverse fuel head) h = Ok tt h.
Proof.
  intros Hq Hfuel. split; [by eapply q_swap_twice|by eapply q_reverse_twice_heap].
Qed.

Lemma q_swap_q_reverse_twice_restore_heap_witness :
  queue (mkq 100 [(1, "a"); (2, "b"); (3, "c")]) 100
    [(1, "a"); (2, "b"); (3, "c")] ∧
  (q_swap 4 100;; q_swap 4 100) (mkq 100 [(1, "a"); (2, "b"); (3, "c")])
  = Ok tt (mkq 100 [(1, "a"); (2, "b"); (3, "c")]) ∧
  (q_reverse 4 100;; q_reverse 4 100) (mkq 100 [(1, "a"); (2, "b"); (3, "c")])
  = Ok tt (mkq 100 [(1, "a"); (2, "b"); (3, "c")]).
Proof.
  split; [by apply concrete_queue|].
  apply (q_swap_q_reverse_twice_restore_heap 4 _ 100
           [(1, "a"); (2, "b"); (3, "c")]).
  - by apply concrete_queue.
  - simpl. lia.
Defined.

(** [q_insert_tail] is [q_insert_head] on the reversed queue: reversing,
    inserting at the head and reversing again returns and leaves exactly the
    heap that the insertion at the tail leaves. *)
Theorem q_insert_tail_as_reversed_insert_head fuel h head es s e :
  queue h head es → e ≠ NULL → links h !! e = None →
  (length es + 1 < fuel)%nat →
  ∃ h', q_insert_tail head s e true h = Ok true h' ∧
        (q_reverse fuel head;; q_insert_head head s e true;;
         q_reverse fuel head) h = Ok tt h' ∧
        queue h' head (es ++ [(e, s)]).
Proof.
  intros Hq He Hfresh Hfuel.
  destruct (q_insert_tail_frame h head es s e Hq He Hfresh)
    as (h' & Hrun & Hq' & Hv' & Hl').
  destruct (q_reverse_spec fuel h head es Hq) as (h1 & Hrun1 & Hq1 & Hr1); [lia|].
  destruct (q_insert_head_frame h1 head (reverse es) s e Hq1 He)
    as (h2 & Hrun2 & Hq2 & Hv2 & Hl2).
  { by apply (relinked_fresh _ _ _ _ Hr1). }
  destruct (q_reverse_spec fuel h2 head _ Hq2) as (h3 & Hrun3 & Hq3 & Hr3).
  { simpl. rewrite length_reverse. lia. }
  rewrite reverse_cons, reverse_involutive in Hq3.
  exists h'. split_and!; [done| |done].
  erewrite run_bind by exact Hrun1.
  erewrite run_bind by exact Hrun2.
  rewrite Hrun3. f_equal.
  assert (∀ x, x ∈ (reverse es).*1 → x ∈ es.*1) as Hsub.
  { apply fmap_fst_perm_subseteq, reverse_Permutation. }
  apply (queue_heap_eq h' h3 head (es ++ [(e, s)])); [done..| |].
  - destruct Hr3 as (-> & _). rewrite Hv2, Hv'.
    by destruct Hr1 as (-> & _).
  - intros x Hx. rewrite fmap_app in Hx. simpl in Hx.
    assert (x ≠ head ∧ (x ∉ es.*1) ∧ x ≠ e) as (Hxh & Hxe & Hxn).
    { split_and!.
      - intros ->. apply Hx. left.
      - intros Hin. apply Hx. right. apply elem_of_app. by left.
      - intros ->. apply Hx. right. apply elem_of_app. right. left. }
    assert (x ∉ e :: head :: es.*1) as Hx1.
    { intros Hin. apply elem_of_cons in Hin as [->|Hin]; [done|].
      apply elem_of_cons in Hin as [->|Hin]; done. }
    assert (x ∉ e :: head :: (reverse es).*1) as Hx2.
    { intros Hin. apply elem_of_cons in Hin as [->|Hin]; [done|].
      apply elem_of_cons in Hin as [->|Hin]; [done|]. by apply Hxe, Hsub. }
    destruct Hr3 as (_ & _ & ->).
    2:{ rewrite fmap_cons. simpl. intros Hin.
        apply elem_of_cons in Hin as [->|Hin]; [done|].
        apply elem_of_cons in Hin as [->|Hin]; [done|]. by apply Hxe, Hsub. }
    rewrite Hl2 by done.
    destruct Hr1 as (_ & _ & ->).
    2:{ intros Hin. apply elem_of_cons in Hin as [->|Hin]; done. }
    symmetry. by apply Hl'.
Qed.

Lemma q_insert_tail_as_reversed_insert_head_witness :
  queue (mkq 100 [(1, "a"); (2, "b")]) 100 [(1, "a"); (2, "b")] ∧
  ∃ h', q_insert_tail 100 "c" 3 true (mkq 100 [(1, "a"); (2, "b")])
        = Ok true h' ∧
        (q_reverse 4 100;; q_insert_head 100 "c" 3 true;; q_reverse 4 100)
          (mkq 100 [(1, "a"); (2, "b")]) = Ok tt h' ∧
        queue h' 100 ([(1, "a"); (2, "b")] ++ [(3, "c")]).
Proof.
  split; [by apply concrete_queue|].
  apply (q_insert_tail_as_reversed_insert_head 4 _ 100 [(1, "a"); (2, "b")]
           "c" 3).
  - by apply concrete_queue.
  - done.
  - reflexivity.
  - simpl. lia.
Defined.

(** ** Merging, sorting and duplicates *)

Section SortedLists.
Implicit Types (x y : elem) (l : list elem).

Lemma ascending_le l : ∀ i j x y,
  ascending l → l !! i = Some x → l !! j = Some y → (i ≤ j)%nat →
  strcmp x.2 y.2 ≤ 0.
Proof.
  induction l as [|a l IH]; intros i j x y Ha Hi Hj Hij; [done|].
  pose proof (ascending_Forall _ _ Ha) as Hall.
  assert (ascending l) as Hl by (by apply adj_cons_inv in Ha).
  destruct i as [|i], j as [|j]; simpl in *; try lia.
  - injection Hi as <-. injection Hj as <-. by rewrite strcmp_refl.
  - injection Hi as <-. rewrite Forall_forall in Hall. apply Hall.
    by eapply list_elem_of_lookup_2.
  - apply (IH i j); [done..|lia].
Qed.

Lemma strcmp_le_antisym s t : strcmp s t ≤ 0 → strcmp t s ≤ 0 → strcmp s t = 0.
Proof. rewrite (strcmp_antisym s t). lia. Qed.

(** In an ascending sequence, an element without an equal neighbour is an
    element whose string no other element has. *)
Lemma unique_no_equal_neighbour l i x :
  ascending l → NoDup l.*1 → l !! i = Some x →
  ¬ equal_neighbour l i ↔ (∀ y, y ∈ l → strcmp y.2 x.2 = 0 → y = x).
Proof.
  intros Ha Hnd Hi. apply NoDup_fmap_1 in Hnd. split.
  - intros Hno y Hy Hyx. apply list_elem_of_lookup in Hy as [j Hj].
    destruct (decide (j = i)) as [->|Hne]; [congruence|].
    exfalso. apply Hno. exists x. split; [done|].
    destruct (decide (j < i)%nat) as [Hlt|Hge].
    + left. destruct i as [|i]; [lia|].
      destruct (lookup_lt_is_Some_2 l i) as [p Hp].
      { apply lookup_lt_Some in Hi. lia. }
      exists i, p. split_and!; [done..|].
      apply strcmp_le_antisym.
      * apply (ascending_le l i (S i)); [done..|lia].
      * apply (strcmp_le_trans _ y.2).
        -- apply strcmp_eq_sym in Hyx. lia.
        -- apply (ascending_le l j i); [done..|lia].
    + right.
      destruct (lookup_lt_is_Some_2 l (S i)) as [q Hq].
      { apply lookup_lt_Some in Hj. lia. }
      exists q. split; [done|].
      apply strcmp_le_antisym.
      * apply (ascending_le l i (S i)); [done..|lia].
      * apply (strcmp_le_trans _ y.2).
        -- apply (ascending_le l (S i) j); [done..|lia].
        -- lia.
  - intros Huniq (x' & Hx' & Hcase).
    assert (x' = x) as -> by congruence.
    destruct Hcase as [(j & p & -> & Hp & Hpx)|(q & Hq & Hxq)].
    + assert (p = x) as ->.
      { apply Huniq; [by eapply list_elem_of_lookup_2|done]. }
      pose proof (NoDup_lookup _ _ _ _ Hnd Hp Hi). lia.
    + assert (q = x) as ->.
      { apply Huniq; [by eapply list_elem_of_lookup_2|by apply strcmp_eq_sym]. }
      pose proof (NoDup_lookup _ _ _ _ Hnd Hq Hi). lia.
Qed.

Lemma dedup_unique l x :
  ascending l → NoDup l.*1 →
  x ∈ dedup false l ↔ x ∈ l ∧ ∀ y, y ∈ l → strcmp y.2 x.2 = 0 → y = x.
Proof.
  intros Ha Hnd. split.
  - intros Hx.
    assert (x ∈ l) as Hl.
    { eapply elem_of_sublist; [exact Hx|apply dedup_sublist]. }
    split; [done|].
    pose proof Hl as Hl'. apply list_elem_of_lookup in Hl' as [i Hi].
    apply (unique_no_equal_neighbour l i x Ha Hnd Hi).
    by apply (dedup_equal_neighbour l Hnd i x Hi).
  - intros [Hl Huniq]. apply list_elem_of_lookup in Hl as [i Hi].
    apply (dedup_equal_neighbour l Hnd i x Hi).
    by apply (unique_no_equal_neighbour l i x Ha Hnd Hi).
Qed.

Lemma dedup_no_duplicates l :
  adj (λ x y, strcmp x.2 y.2 ≠ 0) l →
  dedup false l = l ∧ dedup_removed false l = [].
Proof.
  induction l as [|a l IH]; [done|]. intros Ha.
  assert (eq_next a l = false) as Heq.
  { destruct l as [|b l]; [done|]. simpl.
    rewrite adj_cons_cons in Ha. destruct Ha as [Hab _].
    by apply bool_decide_eq_false_2. }
  rewrite dedup_cons, dedup_removed_cons, Heq.
  destruct IH as [-> ->]; [by apply adj_cons_inv in Ha|done].
Qed.
End SortedLists.

Section SortCompose.
Implicit Types (h : heap) (head x : addr) (es : list elem).

Lemma released_nothing_eq h h' head es S :
  queue h head es → queue h' head es → released [] S h h' →
  S ⊆ head :: es.*1 → h' = h.
Proof.
  intros Hq Hq' (_ & Hv & _ & Hl) HS.
  apply (queue_heap_eq h h' head es); [done..| |].
  - apply map_eq. intros x. apply Hv. by intros ?%elem_of_nil.
  - intros x Hx. apply Hl; [by intros ?%elem_of_nil|].
    intros Hin. by apply Hx, HS.
Qed.

Lemma q_delete_dup_nothing fuel h head es :
  queue h head es → adj (λ x y : elem, strcmp x.2 y.2 ≠ 0) es →
  (length es < fuel)%nat →
  q_delete_dup fuel head h = Ok true h.
Proof.
  intros Hq Hadj Hfuel.
  destruct (q_delete_dup_spec fuel h head es Hq Hfuel) as (h' & Hrun & Hq' & Hrel & _).
  destruct (dedup_no_duplicates es Hadj) as [E1 E2].
  rewrite E1 in Hq'. rewrite E2 in Hrel. simpl in Hrel.
  rewrite Hrun. f_equal.
  by apply (released_nothing_eq h h' head es (head :: es.*1)).
Qed.

Lemma mergesort_single fuel h x nx :
  next_of h x = Some nx → nx = NULL → mergesort (S fuel) x h = Ok x h.
Proof.
  intros Hnx ->. cbn [mergesort]. rewrite (run_load_next h x NULL) by done.
  by rewrite bool_decide_eq_true_2.
Qed.
End SortCompose.

(** [mergeTwoLists] on two disjoint null-terminated chains of elements
    returns the first node of one null-terminated chain that holds the
    elements of both; if the two chains are ascending, so is the result, and
    among elements with equal strings those of the second chain come first.
    When one of the chains is empty (a null pointer) the result is the other
    and the heap is unchanged.  Only [next] fields of the given nodes are
    written; no [prev] field is. *)
Theorem mergeTwoLists_merges_chains fuel h (l1 l2 : list elem) :
  NoDup (l1.*1 ++ l2.*1) → NULL ∉ l1.*1 ++ l2.*1 →
  chain (next_of h) (l1.*1 ++ [NULL]) → chain (next_of h) (l2.*1 ++ [NULL]) →
  has_values h l1 → has_values h l2 →
  (length l1 + length l2 < fuel)%nat →
  ∃ h' l, mergeTwoLists fuel (hd NULL l1.*1) (hd NULL l2.*1) h
          = Ok (hd NULL l.*1) h' ∧
          chain (next_of h') (l.*1 ++ [NULL]) ∧
          l ≡ₚ l1 ++ l2 ∧
          (ascending l1 → ascending l2 → ascending l) ∧
          (ascending l2 →
           ∀ s, filter (same_string s) l
                = filter (same_string s) l2 ++ filter (same_string s) l1) ∧
          (l1 = [] → l = l2 ∧ h' = h) ∧
          (l2 = [] → l = l1 ∧ h' = h) ∧
          relinked (l1.*1 ++ l2.*1) h h' ∧
          (∀ x, prev_of h' x = prev_of h x).
Proof.
  intros Hnd Hnull Hc1 Hc2 Hv1 Hv2 Hfuel.
  destruct (merge_loop_spec (length l1 + length l2) l1 l2 [] h fuel NULL AddrOfHead)
    as (h' & Hrun & Hc & Hr & Hp); [done..|].
  simpl in Hrun, Hc, Hr.
  exists h', (merge l1 l2). split_and!; [done|done|apply merge_perm|
    apply merge_ascending| |..|done|done].
  - intros Ha2 s. by apply merge_filter.
  - intros ->. split; [apply merge_nil_l|].
    destruct fuel as [|fuel]; [lia|].
    unfold mergeTwoLists in Hrun. simpl in Hrun.
    unfold mret, M_ret in Hrun. congruence.
  - intros ->. split; [apply merge_nil_r|].
    destruct fuel as [|fuel]; [lia|].
    unfold mergeTwoLists in Hrun. cbn [merge_loop fmap list_fmap hd] in Hrun.
    rewrite (bool_decide_eq_false_2 (NULL ≠ NULL)) in Hrun by (by intros ?).
    rewrite andb_false_r in Hrun. simpl in Hrun.
    unfold mret, M_ret in Hrun. congruence.
Qed.

Lemma mergeTwoLists_merges_chains_witness :
  NoDup ([(1, "a"); (3, "c")].*1 ++ [(2, "a"); (4, "b")].*1) ∧
  ∃ h' l, mergeTwoLists 5 (hd NULL [(1, "a"); (3, "c")].*1)
            (hd NULL [(2, "a"); (4, "b")].*1)
            (Heap {[ 1 := ListHead 3 0; 3 := ListHead 0 1;
                     2 := ListHead 4 0; 4 := ListHead 0 2 ]}
                  {[ 1 := "a"; 3 := "c"; 2 := "a"; 4 := "b" ]})
          = Ok (hd NULL l.*1) h' ∧
          chain (next_of h') (l.*1 ++ [NULL]) ∧
          l ≡ₚ [(1, "a"); (3, "c")] ++ [(2, "a"); (4, "b")] ∧
          (ascending [(1, "a"); (3, "c")] → ascending [(2, "a"); (4, "b")] →
           ascending l).
Proof.
  assert (NoDup ([(1, "a"); (3, "c")].*1 ++ [(2, "a"); (4, "b")].*1)) as Hnd.
  { apply (bool_decide_unpack _). by vm_compute. }
  split; [exact Hnd|].
  destruct (mergeTwoLists_merges_chains 5
              (Heap {[ 1 := ListHead 3 0; 3 := ListHead 0 1;
                       2 := ListHead 4 0; 4 := ListHead 0 2 ]}
                    {[ 1 := "a"; 3 := "c"; 2 := "a"; 4 := "b" ]})
              [(1, "a"); (3, "c")] [(2, "a"); (4, "b")])
    as (h' & l & Hrun & Hc & Hp & Ha & _).
  - exact Hnd.
  - apply (bool_decide_unpack _). by vm_compute.
  - unfold chain, adj. simpl. by vm_compute.
  - unfold chain, adj. simpl. by vm_compute.
  - unfold has_values. repeat constructor.
  - unfold has_values. repeat constructor.
  - simpl. lia.
  - exists h', l. split_and!; [exact Hrun|exact Hc|exact Hp|exact Ha].
Defined.

(** [mergesort] on a null-terminated chain of one or more elements whose
    [prev] fields point back along the chain returns the first node of a
    null-terminated chain of the same elements in ascending order.  It cuts
    the chain through [slow->prev->next], so it reads the [prev] fields, and
    it never writes one; a chain of one node is returned with the heap
    unchanged. *)
Theorem mergesort_sorts_chain fuel h (l : list elem) :
  l ≠ [] → NoDup l.*1 → NULL ∉ l.*1 →
  chain (next_of h) (l.*1 ++ [NULL]) →
  chain (prev_of h) (reverse l.*1) →
  has_values h l →
  (length l + 2 ≤ fuel)%nat →
  ∃ h' l', mergesort fuel (hd NULL l.*1) h = Ok (hd NULL l'.*1) h' ∧
           chain (next_of h') (l'.*1 ++ [NULL]) ∧
           ascending l' ∧ l' ≡ₚ l ∧
           relinked l.*1 h h' ∧
           (∀ x, prev_of h' x = prev_of h x) ∧
           (length l = 1%nat → h' = h).
Proof.
  intros Hne Hnd Hnull Hc Hp Hv Hfuel.
  destruct (mergesort_spec (length l) l h fuel) as (h' & Hrun & Hc' & Hr & Hp');
    [done..|].
  exists h', (msort l). split_and!; [done|done|apply msort_ascending|
    apply msort_perm|done|done|].
  intros Hlen. destruct l as [|a [|b l]]; [done| |simpl in Hlen; lia].
  destruct fuel as [|fuel]; [lia|].
  simpl in Hc. change (hd NULL [a].*1) with a.1 in Hrun.
  rewrite (mergesort_single fuel h a.1 NULL) in Hrun; [congruence| |done].
  unfold chain in Hc. rewrite adj_cons_cons in Hc. by destruct Hc.
Qed.

Lemma mergesort_sorts_chain_witness :
  NoDup [(1, "b"); (2, "a"); (3, "b")].*1 ∧
  ∃ h' l', mergesort 5 (hd NULL [(1, "b"); (2, "a"); (3, "b")].*1)
             (Heap {[ 1 := ListHead 2 9; 2 := ListHead 3 1; 3 := ListHead 0 2 ]}
                   {[ 1 := "b"; 2 := "a"; 3 := "b" ]})
           = Ok (hd NULL l'.*1) h' ∧
           chain (next_of h') (l'.*1 ++ [NULL]) ∧
           ascending l' ∧ l' ≡ₚ [(1, "b"); (2, "a"); (3, "b")].
Proof.
  assert (NoDup [(1, "b"); (2, "a"); (3, "b")].*1) as Hnd.
  { apply (bool_decide_unpack _). by vm_compute. }
  split; [exact Hnd|].
  destruct (mergesort_sorts_chain 5
              (Heap {[ 1 := ListHead 2 9; 2 := ListHead 3 1; 3 := ListHead 0 2 ]}
                    {[ 1 := "b"; 2 := "a"; 3 := "b" ]})
              [(1, "b"); (2, "a"); (3, "b")])
    as (h' & l' & Hrun & Hc & Ha & Hp & _).
  - done.
  - exact Hnd.
  - apply (bool_decide_unpack _). by vm_compute.
  - unfold chain, adj. simpl. by vm_compute.
  - unfold chain, adj. simpl. by vm_compute.
  - unfold has_values. repeat constructor.
  - simpl. lia.
  - exists h', l'. split_and!; [exact Hrun|exact Hc|exact Ha|exact Hp].
Defined.

(** [q_sort] followed by [q_delete_dup], the order of calls the comment of
    [q_delete_dup] asks for: the queue is left with exactly the elements
    whose string no other element of the queue had, in strictly ascending
    order; every other element is released, and nothing else changes but
    links of the queue. *)
Theorem q_sort_then_q_delete_dup_keeps_unique fuel h head es :
  queue h head es → (length es + 2 ≤ fuel)%nat →
  ∃ h' es' gone,
    (q_sort fuel head;; q_delete_dup fuel head) h = Ok true h' ∧
    queue h' head es' ∧ strictly_ascending es' ∧
    (∀ x, x ∈ es' ↔ x ∈ es ∧ ∀ y, y ∈ es → strcmp y.2 x.2 = 0 → y = x) ∧
    es' ++ gone ≡ₚ es ∧
    released gone.*1 (head :: es.*1) h h'.
Proof.
  intros Hq Hfuel.
  destruct (q_sort_spec fuel h head es Hq Hfuel) as (h1 & Hrun1 & Hq1 & Hr1).
  pose proof (msort_perm es) as Hperm.
  destruct (q_delete_dup_spec fuel h1 head _ Hq1) as (h2 & Hrun2 & Hq2 & Hrel & _).
  { rewrite Hperm. lia. }
  assert (NoDup (msort es).*1) as Hnd.
  { apply queue_NoDup in Hq1. by apply NoDup_cons in Hq1 as [_ ?]. }
  exists h2, (dedup false (msort es)), (dedup_removed false (msort es)).
  split_and!.
  - erewrite run_bind by exact Hrun1. exact Hrun2.
  - done.
  - apply dedup_strictly_ascending, msort_ascending.
  - intros x. rewrite (dedup_unique _ x (msort_ascending es) Hnd).
    rewrite Hperm. split; intros [Hx Hu]; (split; [done|]); intros y Hy.
    + apply Hu. by rewrite Hperm.
    + apply Hu. by rewrite <- Hperm.
  - by rewrite dedup_partition.
  - apply (released_trans [] _ _ h h1 h2).
    + by apply released_of_relinked.
    + eapply released_mono; [|exact Hrel].
      apply cons_subseteq_cons. by apply fmap_fst_perm_subseteq.
Qed.

Lemma q_sort_then_q_delete_dup_keeps_unique_witness :
  queue (mkq 100 [(1, "b"); (2, "a"); (3, "b"); (4, "c")]) 100
    [(1, "b"); (2, "a"); (3, "b"); (4, "c")] ∧
  ∃ h' es' gone,
    (q_sort 6 100;; q_delete_dup 6 100)
      (mkq 100 [(1, "b"); (2, "a"); (3, "b"); (4, "c")]) = Ok true h' ∧
    queue h' 100 es' ∧ strictly_ascending es' ∧
    (∀ x, x ∈ es' ↔
          x ∈ [(1, "b"); (2, "a"); (3, "b"); (4, "c")] ∧
          ∀ y, y ∈ [(1, "b"); (2, "a"); (3, "b"); (4, "c")] →
               strcmp y.2 x.2 = 0 → y = x) ∧
    es' ++ gone ≡ₚ [(1, "b"); (2, "a"); (3, "b"); (4, "c")] ∧
    released gone.*1 (100 :: [(1, "b"); (2, "a"); (3, "b"); (4, "c")].*1)
      (mkq 100 [(1, "b"); (2, "a"); (3, "b"); (4, "c")]) h'.
Proof.
  split; [by apply concrete_queue|].
  apply (q_sort_then_q_delete_dup_keeps_unique 6 _ 100
           [(1, "b"); (2, "a"); (3, "b"); (4, "c")]).
  - by apply concrete_queue.
  - simpl. lia.
Defined.

(** A stable sort out of [q_sort]: [q_sort] puts elements with equal strings
    in the reverse of their order, so [q_reverse] followed by [q_sort], and
    [q_sort] called twice, both leave the queue ascending with elements of
    equal strings in the order they had at the start. *)
Theorem q_reverse_then_q_sort_is_stable fuel h head es :
  queue h head es → (length es + 2 ≤ fuel)%nat →
  (∃ h' es', (q_reverse fuel head;; q_sort fuel head) h = Ok tt h' ∧
             queue h' head es' ∧ ascending es' ∧ es' ≡ₚ es ∧
             (∀ s, filter (same_string s) es' = filter (same_string s) es) ∧
             relinked (head :: es.*1) h h') ∧
  (∃ h' es', (q_sort fuel head;; q_sort fuel head) h = Ok tt h' ∧
             queue h' head es' ∧ ascending es' ∧ es' ≡ₚ es ∧
             (∀ s, filter (same_string s) es' = filter (same_string s) es) ∧
             relinked (head :: es.*1) h h').
Proof.
  intros Hq Hfuel. split.
  - destruct (q_reverse_spec fuel h head es Hq) as (h1 & Hrun1 & Hq1 & Hr1); [lia|].
    destruct (q_sort_spec fuel h1 head _ Hq1) as (h2 & Hrun2 & Hq2 & Hr2).
    { rewrite length_reverse. lia. }
    exists h2, (msort (reverse es)). split_and!.
    + erewrite run_bind by exact Hrun1. exact Hrun2.
    + done.
    + apply msort_ascending.
    + by rewrite msort_perm, reverse_Permutation.
    + intros s. by rewrite msort_filter, filter_reverse, reverse_involutive.
    + apply (relinked_trans _ h h1 h2); [done|].
      eapply relinked_mono; [|exact Hr2].
      apply cons_subseteq_cons, fmap_fst_perm_subseteq, reverse_Permutation.
  - destruct (q_sort_spec fuel h head es Hq Hfuel) as (h1 & Hrun1 & Hq1 & Hr1).
    destruct (q_sort_spec fuel h1 head _ Hq1) as (h2 & Hrun2 & Hq2 & Hr2).
    { rewrite msort_perm. lia. }
    exists h2, (msort (msort es)). split_and!.
    + erewrite run_bind by exact Hrun1. exact Hrun2.
    + done.
    + apply msort_ascending.
    + by rewrite !msort_perm.
    + intros s. by rewrite !msort_filter, reverse_involutive.
    + apply (relinked_trans _ h h1 h2); [done|].
      eapply relinked_mono; [|exact Hr2].
      apply cons_subseteq_cons, fmap_fst_perm_subseteq, msort_perm.
Qed.

Lemma q_reverse_then_q_sort_is_stable_witness :
  queue (mkq 100 [(1, "b"); (2, "a"); (3, "b"); (4, "a")]) 100
    [(1, "b"); (2, "a"); (3, "b"); (4, "a")] ∧
  (∃ h' es', (q_reverse 6 100;; q_sort 6 100)
               (mkq 100 [(1, "b"); (2, "a"); (3, "b"); (4, "a")]) = Ok tt h' ∧
             queue h' 100 es' ∧ ascending es' ∧
             es' ≡ₚ [(1, "b"); (2, "a"); (3, "b"); (4, "a")] ∧
             (∀ s, filter (same_string s) es'
                   = filter (same_string s)
                       [(1, "b"); (2, "a"); (3, "b"); (4, "a")]) ∧
             relinked (100 :: [(1, "b"); (2, "a"); (3, "b"); (4, "a")].*1)
               (mkq 100 [(1, "b"); (2, "a"); (3, "b"); (4, "a")]) h') ∧
  (∃ h' es', (q_sort 6 100;; q_sort 6 100)
               (mkq 100 [(1, "b"); (2, "a"); (3, "b"); (4, "a")]) = Ok tt h' ∧
             queue h' 100 es' ∧ ascending es' ∧
             es' ≡ₚ [(1, "b"); (2, "a"); (3, "b"); (4, "a")] ∧
             (∀ s, filter (same_string s) es'
                   = filter (same_string s)
                       [(1, "b"); (2, "a"); (3, "b"); (4, "a")]) ∧
             relinked (100 :: [(1, "b"); (2, "a"); (3, "b"); (4, "a")].*1)
               (mkq 100 [(1, "b"); (2, "a"); (3, "b"); (4, "a")]) h').
Proof.
  split; [by apply concrete_queue|].
  apply (q_reverse_then_q_sort_is_stable 6 _ 100
           [(1, "b"); (2, "a"); (3, "b"); (4, "a")]).
  - by apply concrete_queue.
  - simpl. lia.
Defined.

(** [q_delete_dup] on a queue in which no two neighbours have equal strings
    returns true and writes nothing: the heap is exactly what it was.  On an
    ascending queue a second call therefore changes nothing. *)
Theorem q_delete_dup_without_duplicates fuel h head es :
  queue h head es → (length es < fuel)%nat →
  (adj (λ x y : elem, strcmp x.2 y.2 ≠ 0) es →
   q_delete_dup fuel head h = Ok true h) ∧
  (ascending es →
   ∃ h', q_delete_dup fuel head h = Ok true h' ∧
         q_delete_dup fuel head h' = Ok true h').
Proof.
  intros Hq Hfuel. split.
  - intros Hadj. by apply (q_delete_dup_nothing fuel h head es).
  - intros Ha.
    destruct (q_delete_dup_spec fuel h head es Hq Hfuel) as (h' & Hrun & Hq' & _).
    exists h'. split; [done|].
    apply (q_delete_dup_nothing fuel h' head (dedup false es)); [done| |].
    + eapply adj_impl; [|by apply dedup_strictly_ascending].
      simpl. intros a b. lia.
    + pose proof (sublist_length _ _ (dedup_sublist false es)). lia.
Qed.

Lemma q_delete_dup_without_duplicates_witness :
  (queue (mkq 100 [(1, "a"); (2, "b"); (3, "a")]) 100
     [(1, "a"); (2, "b"); (3, "a")] ∧
   adj (λ x y : elem, strcmp x.2 y.2 ≠ 0) [(1, "a"); (2, "b"); (3, "a")] ∧
   q_delete_dup 4 100 (mkq 100 [(1, "a"); (2, "b"); (3, "a")])
   = Ok true (mkq 100 [(1, "a"); (2, "b"); (3, "a")])) ∧
  (queue (mkq 100 [(1, "a"); (2, "a"); (3, "b")]) 100
     [(1, "a"); (2, "a"); (3, "b")] ∧
   ascending [(1, "a"); (2, "a"); (3, "b")] ∧
   ∃ h', q_delete_dup 4 100 (mkq 100 [(1, "a"); (2, "a"); (3, "b")])
         = Ok true h' ∧
         q_delete_dup 4 100 h' = Ok true h').
Proof.
  assert (adj (λ x y : elem, strcmp x.2 y.2 ≠ 0) [(1, "a"); (2, "b"); (3, "a")])
    as Hadj by (cbv [adj]; repeat split; by vm_compute).
  assert (ascending [(1, "a"); (2, "a"); (3, "b")]) as Ha
    by (cbv [ascending adj]; repeat split; by vm_compute).
  split.
  - split; [by apply concrete_queue|]. split; [exact Hadj|].
    destruct (q_delete_dup_without_duplicates 4
                (mkq 100 [(1, "a"); (2, "b"); (3, "a")]) 100
                [(1, "a"); (2, "b"); (3, "a")]) as [Hrun _];
      [by apply concrete_queue|simpl; lia|].
    exact (Hrun Hadj).
  - split; [by apply concrete_queue|]. split; [exact Ha|].
    destruct (q_delete_dup_without_duplicates 4
                (mkq 100 [(1, "a"); (2, "a"); (3, "b")]) 100
                [(1, "a"); (2, "a"); (3, "b")]) as [_ Hrun];
      [by apply concrete_queue|simpl; lia|].
    exact (Hrun Ha).
Defined.

(** ** Insertion, sorted queues, q_size and the copy-out *)

Section StrictlyAscending.
Implicit Types (x y : elem) (l : list elem).

Lemma strcmp_lt_trans s t u :
  strcmp s t < 0 → strcmp t u < 0 → strcmp s u < 0.
Proof.
  intros H1 H2.
  assert (strcmp s u ≤ 0) by (apply (strcmp_le_trans s t u); lia).
  destruct (decide (strcmp s u = 0)) as [E|]; [|lia].
  assert (strcmp t s ≤ 0).
  { apply (strcmp_le_trans t u s); [lia|]. rewrite (strcmp_antisym s u). lia. }
  rewrite (strcmp_antisym s t) in *. lia.
Qed.

Lemma strictly_ascending_Forall x l :
  strictly_ascending (x :: l) → Forall (λ z, strcmp x.2 z.2 < 0) l.
Proof.
  revert x. induction l as [|y l IH]; intros x Ha; [done|].
  unfold strictly_ascending in Ha. rewrite adj_cons_cons in Ha.
  destruct Ha as [Hxy Ha]. constructor; [done|].
  eapply Forall_impl; [by apply IH|]. simpl. intros z Hz.
  by apply (strcmp_lt_trans _ y.2).
Qed.

Lemma strictly_ascending_app l1 l2 :
  strictly_ascending (l1 ++ l2) →
  strictly_ascending l1 ∧ strictly_ascending l2 ∧
  ∀ x y, x ∈ l1 → y ∈ l2 → strcmp x.2 y.2 < 0.
Proof.
  intros Ha. split_and!.
  - by apply adj_app_l in Ha.
  - by apply adj_app_r in Ha.
  - induction l1 as [|a l1 IH]; intros x y Hx Hy; [by apply elem_of_nil in Hx|].
    apply elem_of_cons in Hx as [->|Hx].
    + pose proof (strictly_ascending_Forall _ _ Ha) as Hall.
      rewrite Forall_forall in Hall. apply Hall. apply elem_of_app. by right.
    + apply IH; [|done..]. by apply adj_cons_inv in Ha.
Qed.

Lemma merge_app l1 l2 :
  (∀ x y, x ∈ l1 → y ∈ l2 → strcmp x.2 y.2 < 0) → merge l1 l2 = l1 ++ l2.
Proof.
  induction l1 as [|x l1 IH]; intros Hlt; [apply merge_nil_l|].
  destruct l2 as [|y l2]; [by rewrite merge_nil_r, app_nil_r|].
  rewrite merge_cons, bool_decide_eq_true_2 by (apply Hlt; left).
  simpl. f_equal. apply IH. intros a b Ha Hb. apply Hlt; [by right|done].
Qed.

Lemma msort_aux_strictly_ascending n l :
  strictly_ascending l → msort_aux n l = l.
Proof.
  revert l. induction n as [|n IH]; intros l Ha; [done|].
  destruct (decide (length l ≤ 1)%nat) as [Hs|Hs]; [by apply msort_aux_small|].
  rewrite msort_aux_split by lia.
  rewrite <- (take_drop (length l / 2) l) in Ha.
  apply strictly_ascending_app in Ha as (Ha1 & Ha2 & Hlt).
  rewrite (IH _ Ha1), (IH _ Ha2), merge_app by done.
  apply take_drop.
Qed.
End StrictlyAscending.

(** A successful insertion: with a block from the allocator that was not
    allocated and a successful [strdup], [q_insert_head] returns true and
    puts the new element first, [q_insert_tail] returns true and puts it
    last; the element holds a copy of the string, the block is the only one
    allocated, no other string changes, and only links of the queue are
    rewritten. *)
Theorem q_insert_places_element h head es s e :
  queue h head es → e ≠ NULL → links h !! e = None →
  ∃ h1 h2,
    q_insert_head head s e true h = Ok true h1 ∧
    queue h1 head ((e, s) :: es) ∧
    q_insert_tail head s e true h = Ok true h2 ∧
    queue h2 head (es ++ [(e, s)]) ∧
    values h1 = <[e := s]> (values h) ∧
    values h2 = <[e := s]> (values h) ∧
    dom (links h1) = {[e]} ∪ dom (links h) ∧
    dom (links h2) = {[e]} ∪ dom (links h) ∧
    ∀ x, x ∉ e :: head :: es.*1 →
      links h1 !! x = links h !! x ∧ links h2 !! x = links h !! x.
Proof.
  intros Hq He Hfresh.
  destruct (q_insert_head_frame h head es s e Hq He Hfresh)
    as (h1 & Hrun1 & Hq1 & Hv1 & Hl1).
  destruct (q_insert_tail_frame h head es s e Hq He Hfresh)
    as (h2 & Hrun2 & Hq2 & Hv2 & Hl2).
  destruct (q_insert_head_spec h head es s e Hq He Hfresh)
    as (h1' & Hrun1' & _ & _ & Hd1).
  destruct (q_insert_tail_spec h head es s e Hq He Hfresh)
    as (h2' & Hrun2' & _ & _ & Hd2).
  assert (h1' = h1) as -> by congruence.
  assert (h2' = h2) as -> by congruence.
  exists h1, h2. split_and!; [done..|].
  intros x Hx. split; [by apply Hl1|by apply Hl2].
Qed.

Lemma q_insert_places_element_witness :
  queue (mkq 100 [(1, "a")]) 100 [(1, "a")] ∧
  ∃ h1 h2,
    q_insert_head 100 "b" 2 true (mkq 100 [(1, "a")]) = Ok true h1 ∧
    queue h1 100 ((2, "b") :: [(1, "a")]) ∧
    q_insert_tail 100 "b" 2 true (mkq 100 [(1, "a")]) = Ok true h2 ∧
    queue h2 100 ([(1, "a")] ++ [(2, "b")]) ∧
    values h1 = <[2 := "b"]> (values (mkq 100 [(1, "a")])) ∧
    values h2 = <[2 := "b"]> (values (mkq 100 [(1, "a")])) ∧
    dom (links h1) = {[2]} ∪ dom (links (mkq 100 [(1, "a")])) ∧
    dom (links h2) = {[2]} ∪ dom (links (mkq 100 [(1, "a")])) ∧
    ∀ x, x ∉ 2 :: 100 :: [(1, "a")].*1 →
      links h1 !! x = links (mkq 100 [(1, "a")]) !! x ∧
      links h2 !! x = links (mkq 100 [(1, "a")]) !! x.
Proof.
  split; [by apply concrete_queue|].
  apply (q_insert_places_element (mkq 100 [(1, "a")]) 100 [(1, "a")] "b" 2).
  - by apply concrete_queue.
  - done.
  - reflexivity.
Defined.

(** [q_sort] on a queue that is already strictly ascending cuts the ring,
    sorts the chain and rebuilds the ring, and leaves the heap exactly as it
    was: every [next] and [prev] field gets back the value it had. *)
Theorem q_sort_strictly_ascending_unchanged fuel h head es :
  queue h head es → strictly_ascending es → (length es + 2 ≤ fuel)%nat →
  q_sort fuel head h = Ok tt h.
Proof.
  intros Hq Ha Hfuel.
  destruct (q_sort_spec fuel h head es Hq Hfuel) as (h' & Hrun & Hq' & Hr).
  unfold msort in Hq'. rewrite msort_aux_strictly_ascending in Hq' by done.
  rewrite Hrun. f_equal.
  by apply (queue_relinked_eq (head :: es.*1) h h' head es).
Qed.

Lemma q_sort_strictly_ascending_unchanged_witness :
  queue (mkq 100 [(1, "a"); (2, "b"); (3, "c")]) 100
    [(1, "a"); (2, "b"); (3, "c")] ∧
  strictly_ascending [(1, "a"); (2, "b"); (3, "c")] ∧
  q_sort 5 100 (mkq 100 [(1, "a"); (2, "b"); (3, "c")])
  = Ok tt (mkq 100 [(1, "a"); (2, "b"); (3, "c")]).
Proof.
  assert (strictly_ascending [(1, "a"); (2, "b"); (3, "c")]) as Ha
    by (cbv [strictly_ascending adj]; repeat split; by vm_compute).
  split; [by apply concrete_queue|]. split; [exact Ha|].
  apply (q_sort_strictly_ascending_unchanged 5 _ 100
           [(1, "a"); (2, "b"); (3, "c")]).
  - by apply concrete_queue.
  - exact Ha.
  - simpl. lia.
Defined.

(** [q_size] keeps count: it returns the number of elements and leaves the
    heap as it is, and called after another operation it returns one more
    after a successful insertion, one less after a removal or [q_delete_mid]
    on a queue that is not empty, and the same number after [q_swap],
    [q_reverse] and [q_sort]. *)
Theorem q_size_counts_elements fuel h head es s e sp n :
  queue h head es → Z.of_nat (length es) < INT_MAX →
  (length es + 2 ≤ fuel)%nat →
  e ≠ NULL → links h !! e = None → copy_ok sp n →
  q_size fuel head h = Ok (Z.of_nat (length es)) h ∧
  (∃ h', (q_insert_head head s e true;; q_size fuel head) h
         = Ok (Z.of_nat (length es) + 1) h') ∧
  (∃ h', (q_insert_tail head s e true;; q_size fuel head) h
         = Ok (Z.of_nat (length es) + 1) h') ∧
  (es ≠ [] →
   (∃ h', (q_remove_head head sp n;; q_size fuel head) h
          = Ok (Z.of_nat (length es) - 1) h') ∧
   (∃ h', (q_remove_tail head sp n;; q_size fuel head) h
          = Ok (Z.of_nat (length es) - 1) h') ∧
   (∃ h', (q_delete_mid fuel head;; q_size fuel head) h
          = Ok (Z.of_nat (length es) - 1) h')) ∧
  (∃ h', (q_swap fuel head;; q_size fuel head) h
         = Ok (Z.of_nat (length es)) h') ∧
  (∃ h', (q_reverse fuel head;; q_size fuel head) h
         = Ok (Z.of_nat (length es)) h') ∧
  (∃ h', (q_sort fuel head;; q_size fuel head) h
         = Ok (Z.of_nat (length es)) h').
Proof.
  intros Hq Hmax Hfuel He Hfresh Hok.
  assert (∀ (A : Type) (m : M A) (a : A) h' es' (k : Z),
            m h = Ok a h' → queue h' head es' →
            Z.of_nat (length es') = k → (length es' < fuel)%nat →
            k ≤ INT_MAX →
            ∃ h'', (m;; q_size fuel head) h = Ok k h'') as Hstep.
  { intros A m a h' es' k Hrun Hq' <- Hf Hk. exists h'.
    erewrite run_bind by exact Hrun. by apply q_size_spec. }
  split_and!.
  - apply q_size_spec; [done|lia|lia].
  - destruct (q_insert_head_spec h head es s e Hq He Hfresh) as (h' & Hrun & Hq' & _).
    eapply Hstep; [exact Hrun|exact Hq'|simpl; lia|simpl; lia|lia].
  - destruct (q_insert_tail_spec h head es s e Hq He Hfresh) as (h' & Hrun & Hq' & _).
    eapply Hstep; [exact Hrun|exact Hq'|rewrite length_app; simpl; lia|
      rewrite length_app; simpl; lia|lia].
  - intros Hne. split_and!.
    + destruct es as [|e0 es0]; [done|].
      destruct (q_remove_head_spec h head e0 es0 sp n Hq Hok) as (h' & Hrun & Hq' & _).
      eapply Hstep; [exact Hrun|exact Hq'|simpl; lia|simpl in *; lia|simpl in *; lia].
    + destruct (exists_last Hne) as (es0 & e0 & ->).
      rewrite length_app in *. simpl in *.
      destruct (q_remove_tail_spec h head e0 es0 sp n Hq Hok) as (h' & Hrun & Hq' & _).
      eapply Hstep; [exact Hrun|exact Hq'|lia|lia|lia].
    + destruct (q_delete_mid_spec fuel h head es Hq Hne) as (x & h' & Hx & Hrun & Hq' & _);
        [lia|].
      assert (length (delete (length es / 2)%nat es) = pred (length es)) as Hlen.
      { rewrite length_delete; [lia|]. by rewrite Hx. }
      assert (0 < length es)%nat by (destruct es; [done|simpl; lia]).
      eapply Hstep; [exact Hrun|exact Hq'|lia|lia|lia].
  - destruct (q_swap_spec fuel h head es Hq) as (h' & Hrun & Hq' & _); [lia|].
    pose proof (swap_pairs_length (length es) es (le_n _)) as Hlen.
    eapply Hstep; [exact Hrun|exact Hq'|lia|lia|lia].
  - destruct (q_reverse_spec fuel h head es Hq) as (h' & Hrun & Hq' & _); [lia|].
    eapply Hstep; [exact Hrun|exact Hq'|rewrite length_reverse; lia|
      rewrite length_reverse; lia|lia].
  - destruct (q_sort_spec fuel h head es Hq Hfuel) as (h' & Hrun & Hq' & _).
    pose proof (Permutation_length (msort_perm es)) as Hlen.
    eapply Hstep; [exact Hrun|exact Hq'|lia|lia|lia].
Qed.

Lemma q_size_counts_elements_witness :
  queue (mkq 100 [(1, "b"); (2, "a")]) 100 [(1, "b"); (2, "a")] ∧
  q_size 4 100 (mkq 100 [(1, "b"); (2, "a")])
  = Ok (Z.of_nat (length [(1, "b"); (2, "a")])) (mkq 100 [(1, "b"); (2, "a")]) ∧
  (∃ h', (q_insert_head 100 "c" 3 true;; q_size 4 100)
           (mkq 100 [(1, "b"); (2, "a")])
         = Ok (Z.of_nat (length [(1, "b"); (2, "a")]) + 1) h') ∧
  (∃ h', (q_insert_tail 100 "c" 3 true;; q_size 4 100)
           (mkq 100 [(1, "b"); (2, "a")])
         = Ok (Z.of_nat (length [(1, "b"); (2, "a")]) + 1) h') ∧
  ([(1, "b"); (2, "a")] ≠ [] →
   (∃ h', (q_remove_head 100 None 0;; q_size 4 100)
            (mkq 100 [(1, "b"); (2, "a")])
          = Ok (Z.of_nat (length [(1, "b"); (2, "a")]) - 1) h') ∧
   (∃ h', (q_remove_tail 100 None 0;; q_size 4 100)
            (mkq 100 [(1, "b"); (2, "a")])
          = Ok (Z.of_nat (length [(1, "b"); (2, "a")]) - 1) h') ∧
   (∃ h', (q_delete_mid 4 100;; q_size 4 100)
            (mkq 100 [(1, "b"); (2, "a")])
          = Ok (Z.of_nat (length [(1, "b"); (2, "a")]) - 1) h')) ∧
  (∃ h', (q_swap 4 100;; q_size 4 100) (mkq 100 [(1, "b"); (2, "a")])
         = Ok (Z.of_nat (length [(1, "b"); (2, "a")])) h') ∧
  (∃ h', (q_reverse 4 100;; q_size 4 100) (mkq 100 [(1, "b"); (2, "a")])
         = Ok (Z.of_nat (length [(1, "b"); (2, "a")])) h') ∧
  (∃ h', (q_sort 4 100;; q_size 4 100) (mkq 100 [(1, "b"); (2, "a")])
         = Ok (Z.of_nat (length [(1, "b"); (2, "a")])) h').
Proof.
  split; [by apply concrete_queue|].
  apply (q_size_counts_elements 4 (mkq 100 [(1, "b"); (2, "a")]) 100
           [(1, "b"); (2, "a")] "c" 3 None 0).
  - by apply concrete_queue.
  - by vm_compute.
  - simpl. lia.
  - done.
  - reflexivity.
  - exact I.
Defined.

(** The bytes of the copy-out, for [1 ≤ bufsize] within the buffer:
    [q_remove_head] and [q_remove_tail] overwrite the first [bufsize] bytes
    of the buffer and no other: the bytes of the string come first, at most
    [bufsize - 1] of them, every byte after them up to and including offset
    [bufsize - 1] is zero, and the bytes from offset [bufsize] on are what
    they were. *)
Theorem q_remove_copy_out_bytes h head es first rest front last buf n :
  queue h head es → es = first :: rest → es = front ++ [last] →
  1 ≤ n ≤ Z.of_nat (length buf) → n < 2 ^ SIZE_WIDTH →
  ∃ h1 h2 r1 r2,
    q_remove_head head (Some buf) n h = Ok (first.1, Some r1) h1 ∧
    q_remove_tail head (Some buf) n h = Ok (last.1, Some r2) h2 ∧
    length r1 = length buf ∧ length r2 = length buf ∧
    ∀ i : nat,
      ((i < Z.to_nat n - 1)%nat →
       (i < length (String.list_ascii_of_string first.2))%nat →
       r1 !! i = String.list_ascii_of_string first.2 !! i) ∧
      ((i < Z.to_nat n - 1)%nat →
       (i < length (String.list_ascii_of_string last.2))%nat →
       r2 !! i = String.list_ascii_of_string last.2 !! i) ∧
      ((i < Z.to_nat n)%nat →
       (Z.to_nat n - 1 ≤ i ∨
        length (String.list_ascii_of_string first.2) ≤ i)%nat →
       r1 !! i = Some zero) ∧
      ((i < Z.to_nat n)%nat →
       (Z.to_nat n - 1 ≤ i ∨
        length (String.list_ascii_of_string last.2) ≤ i)%nat →
       r2 !! i = Some zero) ∧
      ((Z.to_nat n ≤ i)%nat → r1 !! i = buf !! i ∧ r2 !! i = buf !! i).
Proof.
  intros Hq Hes1 Hes2 Hn Hw.
  assert (copy_ok (Some buf) n) as Hok by done.
  pose proof Hq as Hq1. rewrite Hes1 in Hq1.
  destruct (q_remove_head_spec h head first rest (Some buf) n Hq1 Hok)
    as (h1 & Hrun1 & _).
  pose proof Hq as Hq2. rewrite Hes2 in Hq2.
  destruct (q_remove_tail_spec h head last front (Some buf) n Hq2 Hok)
    as (h2 & Hrun2 & _).
  assert (∀ s, length (copied s (Z.to_nat n)) = Z.to_nat n) as Hlen
    by (intros; apply length_copied; lia).
  eexists h1, h2, _, _. split_and!; [exact Hrun1|exact Hrun2|..].
  - rewrite length_app, length_drop, Hlen. lia.
  - rewrite length_app, length_drop, Hlen. lia.
  - intros i. split_and!.
    + intros H1 H2. rewrite lookup_app_l by (rewrite Hlen; lia).
      by apply copied_lookup_string.
    + intros H1 H2. rewrite lookup_app_l by (rewrite Hlen; lia).
      by apply copied_lookup_string.
    + intros H1 H2. rewrite lookup_app_l by (rewrite Hlen; lia).
      by apply copied_lookup_zero.
    + intros H1 H2. rewrite lookup_app_l by (rewrite Hlen; lia).
      by apply copied_lookup_zero.
    + intros H1. rewrite !lookup_app_r by (rewrite Hlen; lia).
      rewrite !Hlen, !lookup_drop.
      replace (Z.to_nat n + (i - Z.to_nat n))%nat with i by lia. done.
Qed.

Lemma q_remove_copy_out_bytes_witness :
  queue (mkq 100 [(1, "abc"); (2, "z")]) 100 [(1, "abc"); (2, "z")] ∧
  ∃ h1 h2 r1 r2,
    q_remove_head 100 (Some [zero; zero; zero; zero]) 3
      (mkq 100 [(1, "abc"); (2, "z")]) = Ok (1, Some r1) h1 ∧
    q_remove_tail 100 (Some [zero; zero; zero; zero]) 3
      (mkq 100 [(1, "abc"); (2, "z")]) = Ok (2, Some r2) h2 ∧
    length r1 = length [zero; zero; zero; zero] ∧
    length r2 = length [zero; zero; zero; zero].
Proof.
  split; [by apply concrete_queue|].
  destruct (q_remove_copy_out_bytes (mkq 100 [(1, "abc"); (2, "z")]) 100
              [(1, "abc"); (2, "z")] (1, "abc") [(2, "z")] [(1, "abc")] (2, "z")
              [zero; zero; zero; zero] 3)
    as (h1 & h2 & r1 & r2 & Hrun1 & Hrun2 & Hl1 & Hl2 & _).
  - by apply concrete_queue.
  - reflexivity.
  - reflexivity.
  - simpl. lia.
  - reflexivity.
  - exists h1, h2, r1, r2.
    split; [exact Hrun1|]. split; [exact Hrun2|]. split; [exact Hl1|exact Hl2].
Defined.

(** ** The extremes of a sorted queue *)

(** [q_sort] followed by a removal: [q_remove_head] returns an element of
    the queue whose string is at most that of every element, and
    [q_remove_tail] one whose string is at least that of every element. *)
Theorem q_sort_then_remove_returns_extremes fuel h head es :
  queue h head es → es ≠ [] → (length es + 2 ≤ fuel)%nat →
  (∃ h' lo, (q_sort fuel head;; q_remove_head head None 0) h
            = Ok (lo.1, None) h' ∧
            lo ∈ es ∧ ∀ y, y ∈ es → strcmp lo.2 y.2 ≤ 0) ∧
  (∃ h' hi, (q_sort fuel head;; q_remove_tail head None 0) h
            = Ok (hi.1, None) h' ∧
            hi ∈ es ∧ ∀ y, y ∈ es → strcmp y.2 hi.2 ≤ 0).
Proof.
  intros Hq Hne Hfuel.
  destruct (q_sort_spec fuel h head es Hq Hfuel) as (h1 & Hrun1 & Hq1 & _).
  pose proof (msort_perm es) as Hperm.
  pose proof (msort_ascending es) as Hasc.
  assert (msort es ≠ []) as Hne'.
  { intros E. rewrite E in Hperm. by apply Permutation_nil_l in Hperm. }
  split.
  - destruct (msort es) as [|lo rest] eqn:E; [done|].
    destruct (q_remove_head_spec h1 head lo rest None 0 Hq1) as (h2 & Hrun2 & _);
      [done|].
    exists h2, lo. split_and!.
    + erewrite run_bind by exact Hrun1. exact Hrun2.
    + rewrite <- Hperm. left.
    + intros y Hy. rewrite <- Hperm in Hy.
      apply list_elem_of_lookup in Hy as [j Hj].
      apply (ascending_le (lo :: rest) 0 j); [done..|lia].
  - destruct (exists_last Hne') as (front & hi & E). rewrite E in *.
    destruct (q_remove_tail_spec h1 head hi front None 0 Hq1) as (h2 & Hrun2 & _);
      [done|].
    exists h2, hi. split_and!.
    + erewrite run_bind by exact Hrun1. exact Hrun2.
    + rewrite <- Hperm. apply elem_of_app. right. left.
    + intros y Hy. rewrite <- Hperm in Hy.
      apply list_elem_of_lookup in Hy as [j Hj].
      apply (ascending_le (front ++ [hi]) j (length front)); [done..| |].
      * by rewrite lookup_app_r, Nat.sub_diag.
      * apply lookup_lt_Some in Hj. rewrite length_app in Hj. simpl in Hj. lia.
Qed.

Lemma q_sort_then_remove_returns_extremes_witness :
  queue (mkq 100 [(1, "b"); (2, "c"); (3, "a")]) 100
    [(1, "b"); (2, "c"); (3, "a")] ∧
  (∃ h' lo, (q_sort 5 100;; q_remove_head 100 None 0)
              (mkq 100 [(1, "b"); (2, "c"); (3, "a")]) = Ok (lo.1, None) h' ∧
            lo ∈ [(1, "b"); (2, "c"); (3, "a")] ∧
            ∀ y, y ∈ [(1, "b"); (2, "c"); (3, "a")] → strcmp lo.2 y.2 ≤ 0) ∧
  (∃ h' hi, (q_sort 5 100;; q_remove_tail 100 None 0)
              (mkq 100 [(1, "b"); (2, "c"); (3, "a")]) = Ok (hi.1, None) h' ∧
            hi ∈ [(1, "b"); (2, "c"); (3, "a")] ∧
            ∀ y, y ∈ [(1, "b"); (2, "c"); (3, "a")] → strcmp y.2 hi.2 ≤ 0).
Proof.
  split; [by apply concrete_queue|].
  apply (q_sort_then_remove_returns_extremes 5 _ 100
           [(1, "b"); (2, "c"); (3, "a")]).
  - by apply concrete_queue.
  - done.
  - simpl. lia.
Defined.

(** ** q_delete_dup on equal strings *)

Section AllEqual.
Implicit Types (x y : elem) (l : list elem).

Lemma dedup_all_equal l :
  (∀ x y, x ∈ l → y ∈ l → strcmp x.2 y.2 = 0) →
  (dedup true l = [] ∧ dedup_removed true l = l) ∧
  ((2 ≤ length l)%nat → dedup false l = [] ∧ dedup_removed false l = l).
Proof.
  induction l as [|a l IH]; intros Heq; [split; [done|simpl; lia]|].
  destruct IH as [IH1 IH2].
  { intros x y Hx Hy. apply Heq; by right. }
  destruct l as [|b l].
  { split; [done|simpl; lia]. }
  assert (eq_next a (b :: l) = true) as E.
  { simpl. apply bool_decide_eq_true_2. apply Heq; [left|right; left]. }
  rewrite (dedup_cons true a), (dedup_cons false a),
    (dedup_removed_cons true a), (dedup_removed_cons false a), E.
  destruct IH1 as [-> ->]. done.
Qed.
End AllEqual.

(** [q_delete_dup] keeps no representative of a run of equal strings: on a
    queue of two or more elements whose strings are all equal it returns
    true, releases every element and leaves the queue empty. *)
Theorem q_delete_dup_all_equal_empties fuel h head es :
  queue h head es → (2 ≤ length es)%nat →
  (∀ x y, x ∈ es → y ∈ es → strcmp x.2 y.2 = 0) →
  (length es < fuel)%nat →
  ∃ h', q_delete_dup fuel head h = Ok true h' ∧ queue h' head [] ∧
        released es.*1 (head :: es.*1) h h'.
Proof.
  intros Hq Hlen Heq Hfuel.
  destruct (q_delete_dup_spec fuel h head es Hq Hfuel) as (h' & Hrun & Hq' & Hrel & _).
  destruct (dedup_all_equal es Heq) as [_ Hd].
  destruct (Hd Hlen) as [E1 E2]. rewrite E1 in Hq'. rewrite E2 in Hrel.
  by exists h'.
Qed.

Lemma q_delete_dup_all_equal_empties_witness :
  queue (mkq 100 [(1, "a"); (2, "a"); (3, "a")]) 100
    [(1, "a"); (2, "a"); (3, "a")] ∧
  ∃ h', q_delete_dup 4 100 (mkq 100 [(1, "a"); (2, "a"); (3, "a")])
        = Ok true h' ∧
        queue h' 100 [] ∧
        released [(1, "a"); (2, "a"); (3, "a")].*1
          (100 :: [(1, "a"); (2, "a"); (3, "a")].*1)
          (mkq 100 [(1, "a"); (2, "a"); (3, "a")]) h'.
Proof.
  split; [by apply concrete_queue|].
  apply (q_delete_dup_all_equal_empties 4 _ 100 [(1, "a"); (2, "a"); (3, "a")]).
  - by apply concrete_queue.
  - simpl. lia.
  - intros x y Hx Hy.
    assert (∀ z : elem, z ∈ [(1, "a"); (2, "a"); (3, "a")] → z.2 = "a") as Hz.
    { intros z Hin.
      apply elem_of_cons in Hin as [->|Hin]; [done|].
      apply elem_of_cons in Hin as [->|Hin]; [done|].
      apply elem_of_cons in Hin as [->|Hin]; [done|].
      by apply elem_of_nil in Hin. }
    rewrite (Hz x Hx), (Hz y Hy). reflexivity.
  - simpl. lia.
Defined.

(** ** Runs of the code on the examples *)

(** [q_sort] on two elements with the same string exchanges them. *)
Example run_q_sort_equal_pair :
  value_of ((q_sort 4 100;; contents 4 100) (mkq 100 [(1, "a"); (2, "a")]))
  = Some [(2, "a"); (1, "a")].
Proof. vm_compute. reflexivity. Qed.

(** [q_sort] on an unsorted queue: ascending, equal strings in reverse
    order. *)
Example run_q_sort :
  value_of ((q_sort 8 100;; contents 8 100)
              (mkq 100 [(1, "b"); (2, "a"); (3, "b"); (4, "a"); (5, "c"); (6, "a")]))
  = Some [(6, "a"); (4, "a"); (2, "a"); (3, "b"); (1, "b"); (5, "c")].
Proof. vm_compute. reflexivity. Qed.

(** [q_delete_mid] on the six strings "a" to "f" deletes "d". *)
Example run_delete_mid_on_six :
  value_of ((q_delete_mid 7 100;; contents 7 100) (mkq 100 six))
  = Some six_without_d.
Proof. vm_compute. reflexivity. Qed.

(** [q_delete_dup] on the two examples of the specification and on an
    unsorted queue. *)
Example run_q_delete_dup :
  value_of ((q_delete_dup 6 100;; contents 6 100)
              (mkq 100 [(1, "a"); (2, "b"); (3, "b"); (4, "b"); (5, "c")]))
  = Some [(1, "a"); (5, "c")] ∧
  value_of ((q_delete_dup 6 100;; contents 6 100)
              (mkq 100 [(1, "a"); (2, "b"); (3, "c")]))
  = Some [(1, "a"); (2, "b"); (3, "c")] ∧
  value_of ((q_delete_dup 6 100;; contents 6 100)
              (mkq 100 [(1, "a"); (2, "b"); (3, "b"); (4, "a")]))
  = Some [(1, "a"); (4, "a")].
Proof. vm_compute. done. Qed.

(** [q_reverse] and [q_swap]. *)
Example run_q_reverse_q_swap :
  value_of ((q_reverse 4 100;; contents 4 100)
              (mkq 100 [(1, "x"); (2, "y"); (3, "z")]))
  = Some [(3, "z"); (2, "y"); (1, "x")] ∧
  value_of ((q_swap 4 100;; contents 4 100)
              (mkq 100 [(1, "1"); (2, "2"); (3, "3")]))
  = Some [(2, "2"); (1, "1"); (3, "3")].
Proof. vm_compute. done. Qed.

(** The copy-out of [q_remove_head]: into a buffer of three bytes with
    [bufsize = 3], two bytes of "abc" and the terminator; with
    [bufsize = 0], a write outside the buffer. *)
Example run_q_remove_head :
  value_of (q_remove_head 100 (Some [zero; zero; zero]) 3 (mkq 100 [(1, "abc")]))
  = Some (1, Some [ascii_of_nat 97; ascii_of_nat 98; zero]) ∧
  q_remove_head 100 (Some [zero; zero; zero]) 0 (mkq 100 [(1, "abc")]) = Fault.
Proof. vm_compute. done. Qed.

(** [q_free] releases every block of a queue; a queue made by [q_new] and
    [q_insert_tail] on the empty heap and then freed leaves the empty heap. *)
Example run_q_free :
  q_free 3 100 (mkq 100 [(1, "a"); (2, "b")]) = Ok tt (Heap ∅ ∅) ∧
  (head ← q_new 100; insert_all head [(1, "a"); (2, "b")];; q_free 3 head)
    (Heap ∅ ∅) = Ok tt (Heap ∅ ∅).
Proof. vm_compute. done. Qed.

(** Insertions at the tail and removals at the head: first in, first out. *)
Example run_insert_all_remove_all :
  value_of ((insert_all 100 [(2, "b"); (3, "c")];; remove_all 3 100)
              (mkq 100 [(1, "a")]))
  = Some [1; 2; 3].
Proof. vm_compute. reflexivity. Qed.

(** [mergeTwoLists] on the chains "a", "c" and "a", "b": on the tie the
    node of the second chain comes first. *)
Example run_mergeTwoLists :
  value_of ((mergeTwoLists 5 1 2;; contents_loop 5 NULL 2)
              (Heap {[ 1 := ListHead 3 0; 3 := ListHead 0 1;
                       2 := ListHead 4 0; 4 := ListHead 0 2 ]}
                    {[ 1 := "a"; 3 := "c"; 2 := "a"; 4 := "b" ]}))
  = Some [(2, "a"); (1, "a"); (4, "b"); (3, "c")].
Proof. vm_compute. reflexivity. Qed.
